(** * Multitarget-tracker: the per-frame tracking core (src/Tracker/Ctracker.cpp)

    A shallow embedding of [CTracker]: its constructor, [Update],
    [UpdateTrackingState], [CreateDistaceMatrix] and [CalcEmbeddins], and the
    properties of the tracker that follow from them.

    Conventions of the embedding.
    - [track_t] (a C++ float) is modelled by rationals [Q]: sums, products
      and comparisons of [track_t] values are the exact ones, so the rounding
      of float arithmetic and NaN are outside the model. The conversion of an
      [int] to [track_t] is the one place where the rounding is modelled
      ([int_to_track_t]).
    - [int] is a 32-bit two's complement integer: the product [cols * rows]
      wraps around ([int_mul]).
    - [size_t] counters and indices are [nat]; entries of the assignment
      vector are [Z] with [-1] for "no region".
    - Indexing a vector out of range is undefined behaviour in C++; here every
      indexed read returns [option] and the operation that performs it yields
      [None].
    - Classes declared in headers that are not part of the translation unit
      ([CTrack], the assignment solvers, the OpenCV and embedding back ends)
      are interfaces: type classes whose methods carry the names used at the
      call sites.
    - Writes to [std::cout] / [std::cerr] are not modelled. *)

From Stdlib Require Import ZArith QArith Qround Lqa Lia.
From stdpp Require Import base tactics option list numbers gmap strings.

Local Open Scope nat_scope.

(** ** Scalars *)

Abbreviation track_t := Q (only parsing).
Abbreviation objtype_t := Z (only parsing).

(** [a > b] on [track_t]. *)
Definition Qgtb (a b : Q) : bool := negb (Qle_bool a b).
(** [a < b] on [track_t]. *)
Definition Qltb (a b : Q) : bool := negb (Qle_bool b a).

(** [cvRound]: nearest integer, ties to the even neighbour. *)
Definition cvRound (q : Q) : Z :=
  let f := Qfloor q in
  let r := (q - inject_Z f)%Q in
  if Qltb r (1 # 2) then f
  else if Qgtb r (1 # 2) then (f + 1)%Z
  else if Z.even f then f else (f + 1)%Z.

(** The value an [int] computation leaves in a 32-bit two's complement
    register. *)
Definition wrap_int (z : Z) : Z := ((z + 2 ^ 31) mod 2 ^ 32 - 2 ^ 31)%Z.

(** [a * b] on [int]. Signed overflow is undefined behaviour in C++; the
    compiled multiplication keeps the low 32 bits. *)
Definition int_mul (a b : Z) : Z := wrap_int (a * b).

(** [static_cast<track_t>(z)] for an [int] [z]: the nearest value with a
    significand of 24 bits, ties to the even significand. [drop] is the
    number of low bits of [|z|] that do not fit. *)
Definition int_to_track_t (z : Z) : Q :=
  let m := Z.abs z in
  let drop := Z.max 0 (Z.log2 m + 1 - 24) in
  let q := Z.shiftr m drop in
  let r := (m mod 2 ^ drop)%Z in
  let half := (2 ^ (drop - 1))%Z in
  let q' :=
    if (drop =? 0)%Z then q
    else if (half <? r)%Z then (q + 1)%Z
    else if (r <? half)%Z then q
    else if Z.even q then q else (q + 1)%Z in
  inject_Z (Z.sgn z * Z.shiftl q' drop).

(** ** OpenCV value types *)

Module cv.
Record Point_ := { x : track_t; y : track_t }.
Record Size_ := { width : track_t; height : track_t }.
Record RotatedRect := { center : Point_; size : Size_; angle : track_t }.
Record Rect := { rx : Z; ry : Z; rwidth : Z; rheight : Z }.
(** A dense matrix of reals, flattened; [Mat()] is the empty list. *)
Abbreviation Mat := (list Q) (only parsing).
Definition Mat_empty (m : Mat) : bool := match m with [] => true | _ => false end.
Fixpoint dot (a b : Mat) : Q :=
  match a, b with
  | u :: a', v :: b' => (u * v + dot a' b')%Q
  | _, _ => 0%Q
  end.
(** An image handle: geometry, channel count and pixel data. *)
Record UMat := { cols : Z; rows : Z; nchannels : Z; pixels : list Z }.
(** The default-constructed, empty image. *)
Definition UMat_default : UMat :=
  {| cols := 0; rows := 0; nchannels := 1; pixels := [] |}.
(** [src.copyTo(dst)]: [dst] becomes a deep copy of [src]. *)
Definition copyTo (src dst : UMat) : UMat := src.
End cv.

(** [static_cast<track_t>(currFrame.cols * currFrame.rows)]: the product is
    taken in [int] and then converted. *)
Definition max_possible_cost (currFrame : cv.UMat) : track_t :=
  int_to_track_t (int_mul (cv.cols currFrame) (cv.rows currFrame)).

(** ** Regions and their appearance descriptors *)

(** Modelled from the spec: [CRegion] (section 3, Region); its declaration is
    in a header that is not part of the translation unit. The fields are the
    ones [Ctracker.cpp] reads. *)
Record CRegion := {
  m_rrect : cv.RotatedRect;
  m_brect : cv.Rect;
  m_type : objtype_t;
  m_confidence : track_t }.

Abbreviation regions_t := (list CRegion) (only parsing).

(** Modelled from the spec: [RegionEmbedding] (section 3): histogram,
    embedding vector and the cached dot product of the embedding with itself;
    declared in an absent header. *)
Record RegionEmbedding := {
  m_hist : cv.Mat;
  m_embedding : cv.Mat;
  m_embDot : Q }.

(** Modelled from the spec: the value-initialised element that
    [vector::resize] appends: both descriptors empty (section 3). *)
Definition RegionEmbedding_default : RegionEmbedding :=
  {| m_hist := []; m_embedding := []; m_embDot := 0 |}.

Definition set_hist (hst : cv.Mat) (e : RegionEmbedding) : RegionEmbedding :=
  {| m_hist := hst; m_embedding := m_embedding e; m_embDot := m_embDot e |}.
Definition set_embedding (v : cv.Mat) (e : RegionEmbedding) : RegionEmbedding :=
  {| m_hist := m_hist e; m_embedding := v; m_embDot := m_embDot e |}.
Definition set_embDot (d : Q) (e : RegionEmbedding) : RegionEmbedding :=
  {| m_hist := m_hist e; m_embedding := m_embedding e; m_embDot := d |}.

(** ** Settings *)

Module tracking.
(** Modelled from the spec: the enumerations of namespace [tracking] (absent
    header): the two solver strategies (section 4.1) and the two filter
    goals (section 4.4). *)
Inductive MatchType := MatchHungrian | MatchBipart.
Inductive FilterGoal := FilterCenter | FilterRect.
Definition FilterGoal_eqb (a b : FilterGoal) : bool :=
  match a, b with
  | FilterCenter, FilterCenter | FilterRect, FilterRect => true
  | _, _ => false
  end.
(** Modelled from the spec: the indices into [m_distType], in the fixed order
    [{Centers, Rects, Jaccard, Hist, FeatureCos}] of section 4.6;
    [CreateDistaceMatrix] walks them in this order and asserts that it ends
    at [DistsCount]. *)
Definition DistCenters := 0.
Definition DistRects := 1.
Definition DistJaccard := 2.
Definition DistHist := 3.
Definition DistFeatureCos := 4.
Definition DistsCount := 5.
End tracking.

(** Modelled from the spec: one entry of [embeddings[]] (section 6). *)
Record EmbeddingParams := {
  m_embeddingCfgName : string;
  m_embeddingWeightsName : string;
  m_inputLayer : Z * Z;
  m_objectTypes : list Z }.

(** Modelled from the spec: [TrackerSettings] (section 6), declared in an
    absent header; the members are the ones [Ctracker.cpp] reads, and
    [CheckType] is the type-compatibility predicate. *)
Record TrackerSettings := {
  m_matchType : tracking.MatchType;
  m_distThres : track_t;
  m_distType : nat → track_t;
  m_kalmanType : Z;
  m_filterGoal : tracking.FilterGoal;
  m_lostTrackType : Z;
  m_dt : track_t;
  m_accelNoiseMag : track_t;
  m_useAcceleration : bool;
  m_maxTraceLength : nat;
  m_maximumAllowedSkippedFrames : nat;
  m_minStaticTime : Z;
  m_maxStaticTime : Z;
  m_maxSpeedForStatic : Z;
  m_useAbandonedDetection : bool;
  m_minAreaRadiusPix : track_t;
  m_minAreaRadiusK : track_t;
  m_embeddings : list EmbeddingParams;
  CheckType : objtype_t → objtype_t → bool }.

(** ** Interfaces of the collaborating classes *)

(** Modelled from the spec: an [EmbeddingsCalculator] (section 4.3, class in
    an absent header), identified by the arguments of its [Initialize]
    call. *)
Record EmbeddingsCalculator := {
  ec_cfgName : string;
  ec_weightsName : string;
  ec_inputLayer : Z * Z }.

(** The methods of [EmbeddingsCalculator] that the tracker calls, taken as
    parameters. *)
Class EmbeddingsOps := {
  (** [EmbeddingsCalculator::Initialize]: [true] on success. *)
  Initialize : string → string → Z * Z → bool;
  (** [EmbeddingsCalculator::Calc]: the embedding of a crop of the frame. *)
  Calc : EmbeddingsCalculator → cv.UMat → cv.Rect → cv.Mat }.

(** The OpenCV operations behind the histogram of a region, taken as
    parameters. *)
Class HistOps := {
  (** [frame(rect)]: the region of interest. *)
  roi : cv.UMat → cv.Rect → cv.UMat;
  (** [cv::calcHist(images, channels, Mat(), hist, histSize, ranges, false)]. *)
  calcHist : list cv.UMat → list Z → list Z → list Q → cv.Mat;
  (** [cv::normalize(src, dst, alpha, beta, NORM_MINMAX, -1, Mat())]. *)
  normalize : cv.Mat → Q → Q → cv.Mat }.

Abbreviation distMatrix_t := (list track_t) (only parsing).
Abbreviation assignments_t := (list Z) (only parsing).

(** Modelled from the spec: the solver's settings, built in the constructor
    as [{ settings.m_distThres, 12 }]. *)
Record SPSettings := { sp_maxDist : track_t; sp_maxHistory : nat }.

(** Modelled from the spec: what [m_SPCalculator] points to, one of the two
    solver classes (section 4.1). *)
Inductive ShortPathCalculator :=
| SPHungrian (s : SPSettings)
| SPBipart (s : SPSettings).

(** The [Solve] method of the solver classes, taken as a parameter. *)
Class SolverOps := {
  (** [Solve(costMatrix, N, M, assignment, maxCost)]: the assignment vector
      as the solver leaves it. *)
  Solve : ShortPathCalculator → distMatrix_t → nat → nat → assignments_t →
          track_t → assignments_t }.

(** Modelled from the spec: a track (section 3; class [CTrack] is in an
    absent header): the identifier given to its constructor, the
    skipped-frames counter that [SkippedFrames()] exposes by reference, and
    the rest of the object (motion filter, last region, trace, stored
    appearance). *)
Record CTrack (D : Type) := {
  m_trackID : nat;
  m_skippedFrames : nat;
  m_state : D }.
Arguments m_trackID {D} _.
Arguments m_skippedFrames {D} _.
Arguments m_state {D} _.

(** [t->SkippedFrames() = n]. *)
Definition set_SkippedFrames {D} (n : nat) (t : CTrack D) : CTrack D :=
  {| m_trackID := m_trackID t; m_skippedFrames := n; m_state := m_state t |}.

(** The constructors and methods of [CTrack] that the tracker calls, taken as
    parameters over the hidden part [D] of a track. *)
Class CTrackOps (D : Type) := {
  (** [CRegion()]. *)
  CRegion_default : CRegion;
  (** [CTrack(region, kalmanType, dt, accelNoiseMag, useAcceleration, trackID,
      filterObjectSize, externalTrackerForLost)]. *)
  CTrack_new : CRegion → Z → track_t → track_t → bool → nat → bool → Z → CTrack D;
  (** The constructor overload that also takes the region's embedding. *)
  CTrack_new_emb : CRegion → RegionEmbedding → Z → track_t → track_t → bool →
                   nat → bool → Z → CTrack D;
  (** [CTrack::Update(region, dataCorrect, maxTraceLength, prevFrame, currFrame,
      trajLen, maxSpeedForStatic)]. *)
  Track_Update : CTrack D → CRegion → bool → nat → cv.UMat → cv.UMat → Z → Z → CTrack D;
  (** The [Update] overload that also takes the region's embedding. *)
  Track_Update_emb : CTrack D → CRegion → RegionEmbedding → bool → nat → cv.UMat →
               cv.UMat → Z → Z → CTrack D;
  IsOutOfTheFrame : CTrack D → bool;
  IsStaticTimeout : CTrack D → Z → bool;
  LastRegion : CTrack D → CRegion;
  CalcPredictionEllipse : CTrack D → cv.Size_ → cv.RotatedRect;
  IsInsideArea : CTrack D → cv.Point_ → cv.RotatedRect → track_t;
  WidthDist : CTrack D → CRegion → track_t;
  HeightDist : CTrack D → CRegion → track_t;
  CalcDistJaccard : CTrack D → CRegion → track_t;
  CalcDistHist : CTrack D → RegionEmbedding → track_t;
  CalcCosine : CTrack D → RegionEmbedding → track_t }.

(** ** Loops *)

(** [for (i : idx) body]: the body runs once per index, in the order of
    [idx]; an iteration that fails makes the loop fail. *)
Fixpoint for_each {S : Type} (body : nat → S → option S) (idx : list nat) (s : S)
  : option S :=
  match idx with
  | [] => Some s
  | i :: rest => s' ← body i s; for_each body rest s'
  end.

(** [for (size_t i = 0; i < n; ++i) body]. *)
Definition for_range {S : Type} (body : nat → S → option S) (n : nat) (s : S)
  : option S :=
  for_each body (seq 0 n) s.

(** [v[i] = f(v[i])] with the bounds check made explicit. *)
Definition modify_at {A : Type} (i : nat) (f : A → A) (v : list A) : option (list A) :=
  a ← v !! i; Some (<[i := f a]> v).

(** [v.resize(n)] on an empty or shorter vector pads with [d]; on a longer
    one it truncates. *)
Definition resize_vec {A : Type} (n : nat) (d : A) (v : list A) : list A :=
  take n v ++ replicate (n - length v) d.

(** [v.erase(v.begin() + i)]. *)
Definition erase_at {A : Type} (i : nat) (v : list A) : list A :=
  take i v ++ drop (S i) v.

Definition vec_empty {A : Type} (v : list A) : bool :=
  match v with [] => true | _ => false end.

(** [v[k]] for an index computed from an [int]: a negative index is out of
    range. *)
Definition lookupZ {A : Type} (v : list A) (k : Z) : option A :=
  if (k <? 0)%Z then None else v !! Z.to_nat k.

(** [m.try_emplace(k, v)]: inserts only when [k] has no entry yet. *)
Definition try_emplace {V : Type} (k : Z) (v : V) (m : gmap Z V) : gmap Z V :=
  match m !! k with
  | Some _ => m
  | None => <[k := v]> m
  end.

(** ** The tracker *)

(** Modelled from the spec: the members of [CTracker] that [Ctracker.cpp]
    uses (the class is declared in the absent [Ctracker.h]).
    [m_SPCalculator] is a [unique_ptr]: [None] is the null pointer. *)
Record CTracker (D : Type) := {
  m_settings : TrackerSettings;
  m_tracks : list (CTrack D);
  m_nextTrackID : nat;
  m_SPCalculator : option ShortPathCalculator;
  m_embCalculators : gmap Z EmbeddingsCalculator;
  m_prevFrame : cv.UMat }.
Arguments m_settings {D} _.
Arguments m_tracks {D} _.
Arguments m_nextTrackID {D} _.
Arguments m_SPCalculator {D} _.
Arguments m_embCalculators {D} _.
Arguments m_prevFrame {D} _.

(** ** Stand-ins for the collaborating classes *)

(** Small executable instances of the interfaces above, used to run the
    tracker on concrete frames. *)
Module Ref.

(** Modelled from the spec: the part of a track that lies behind the
    [CTrack] interface (its definition is in a header that is not part of
    this translation unit): last region, trace of centers, static-frame
    counter, out-of-frame flag and stored appearance. *)
Record TrackData := {
  td_lastRegion : CRegion;
  td_trace : list cv.Point_;
  td_staticFrames : nat;
  td_outOfFrame : bool;
  td_hist : list Q;
  td_embedding : list Q }.

Definition Qabs' (q : Q) : Q := if Qltb q 0 then (- q)%Q else q.
Definition Qmax' (a b : Q) : Q := if Qltb a b then b else a.
Definition sq (q : Q) : Q := (q * q)%Q.

(** The ratio of the smaller of two extents to the larger, in [0, 1]. *)
Definition ratio (a b : Q) : Q :=
  if Qgtb (Qmax' (Qabs' a) (Qabs' b)) 0
  then (1 - Qabs' (Qabs' a - Qabs' b) / Qmax' (Qabs' a) (Qabs' b))%Q
  else 1%Q.

Definition rect_area (r : cv.Rect) : Z := (Z.max 0 (cv.rwidth r) * Z.max 0 (cv.rheight r))%Z.

Definition rect_inter (a b : cv.Rect) : Z :=
  let w := (Z.min (cv.rx a + cv.rwidth a) (cv.rx b + cv.rwidth b)
            - Z.max (cv.rx a) (cv.rx b))%Z in
  let h := (Z.min (cv.ry a + cv.rheight a) (cv.ry b + cv.rheight b)
            - Z.max (cv.ry a) (cv.ry b))%Z in
  (Z.max 0 w * Z.max 0 h)%Z.

(** Whether a rectangle lies entirely outside the frame. *)
Definition outside (f : cv.UMat) (r : cv.Rect) : bool :=
  (cv.cols f <=? cv.rx r)%Z || (cv.rows f <=? cv.ry r)%Z
  || (cv.rx r + cv.rwidth r <=? 0)%Z || (cv.ry r + cv.rheight r <=? 0)%Z.

Definition keep_last {A : Type} (n : nat) (l : list A) : list A :=
  drop (length l - n) l.

Definition new_data (reg : CRegion) (e : RegionEmbedding) : TrackData :=
  {| td_lastRegion := reg;
     td_trace := [cv.center (m_rrect reg)];
     td_staticFrames := 0;
     td_outOfFrame := false;
     td_hist := m_hist e;
     td_embedding := m_embedding e |}.

(** Modelled from the spec: [Track.update] (section 4.5) without the
    motion filter: an assigned update takes the region as the new last
    region, an unassigned one keeps the old; the trace is truncated from the
    front; the static counter follows the displacement of the center. *)
Definition update_data (d : TrackData) (reg : CRegion) (e : option RegionEmbedding)
    (dataCorrect : bool) (maxTrace : nat) (currFrame : cv.UMat) (trajLen : Z)
    (maxSpeed : Z) : TrackData :=
  let c0 := cv.center (m_rrect (td_lastRegion d)) in
  let last := if dataCorrect then reg else td_lastRegion d in
  let c1 := cv.center (m_rrect last) in
  let moved := (Qabs' (cv.x c1 - cv.x c0) + Qabs' (cv.y c1 - cv.y c0))%Q in
  {| td_lastRegion := last;
     td_trace := keep_last maxTrace (td_trace d ++ [c1]);
     td_staticFrames :=
       if (0 <? trajLen)%Z && negb (Qgtb moved (inject_Z maxSpeed))
       then S (td_staticFrames d) else 0;
     td_outOfFrame := outside currFrame (m_brect last);
     td_hist := match e with
                | Some e' => if cv.Mat_empty (m_hist e') then td_hist d else m_hist e'
                | None => td_hist d
                end;
     td_embedding := match e with
                     | Some e' => if cv.Mat_empty (m_embedding e')
                                  then td_embedding d else m_embedding e'
                     | None => td_embedding d
                     end |}.

Definition with_data (t : CTrack TrackData) (d : TrackData) : CTrack TrackData :=
  {| m_trackID := m_trackID t; m_skippedFrames := m_skippedFrames t; m_state := d |}.

(** The squared, unit-normalised radial distance of [p] in the ellipse
    inscribed in [area]. *)
Definition radial (p : cv.Point_) (area : cv.RotatedRect) : Q :=
  (sq ((cv.x p - cv.x (cv.center area)) / (cv.width (cv.size area) / 2))
   + sq ((cv.y p - cv.y (cv.center area)) / (cv.height (cv.size area) / 2)))%Q.

(** Modelled from the spec: the operations of a track (sections 4.4 and
    4.5), without a motion filter: the prediction ellipse is centred on the
    last region, the distances are ratios in [0, 1], [Update] keeps the
    identifier and the skipped-frames counter. *)
#[export] Instance track_ops : CTrackOps TrackData := {|
  CRegion_default :=
    {| m_rrect := {| cv.center := {| cv.x := 0; cv.y := 0 |};
                     cv.size := {| cv.width := 0; cv.height := 0 |};
                     cv.angle := 0 |};
       m_brect := {| cv.rx := 0; cv.ry := 0; cv.rwidth := 0; cv.rheight := 0 |};
       m_type := (-1)%Z;
       m_confidence := 0 |};
  CTrack_new := λ reg _ _ _ _ id _ _,
    {| m_trackID := id; m_skippedFrames := 0;
       m_state := new_data reg RegionEmbedding_default |};
  CTrack_new_emb := λ reg e _ _ _ _ id _ _,
    {| m_trackID := id; m_skippedFrames := 0; m_state := new_data reg e |};
  Track_Update := λ t reg dataCorrect maxTrace _ currFrame trajLen maxSpeed,
    with_data t (update_data (m_state t) reg None dataCorrect maxTrace currFrame
                             trajLen maxSpeed);
  Track_Update_emb := λ t reg e dataCorrect maxTrace _ currFrame trajLen maxSpeed,
    with_data t (update_data (m_state t) reg (Some e) dataCorrect maxTrace currFrame
                             trajLen maxSpeed);
  IsOutOfTheFrame := λ t, td_outOfFrame (m_state t);
  IsStaticTimeout := λ t n, (n <=? Z.of_nat (td_staticFrames (m_state t)))%Z;
  LastRegion := λ t, td_lastRegion (m_state t);
  CalcPredictionEllipse := λ t minRadius,
    let r := m_rrect (td_lastRegion (m_state t)) in
    {| cv.center := cv.center r;
       cv.size := {| cv.width := Qmax' (2 * cv.width minRadius) (cv.width (cv.size r));
                     cv.height := Qmax' (2 * cv.height minRadius)
                                        (cv.height (cv.size r)) |};
       cv.angle := 0 |};
  IsInsideArea := λ _ p area, radial p area;
  WidthDist := λ t reg,
    ratio (cv.width (cv.size (m_rrect (td_lastRegion (m_state t)))))
             (cv.width (cv.size (m_rrect reg)));
  HeightDist := λ t reg,
    ratio (cv.height (cv.size (m_rrect (td_lastRegion (m_state t)))))
             (cv.height (cv.size (m_rrect reg)));
  CalcDistJaccard := λ t reg,
    let a := m_brect (td_lastRegion (m_state t)) in
    let b := m_brect reg in
    let i := rect_inter a b in
    let u := (rect_area a + rect_area b - i)%Z in
    if (0 <? u)%Z then (1 - inject_Z i / inject_Z u)%Q else 1%Q;
  CalcDistHist := λ t e,
    if cv.Mat_empty (td_hist (m_state t)) || cv.Mat_empty (m_hist e) then 0%Q
    else if Qeq_bool (cv.dot (td_hist (m_state t)) (m_hist e))
                     (cv.dot (m_hist e) (m_hist e)) then 0%Q else 1%Q;
  CalcCosine := λ t e,
    let u := td_embedding (m_state t) in
    let v := m_embedding e in
    if Qgtb (cv.dot u u * cv.dot v v) 0
    then (1 - sq (cv.dot u v) / (cv.dot u u * cv.dot v v))%Q else 0%Q |}.

(** Modelled from the spec: a stand-in for the assignment solvers
    (section 4.1): rows are served in index order, each taking the cheapest
    region that is still free; a row that finds none stays at [-1]. *)
Fixpoint best_free (cm : list Q) (N i : nat) (used cands : list nat)
    (best : option (nat * Q)) : option nat :=
  match cands with
  | [] => fst <$> best
  | j :: rest =>
      if bool_decide (j ∈ used) then best_free cm N i used rest best
      else
        let c := default 0%Q (cm !! (i + j * N)) in
        match best with
        | Some (_, cb) =>
            if Qltb c cb then best_free cm N i used rest (Some (j, c))
            else best_free cm N i used rest best
        | None => best_free cm N i used rest (Some (j, c))
        end
  end.

Fixpoint greedy_rows (cm : list Q) (N M : nat) (rows used : list nat) : list Z :=
  match rows with
  | [] => []
  | i :: rows' =>
      match best_free cm N i used (seq 0 M) None with
      | Some j => Z.of_nat j :: greedy_rows cm N M rows' (j :: used)
      | None => (-1)%Z :: greedy_rows cm N M rows' used
      end
  end.

#[export] Instance solver_ops : SolverOps := {|
  Solve := λ _ cm N M _ _, greedy_rows cm N M (seq 0 N) [] |}.

(** Modelled from the spec: an embedding back end (section 4.3) that loads
    when its configuration name is not empty and describes a crop by its
    geometry. *)
#[export] Instance emb_ops : EmbeddingsOps := {|
  Initialize := λ cfg _ _, negb (String.eqb cfg EmptyString);
  Calc := λ _ _ r, [inject_Z (cv.rwidth r); inject_Z (cv.rheight r); 1%Q] |}.

(** Modelled from the spec: a histogram extractor (section 4.2) reduced to
    the geometry of the crop. *)
#[export] Instance hist_ops : HistOps := {|
  roi := λ f r, {| cv.cols := cv.rwidth r; cv.rows := cv.rheight r;
                   cv.nchannels := cv.nchannels f; cv.pixels := [] |};
  calcHist := λ imgs channels _ _,
    match imgs with
    | img :: _ => (λ _, inject_Z (cv.cols img * cv.rows img)) <$> channels
    | [] => []
    end;
  normalize := λ m _ _, (λ q, if Qgtb q 0 then 1%Q else 0%Q) <$> m |}.

(** *** Sample data *)

Definition region (x y w h : Z) (ty : Z) : CRegion :=
  {| m_rrect :=
       {| cv.center := {| cv.x := inject_Z x + inject_Z w / 2;
                          cv.y := inject_Z y + inject_Z h / 2 |};
          cv.size := {| cv.width := inject_Z w; cv.height := inject_Z h |};
          cv.angle := 0 |};
     m_brect := {| cv.rx := x; cv.ry := y; cv.rwidth := w; cv.rheight := h |};
     m_type := ty;
     m_confidence := 1 |}.

Definition frame (w h : Z) : cv.UMat :=
  {| cv.cols := w; cv.rows := h; cv.nchannels := 3; cv.pixels := [] |}.

(** Weights [{Centers: 1, Rects: 1}], threshold [4/5], tracks dropped after
    more than one skipped frame. *)
Definition settings : TrackerSettings :=
  {| m_matchType := tracking.MatchHungrian;
     m_distThres := 4 # 5;
     m_distType := λ ind, match ind with 0 | 1 => 1%Q | _ => 0%Q end;
     m_kalmanType := 0;
     m_filterGoal := tracking.FilterRect;
     m_lostTrackType := 0;
     m_dt := 1 # 5;
     m_accelNoiseMag := 1 # 10;
     m_useAcceleration := false;
     m_maxTraceLength := 10;
     m_maximumAllowedSkippedFrames := 1;
     m_minStaticTime := 5;
     m_maxStaticTime := 25;
     m_maxSpeedForStatic := 10;
     m_useAbandonedDetection := false;
     m_minAreaRadiusPix := (-1);
     m_minAreaRadiusK := 4 # 5;
     m_embeddings := [];
     CheckType := λ a b, (a =? b)%Z |}.

(** The same, with a Centers weight larger than the area of a 640 x 480
    frame. *)
Definition heavy_settings : TrackerSettings :=
  {| m_matchType := m_matchType settings;
     m_distThres := m_distThres settings;
     m_distType := λ ind, match ind with 0 => 400000%Q | _ => 0%Q end;
     m_kalmanType := m_kalmanType settings;
     m_filterGoal := m_filterGoal settings;
     m_lostTrackType := m_lostTrackType settings;
     m_dt := m_dt settings;
     m_accelNoiseMag := m_accelNoiseMag settings;
     m_useAcceleration := m_useAcceleration settings;
     m_maxTraceLength := m_maxTraceLength settings;
     m_maximumAllowedSkippedFrames := m_maximumAllowedSkippedFrames settings;
     m_minStaticTime := m_minStaticTime settings;
     m_maxStaticTime := m_maxStaticTime settings;
     m_maxSpeedForStatic := m_maxSpeedForStatic settings;
     m_useAbandonedDetection := m_useAbandonedDetection settings;
     m_minAreaRadiusPix := m_minAreaRadiusPix settings;
     m_minAreaRadiusK := m_minAreaRadiusK settings;
     m_embeddings := m_embeddings settings;
     CheckType := CheckType settings |}.

(** Settings with two embedding back ends, the first of which fails to
    load, and with both appearance weights on. *)
Definition emb_settings : TrackerSettings :=
  {| m_matchType := tracking.MatchBipart;
     m_distThres := m_distThres settings;
     m_distType := λ ind, match ind with 3 | 4 => (1 # 2)%Q | _ => 0%Q end;
     m_kalmanType := m_kalmanType settings;
     m_filterGoal := m_filterGoal settings;
     m_lostTrackType := m_lostTrackType settings;
     m_dt := m_dt settings;
     m_accelNoiseMag := m_accelNoiseMag settings;
     m_useAcceleration := m_useAcceleration settings;
     m_maxTraceLength := m_maxTraceLength settings;
     m_maximumAllowedSkippedFrames := m_maximumAllowedSkippedFrames settings;
     m_minStaticTime := m_minStaticTime settings;
     m_maxStaticTime := m_maxStaticTime settings;
     m_maxSpeedForStatic := m_maxSpeedForStatic settings;
     m_useAbandonedDetection := m_useAbandonedDetection settings;
     m_minAreaRadiusPix := m_minAreaRadiusPix settings;
     m_minAreaRadiusK := m_minAreaRadiusK settings;
     m_embeddings :=
       [ {| m_embeddingCfgName := EmptyString; m_embeddingWeightsName := "a.weights";
            m_inputLayer := (128, 256)%Z; m_objectTypes := [1; 2]%Z |};
         {| m_embeddingCfgName := "reid.cfg"; m_embeddingWeightsName := "b.weights";
            m_inputLayer := (128, 256)%Z; m_objectTypes := [2]%Z |} ];
     CheckType := CheckType settings |}.

(** The first settings with the threshold raised to 1. *)
Definition loose_settings : TrackerSettings :=
  {| m_matchType := m_matchType settings;
     m_distThres := 1;
     m_distType := m_distType settings;
     m_kalmanType := m_kalmanType settings;
     m_filterGoal := m_filterGoal settings;
     m_lostTrackType := m_lostTrackType settings;
     m_dt := m_dt settings;
     m_accelNoiseMag := m_accelNoiseMag settings;
     m_useAcceleration := m_useAcceleration settings;
     m_maxTraceLength := m_maxTraceLength settings;
     m_maximumAllowedSkippedFrames := m_maximumAllowedSkippedFrames settings;
     m_minStaticTime := m_minStaticTime settings;
     m_maxStaticTime := m_maxStaticTime settings;
     m_maxSpeedForStatic := m_maxSpeedForStatic settings;
     m_useAbandonedDetection := m_useAbandonedDetection settings;
     m_minAreaRadiusPix := m_minAreaRadiusPix settings;
     m_minAreaRadiusK := m_minAreaRadiusK settings;
     m_embeddings := m_embeddings settings;
     CheckType := CheckType settings |}.

Definition regA : CRegion := region 10 10 20 20 1.
Definition regA' : CRegion := region 11 10 20 20 1.
Definition regB : CRegion := region 300 200 40 40 1.
Definition regFar : CRegion := region 500 400 20 20 1.

(** A track as its constructor leaves it, with a given number of skipped
    frames. *)
Definition track (id skipped : nat) (reg : CRegion) : CTrack TrackData :=
  {| m_trackID := id; m_skippedFrames := skipped;
     m_state := new_data reg RegionEmbedding_default |}.

Definition tracker (s : TrackerSettings) (tracks : list (CTrack TrackData))
    (next : nat) : CTracker TrackData :=
  {| m_settings := s;
     m_tracks := tracks;
     m_nextTrackID := next;
     m_SPCalculator :=
       Some (SPHungrian {| sp_maxDist := m_distThres s; sp_maxHistory := 12 |});
     m_embCalculators := ∅;
     m_prevFrame := cv.UMat_default |}.

(** Two live tracks, the second of which has already skipped a frame. *)
Definition two_tracks : CTracker TrackData :=
  tracker settings [track 0 0 regA; track 1 1 regB] 2.

(** The iterations of the parallel loop taking effect in decreasing
    order. *)
Definition backwards (n : nat) : list nat := reverse (seq 0 n).

End Ref.

Section Tracker.
Context {D : Type} {track_ops : CTrackOps D} {solver_ops : SolverOps}
        {emb_ops : EmbeddingsOps} {hist_ops : HistOps}.

(** *** CTracker::CTracker *)

(** The calculator that [Initialize] sets up from [embParam]. *)
Definition make_embCalc (embParam : EmbeddingParams) : EmbeddingsCalculator :=
  {| ec_cfgName := m_embeddingCfgName embParam;
     ec_weightsName := m_embeddingWeightsName embParam;
     ec_inputLayer := m_inputLayer embParam |}.

(** One iteration of the loop over [settings.m_embeddings]. *)
Definition register_embedding (embParam : EmbeddingParams)
    (calcs : gmap Z EmbeddingsCalculator) : gmap Z EmbeddingsCalculator :=
  let embCalc := make_embCalc embParam in
  if negb (Initialize (m_embeddingCfgName embParam)
                      (m_embeddingWeightsName embParam)
                      (m_inputLayer embParam))
  then calcs
  else foldl (λ acc objType, try_emplace objType embCalc acc)
             calcs (m_objectTypes embParam).

(** The constructor; [None] is a failed [assert(m_SPCalculator)]. *)
Definition CTracker_new (settings : TrackerSettings) : option (CTracker D) :=
  let spSettings := {| sp_maxDist := m_distThres settings; sp_maxHistory := 12 |} in
  let sp :=
    match m_matchType settings with
    | tracking.MatchHungrian => Some (SPHungrian spSettings)
    | tracking.MatchBipart => Some (SPBipart spSettings)
    end in
  _ ← sp;
  Some {| m_settings := settings;
          m_tracks := [];
          m_nextTrackID := 0;
          m_SPCalculator := sp;
          m_embCalculators :=
            foldl (λ acc embParam, register_embedding embParam acc)
                  ∅ (m_embeddings settings);
          m_prevFrame := cv.UMat_default |}.

(** *** CTracker::CalcEmbeddins *)

(** The inner loop over the channels of the frame: [histSize], [ranges],
    [channels]. *)
Definition hist_params (stop : Z) : list Z * list Q * list Z :=
  foldl (λ '(histSize, ranges, channels) i,
           (histSize ++ [64%Z], ranges ++ [0%Q; 255%Q], channels ++ [Z.of_nat i]))
        ([], [], []) (seq 0 (Z.to_nat stop)).

(** Body of the histogram loop for region [j]. *)
Definition hist_step (regions : regions_t) (currFrame : cv.UMat) (j : nat)
    (regionEmbeddings : list RegionEmbedding) : option (list RegionEmbedding) :=
  let '(histSize, ranges, channels) := hist_params (cv.nchannels currFrame) in
  reg ← regions !! j;
  let regROI := [roi currFrame (m_brect reg)] in
  regionEmbeddings ←
    modify_at j (set_hist (calcHist regROI channels histSize ranges)) regionEmbeddings;
  modify_at j (λ e, set_hist (normalize (m_hist e) 0 1) e) regionEmbeddings.

(** Body of the embedding loop for region [j]. *)
Definition emb_step (calcs : gmap Z EmbeddingsCalculator) (regions : regions_t)
    (currFrame : cv.UMat) (j : nat) (regionEmbeddings : list RegionEmbedding)
    : option (list RegionEmbedding) :=
  e ← regionEmbeddings !! j;
  if cv.Mat_empty (m_embedding e) then
    reg ← regions !! j;
    match calcs !! m_type reg with
    | Some embCalc =>
        regionEmbeddings ←
          modify_at j (set_embedding (Calc embCalc currFrame (m_brect reg)))
                    regionEmbeddings;
        modify_at j (λ e, set_embDot (cv.dot (m_embedding e) (m_embedding e)) e)
                  regionEmbeddings
    | None => Some regionEmbeddings
    end
  else Some regionEmbeddings.

Definition CalcEmbeddins (t : CTracker D) (regionEmbeddings : list RegionEmbedding)
    (regions : regions_t) (currFrame : cv.UMat) : option (list RegionEmbedding) :=
  if negb (vec_empty regions) then
    let regionEmbeddings :=
      resize_vec (length regions) RegionEmbedding_default regionEmbeddings in
    regionEmbeddings ←
      (if Qgtb (m_distType (m_settings t) tracking.DistHist) 0
       then for_range (hist_step regions currFrame) (length regions) regionEmbeddings
       else Some regionEmbeddings);
    if Qgtb (m_distType (m_settings t) tracking.DistFeatureCos) 0
    then for_range (emb_step (m_embCalculators t) regions currFrame)
                   (length regions) regionEmbeddings
    else Some regionEmbeddings
  else Some regionEmbeddings.

(** *** CTracker::CreateDistaceMatrix *)

(** The body of the loop over regions, up to the store: the distance between
    [track] and region [j]. [None] is an out-of-range read of
    [regionEmbeddings] or a failed [assert(ind == DistsCount)]. *)
Definition pair_dist (s : TrackerSettings) (track : CTrack D)
    (predictedArea : cv.RotatedRect) (reg : CRegion)
    (regionEmbeddings : list RegionEmbedding) (j : nat)
    (maxPossibleCost : track_t) : option track_t :=
  let dist := maxPossibleCost in
  if CheckType s (m_type (LastRegion track)) (m_type reg) then
    let dist := 0%Q in
    let ind := 0 in
    (* Euclidean distance between centers *)
    let dist :=
      if Qgtb (m_distType s ind) 0 && (ind =? tracking.DistCenters) then
        let ellipseDist := IsInsideArea track (cv.center (m_rrect reg)) predictedArea in
        if Qgtb ellipseDist 1 then (dist + m_distType s ind)%Q
        else (dist + ellipseDist * m_distType s ind)%Q
      else dist in
    let ind := S ind in
    (* Euclidean distance between bounding rectangles *)
    let dist :=
      if Qgtb (m_distType s ind) 0 && (ind =? tracking.DistRects) then
        let ellipseDist := IsInsideArea track (cv.center (m_rrect reg)) predictedArea in
        if Qltb ellipseDist 1 then
          let dw := WidthDist track reg in
          let dh := HeightDist track reg in
          (dist + m_distType s ind * (1 - (1 - ellipseDist) * (dw + dh) * (1 # 2)))%Q
        else (dist + m_distType s ind)%Q
      else dist in
    let ind := S ind in
    (* Intersection over Union, IoU *)
    let dist :=
      if Qgtb (m_distType s ind) 0 && (ind =? tracking.DistJaccard) then
        (dist + m_distType s ind * CalcDistJaccard track reg)%Q
      else dist in
    let ind := S ind in
    (* Bhatacharia distance between histograms *)
    dist ←
      (if Qgtb (m_distType s ind) 0 && (ind =? tracking.DistHist) then
         e ← regionEmbeddings !! j;
         Some (dist + m_distType s ind * CalcDistHist track e)%Q
       else Some dist);
    let ind := S ind in
    (* Cosine distance between embeddings *)
    dist ←
      (if Qgtb (m_distType s ind) 0 && (ind =? tracking.DistFeatureCos) then
         if (m_type reg =? m_type (LastRegion track))%Z then
           e ← regionEmbeddings !! j;
           Some (dist + m_distType s ind * CalcCosine track e)%Q
         else Some dist
       else Some dist);
    let ind := S ind in
    if ind =? tracking.DistsCount then Some dist else None
  else Some dist.

(** Body of the loop over regions for track [i]. *)
Definition dist_col_step (s : TrackerSettings) (N i : nat) (track : CTrack D)
    (predictedArea : cv.RotatedRect) (regions : regions_t)
    (regionEmbeddings : list RegionEmbedding) (maxPossibleCost : track_t)
    (j : nat) (st : distMatrix_t * track_t) : option (distMatrix_t * track_t) :=
  let '(costMatrix, maxCost) := st in
  reg ← regions !! j;
  dist ← pair_dist s track predictedArea reg regionEmbeddings j maxPossibleCost;
  costMatrix ← modify_at (i + j * N) (λ _, dist) costMatrix;
  Some (costMatrix, if Qgtb dist maxCost then dist else maxCost).

(** [minRadius] for a track. *)
Definition min_radius (s : TrackerSettings) (track : CTrack D) : cv.Size_ :=
  if Qltb (m_minAreaRadiusPix s) 0 then
    {| cv.width := (m_minAreaRadiusK s * cv.width (cv.size (m_rrect (LastRegion track))))%Q;
       cv.height := (m_minAreaRadiusK s * cv.height (cv.size (m_rrect (LastRegion track))))%Q |}
  else
    {| cv.width := m_minAreaRadiusPix s; cv.height := m_minAreaRadiusPix s |}.

(** Body of the loop over tracks. *)
Definition dist_row_step (s : TrackerSettings) (tracks : list (CTrack D))
    (regions : regions_t) (regionEmbeddings : list RegionEmbedding)
    (maxPossibleCost : track_t)
    (i : nat) (st : distMatrix_t * track_t) : option (distMatrix_t * track_t) :=
  track ← tracks !! i;
  let predictedArea := CalcPredictionEllipse track (min_radius s track) in
  for_range (dist_col_step s (length tracks) i track predictedArea regions
                           regionEmbeddings maxPossibleCost)
            (length regions) st.

(** Returns the filled [costMatrix] and [maxCost]. *)
Definition CreateDistaceMatrix (t : CTracker D) (regions : regions_t)
    (regionEmbeddings : list RegionEmbedding) (costMatrix : distMatrix_t)
    (maxPossibleCost : track_t) (maxCost : track_t)
    : option (distMatrix_t * track_t) :=
  let N := length (m_tracks t) in
  let maxCost := 0%Q in
  for_range (dist_row_step (m_settings t) (m_tracks t) regions regionEmbeddings
                           maxPossibleCost)
            N (costMatrix, maxCost).

(** *** CTracker::UpdateTrackingState *)

(** [m_tracks[i]->SkippedFrames()++]. *)
Definition incr_SkippedFrames (track : CTrack D) : CTrack D :=
  set_SkippedFrames (S (m_skippedFrames track)) track.

(** Body of the loop that cleans the assignment from pairs with a large
    distance. The index [i + assignment[i] * N] is formed from the [int]
    entry; an entry below [-1] gives no valid index. *)
Definition gating_step (s : TrackerSettings) (costMatrix : distMatrix_t) (N : nat)
    (i : nat) (st : assignments_t * list (CTrack D))
    : option (assignments_t * list (CTrack D)) :=
  let '(assignment, tracks) := st in
  a ← assignment !! i;
  if negb (a =? -1)%Z then
    c ← lookupZ costMatrix (Z.of_nat i + a * Z.of_nat N)%Z;
    if Qgtb c (m_distThres s) then
      assignment ← modify_at i (λ _, (-1)%Z) assignment;
      tracks ← modify_at i incr_SkippedFrames tracks;
      Some (assignment, tracks)
    else Some (assignment, tracks)
  else
    (* If track have no assigned detect, then increment skipped frames counter. *)
    tracks ← modify_at i incr_SkippedFrames tracks;
    Some (assignment, tracks).

(** The condition under which the removal loop erases a track. *)
Definition retire_cond (s : TrackerSettings) (fps : track_t) (track : CTrack D) : bool :=
  (m_maximumAllowedSkippedFrames s <? m_skippedFrames track)
  || IsOutOfTheFrame track
  || IsStaticTimeout track
       (cvRound (fps * inject_Z (m_maxStaticTime s - m_minStaticTime s))).

(** [for (size_t i = 0; i < m_tracks.size();)]: erase track and assignment
    slot [i], or step to [i + 1]. [fuel] bounds the number of iterations;
    erasing from an [assignment] that has no slot [i] is out of range. *)
Fixpoint retire_loop (s : TrackerSettings) (fps : track_t) (fuel : nat) (i : nat)
    (tracks : list (CTrack D)) (assignment : assignments_t)
    : option (list (CTrack D) * assignments_t) :=
  match fuel with
  | 0 => None
  | S fuel' =>
      if i <? length tracks then
        track ← tracks !! i;
        if retire_cond s fps track then
          _ ← assignment !! i;
          retire_loop s fps fuel' i (erase_at i tracks) (erase_at i assignment)
        else retire_loop s fps fuel' (S i) tracks assignment
      else Some (tracks, assignment)
  end.

(** [find(assignment.begin(), assignment.end(), i) == assignment.end()]. *)
Definition not_found (assignment : assignments_t) (i : nat) : bool :=
  negb (existsb (λ a, (a =? Z.of_nat i)%Z) assignment).

(** Body of the loop that starts new tracks for unassigned detects. *)
Definition birth_step (s : TrackerSettings) (regions : regions_t)
    (regionEmbeddings : list RegionEmbedding) (assignment : assignments_t)
    (i : nat) (st : list (CTrack D) * nat) : option (list (CTrack D) * nat) :=
  let '(tracks, nextTrackID) := st in
  if not_found assignment i then
    if vec_empty regionEmbeddings then
      reg ← regions !! i;
      Some (tracks ++ [CTrack_new reg (m_kalmanType s) (m_dt s) (m_accelNoiseMag s)
                         (m_useAcceleration s) nextTrackID
                         (tracking.FilterGoal_eqb (m_filterGoal s) tracking.FilterRect)
                         (m_lostTrackType s)],
            S nextTrackID)
    else
      reg ← regions !! i;
      emb ← regionEmbeddings !! i;
      Some (tracks ++ [CTrack_new_emb reg emb (m_kalmanType s) (m_dt s)
                         (m_accelNoiseMag s) (m_useAcceleration s) nextTrackID
                         (tracking.FilterGoal_eqb (m_filterGoal s) tracking.FilterRect)
                         (m_lostTrackType s)],
            S nextTrackID)
  else Some (tracks, nextTrackID).

(** [trajLen] argument of an assigned update. *)
Definition traj_len (s : TrackerSettings) (fps : track_t) : Z :=
  if m_useAbandonedDetection s then cvRound (inject_Z (m_minStaticTime s) * fps)
  else 0%Z.

(** Body of the loop that updates the filters; iteration [i] touches
    [m_tracks[i]] only. *)
Definition update_step (s : TrackerSettings) (prevFrame currFrame : cv.UMat)
    (fps : track_t) (regions : regions_t) (regionEmbeddings : list RegionEmbedding)
    (assignment : assignments_t) (i : nat) (tracks : list (CTrack D))
    : option (list (CTrack D)) :=
  a ← assignment !! i;
  if negb (a =? -1)%Z then
    tracks ← modify_at i (set_SkippedFrames 0) tracks;
    if vec_empty regionEmbeddings then
      reg ← lookupZ regions a;
      modify_at i (λ track, Track_Update track reg true (m_maxTraceLength s)
                              prevFrame currFrame (traj_len s fps)
                              (m_maxSpeedForStatic s)) tracks
    else
      reg ← lookupZ regions a;
      emb ← lookupZ regionEmbeddings a;
      modify_at i (λ track, Track_Update_emb track reg emb true (m_maxTraceLength s)
                              prevFrame currFrame (traj_len s fps)
                              (m_maxSpeedForStatic s)) tracks
  else
    modify_at i (λ track, Track_Update track CRegion_default false (m_maxTraceLength s)
                            prevFrame currFrame 0 (m_maxSpeedForStatic s)) tracks.

(** The block guarded by [if (!m_tracks.empty())]: cost matrix, solver,
    gating and removal. Returns the tracks and the assignment vector. *)
Definition associate (t : CTracker D) (regions : regions_t)
    (regionEmbeddings : list RegionEmbedding) (currFrame : cv.UMat) (fps : track_t)
    (assignment : assignments_t) : option (list (CTrack D) * assignments_t) :=
  let N := length (m_tracks t) in
  let M := length regions in
  let costMatrix := replicate (N * M) 0%Q in
  let maxPossibleCost := max_possible_cost currFrame in
  let maxCost := 0%Q in
  '(costMatrix, maxCost) ←
    CreateDistaceMatrix t regions regionEmbeddings costMatrix maxPossibleCost maxCost;
  sp ← m_SPCalculator t;
  let assignment := Solve sp costMatrix N M assignment maxCost in
  '(assignment, tracks) ←
    for_range (gating_step (m_settings t) costMatrix N) (length assignment)
              (assignment, m_tracks t);
  retire_loop (m_settings t) fps (S (length tracks)) 0 tracks assignment.

(** [UpdateTrackingState] with the iteration order of the
    [#pragma omp parallel for] loop made a parameter: [sched stop_i] lists
    the indices in the order in which their iterations take effect. *)
Definition UpdateTrackingState_sched (sched : nat → list nat) (t : CTracker D)
    (regions : regions_t) (currFrame : cv.UMat) (fps : track_t) : option (CTracker D) :=
  let N := length (m_tracks t) in
  let assignment := replicate N (-1)%Z in
  regionEmbeddings ← CalcEmbeddins t [] regions currFrame;
  '(tracks, assignment) ←
    (if negb (vec_empty (m_tracks t))
     then associate t regions regionEmbeddings currFrame fps assignment
     else Some (m_tracks t, assignment));
  '(tracks, nextTrackID) ←
    for_range (birth_step (m_settings t) regions regionEmbeddings assignment)
              (length regions) (tracks, m_nextTrackID t);
  let stop_i := length assignment in
  tracks ←
    for_each (update_step (m_settings t) (m_prevFrame t) currFrame fps regions
                          regionEmbeddings assignment)
             (sched stop_i) tracks;
  Some {| m_settings := m_settings t;
          m_tracks := tracks;
          m_nextTrackID := nextTrackID;
          m_SPCalculator := m_SPCalculator t;
          m_embCalculators := m_embCalculators t;
          m_prevFrame := m_prevFrame t |}.

(** The loop run in index order. *)
Definition UpdateTrackingState : CTracker D → regions_t → cv.UMat → track_t →
                                 option (CTracker D) :=
  UpdateTrackingState_sched (seq 0).

(** *** CTracker::Update *)

Definition set_prevFrame (f : cv.UMat) (t : CTracker D) : CTracker D :=
  {| m_settings := m_settings t;
     m_tracks := m_tracks t;
     m_nextTrackID := m_nextTrackID t;
     m_SPCalculator := m_SPCalculator t;
     m_embCalculators := m_embCalculators t;
     m_prevFrame := f |}.

Definition Update_sched (sched : nat → list nat) (t : CTracker D)
    (regions : regions_t) (currFrame : cv.UMat) (fps : track_t) : option (CTracker D) :=
  t' ← UpdateTrackingState_sched sched t regions currFrame fps;
  Some (set_prevFrame (cv.copyTo currFrame (m_prevFrame t')) t').

Definition Update : CTracker D → regions_t → cv.UMat → track_t → option (CTracker D) :=
  Update_sched (seq 0).

(** ** Closed forms of what the loops compute *)

(** The histogram that the histogram loop stores for a region. *)
Definition hist_of (currFrame : cv.UMat) (reg : CRegion) : cv.Mat :=
  let '(histSize, ranges, channels) := hist_params (cv.nchannels currFrame) in
  normalize (calcHist [roi currFrame (m_brect reg)] channels histSize ranges) 0 1.

(** The effect of the histogram stage on the descriptor of [reg]. *)
Definition hist_stage (t : CTracker D) (currFrame : cv.UMat) (reg : CRegion)
    (e : RegionEmbedding) : RegionEmbedding :=
  if Qgtb (m_distType (m_settings t) tracking.DistHist) 0
  then set_hist (hist_of currFrame reg) e else e.

(** The effect of one iteration of the embedding loop on the descriptor of
    [reg]. *)
Definition emb_of (t : CTracker D) (currFrame : cv.UMat) (reg : CRegion)
    (e : RegionEmbedding) : RegionEmbedding :=
  if cv.Mat_empty (m_embedding e) then
    match m_embCalculators t !! m_type reg with
    | Some embCalc =>
        let v := Calc embCalc currFrame (m_brect reg) in
        set_embDot (cv.dot v v) (set_embedding v e)
    | None => e
    end
  else e.

(** The effect of the embedding stage on the descriptor of [reg]. *)
Definition emb_stage (t : CTracker D) (currFrame : cv.UMat) (reg : CRegion)
    (e : RegionEmbedding) : RegionEmbedding :=
  if Qgtb (m_distType (m_settings t) tracking.DistFeatureCos) 0
  then emb_of t currFrame reg e else e.

(** The descriptor that [CalcEmbeddins] leaves for [reg]. *)
Definition region_embedding (t : CTracker D) (currFrame : cv.UMat) (reg : CRegion)
    : RegionEmbedding :=
  emb_stage t currFrame reg (hist_stage t currFrame reg RegionEmbedding_default).

(** The calculator registered for type [ty]: the first entry of the list
    whose initialisation succeeds and that names [ty]. *)
Fixpoint first_backend (params : list EmbeddingParams) (ty : Z)
    : option EmbeddingsCalculator :=
  match params with
  | [] => None
  | p :: rest =>
      if Initialize (m_embeddingCfgName p) (m_embeddingWeightsName p) (m_inputLayer p)
         && bool_decide (ty ∈ m_objectTypes p)
      then Some (make_embCalc p)
      else first_backend rest ty
  end.

(** The five accumulation steps of [CreateDistaceMatrix], each as the
    update it makes to the running [dist]. *)
Definition add_centers (s : TrackerSettings) (track : CTrack D)
    (predictedArea : cv.RotatedRect) (reg : CRegion) (dist : Q) : Q :=
  if Qgtb (m_distType s tracking.DistCenters) 0 then
    let ellipseDist := IsInsideArea track (cv.center (m_rrect reg)) predictedArea in
    if Qgtb ellipseDist 1 then (dist + m_distType s tracking.DistCenters)%Q
    else (dist + ellipseDist * m_distType s tracking.DistCenters)%Q
  else dist.

Definition add_rects (s : TrackerSettings) (track : CTrack D)
    (predictedArea : cv.RotatedRect) (reg : CRegion) (dist : Q) : Q :=
  if Qgtb (m_distType s tracking.DistRects) 0 then
    let ellipseDist := IsInsideArea track (cv.center (m_rrect reg)) predictedArea in
    if Qltb ellipseDist 1 then
      (dist + m_distType s tracking.DistRects
              * (1 - (1 - ellipseDist) * (WidthDist track reg + HeightDist track reg)
                     * (1 # 2)))%Q
    else (dist + m_distType s tracking.DistRects)%Q
  else dist.

Definition add_jaccard (s : TrackerSettings) (track : CTrack D) (reg : CRegion)
    (dist : Q) : Q :=
  if Qgtb (m_distType s tracking.DistJaccard) 0
  then (dist + m_distType s tracking.DistJaccard * CalcDistJaccard track reg)%Q
  else dist.

Definition add_hist (s : TrackerSettings) (track : CTrack D) (e : RegionEmbedding)
    (dist : Q) : Q :=
  if Qgtb (m_distType s tracking.DistHist) 0
  then (dist + m_distType s tracking.DistHist * CalcDistHist track e)%Q
  else dist.

Definition add_cos (s : TrackerSettings) (track : CTrack D) (reg : CRegion)
    (e : RegionEmbedding) (dist : Q) : Q :=
  if Qgtb (m_distType s tracking.DistFeatureCos) 0 then
    if (m_type reg =? m_type (LastRegion track))%Z
    then (dist + m_distType s tracking.DistFeatureCos * CalcCosine track e)%Q
    else dist
  else dist.

(** The cost of pairing [track] with region [reg] whose descriptor is [e]. *)
Definition pair_cost (s : TrackerSettings) (track : CTrack D)
    (predictedArea : cv.RotatedRect) (reg : CRegion) (e : RegionEmbedding)
    (maxPossibleCost : track_t) : track_t :=
  if CheckType s (m_type (LastRegion track)) (m_type reg) then
    add_cos s track reg e
      (add_hist s track e
         (add_jaccard s track reg
            (add_rects s track predictedArea reg
               (add_centers s track predictedArea reg 0%Q))))
  else maxPossibleCost.

(** The entry of the cost matrix for track [i] and region [j]. *)
Definition cost_at (s : TrackerSettings) (tracks : list (CTrack D))
    (regions : regions_t) (regionEmbeddings : list RegionEmbedding)
    (maxPossibleCost : track_t) (i j : nat) : option track_t :=
  track ← tracks !! i;
  reg ← regions !! j;
  e ← regionEmbeddings !! j;
  Some (pair_cost s track (CalcPredictionEllipse track (min_radius s track))
                  reg e maxPossibleCost).

(** The solver's contract: the assignment vector keeps its length [N], and
    every entry is [-1] or the index of a region. *)
Definition assignment_wf (N M : nat) (assignment : assignments_t) : Prop :=
  length assignment = N
  ∧ ∀ i a, assignment !! i = Some a → a = (-1)%Z ∨ (0 ≤ a < Z.of_nat M)%Z.

Definition solver_contract : Prop :=
  ∀ sp costMatrix N M assignment maxCost,
    length assignment = N →
    assignment_wf N M (Solve sp costMatrix N M assignment maxCost).

(** Whether the gating loop leaves slot [i], which holds [a], without a
    region: the solver left it so, or the cost of the pair exceeds the
    threshold. *)
Definition voided (s : TrackerSettings) (costMatrix : distMatrix_t) (N i : nat)
    (a : Z) : bool :=
  (a =? -1)%Z
  || match lookupZ costMatrix (Z.of_nat i + a * Z.of_nat N)%Z with
     | Some c => Qgtb c (m_distThres s)
     | None => false
     end.

Definition gate_assignment (s : TrackerSettings) (costMatrix : distMatrix_t)
    (N i : nat) (a : Z) : Z :=
  if voided s costMatrix N i a then (-1)%Z else a.

Definition gate_track (s : TrackerSettings) (costMatrix : distMatrix_t)
    (N i : nat) (a : Z) (track : CTrack D) : CTrack D :=
  if voided s costMatrix N i a then incr_SkippedFrames track else track.

(** Tracks paired with their assignment slots, after gating. *)
Definition gate_pairs (s : TrackerSettings) (costMatrix : distMatrix_t)
    (tracks : list (CTrack D)) (assignment : assignments_t)
    : list (CTrack D * Z) :=
  imap (λ i p, (gate_track s costMatrix (length tracks) i p.2 p.1,
                gate_assignment s costMatrix (length tracks) i p.2))
       (zip tracks assignment).

(** The pairs that the removal loop keeps. *)
Definition survivors (s : TrackerSettings) (fps : track_t)
    (pairs : list (CTrack D * Z)) : list (CTrack D * Z) :=
  filter (λ p, retire_cond s fps p.1 = false) pairs.

(** The regions, each with its index and descriptor, whose index occurs in
    no slot of the assignment vector. *)
Definition unassigned (assignment : assignments_t)
    (described : list (CRegion * RegionEmbedding))
    : list (nat * (CRegion * RegionEmbedding)) :=
  filter (λ p, not_found assignment p.1 = true) (imap (λ j d, (j, d)) described).

(** The track constructed for region [reg] with descriptor [e] and
    identifier [id]. *)
Definition born (s : TrackerSettings) (reg : CRegion) (e : RegionEmbedding)
    (id : nat) : CTrack D :=
  CTrack_new_emb reg e (m_kalmanType s) (m_dt s) (m_accelNoiseMag s)
                 (m_useAcceleration s) id
                 (tracking.FilterGoal_eqb (m_filterGoal s) tracking.FilterRect)
                 (m_lostTrackType s).

(** The tracks born for a list of unassigned regions, numbered from
    [nextTrackID] on. *)
Definition newborns (s : TrackerSettings) (nextTrackID : nat)
    (unb : list (nat * (CRegion * RegionEmbedding))) : list (CTrack D) :=
  imap (λ k p, born s p.2.1 p.2.2 (nextTrackID + k)) unb.

(** Whether iteration [i] of the update loop finds the region (and the
    descriptor) that slot [i] of the assignment vector names. *)
Definition update_ok (regions : regions_t) (regionEmbeddings : list RegionEmbedding)
    (assignment : assignments_t) (i : nat) : bool :=
  match assignment !! i with
  | None => false
  | Some a =>
      if negb (a =? -1)%Z then
        if vec_empty regionEmbeddings
        then bool_decide (is_Some (lookupZ regions a))
        else bool_decide (is_Some (lookupZ regions a))
             && bool_decide (is_Some (lookupZ regionEmbeddings a))
      else true
  end.

(** What the update loop does to a track whose assignment slot holds [a]. *)
Definition updated_track (s : TrackerSettings) (prevFrame currFrame : cv.UMat)
    (fps : track_t) (regions : regions_t) (regionEmbeddings : list RegionEmbedding)
    (a : Z) (track : CTrack D) : CTrack D :=
  if negb (a =? -1)%Z then
    let track := set_SkippedFrames 0 track in
    if vec_empty regionEmbeddings then
      match lookupZ regions a with
      | Some reg =>
          Track_Update track reg true (m_maxTraceLength s) prevFrame currFrame
                       (traj_len s fps) (m_maxSpeedForStatic s)
      | None => track
      end
    else
      match lookupZ regions a, lookupZ regionEmbeddings a with
      | Some reg, Some emb =>
          Track_Update_emb track reg emb true (m_maxTraceLength s) prevFrame
                           currFrame (traj_len s fps) (m_maxSpeedForStatic s)
      | _, _ => track
      end
  else
    Track_Update track CRegion_default false (m_maxTraceLength s) prevFrame
                 currFrame 0 (m_maxSpeedForStatic s).

Definition update_slot (s : TrackerSettings) (prevFrame currFrame : cv.UMat)
    (fps : track_t) (regions : regions_t) (regionEmbeddings : list RegionEmbedding)
    (assignment : assignments_t) (i : nat) (track : CTrack D) : CTrack D :=
  match assignment !! i with
  | Some a => updated_track s prevFrame currFrame fps regions regionEmbeddings a track
  | None => track
  end.

(** The cost matrix of a frame and the assignment the solver returns for
    it. *)
Definition solve_frame (t : CTracker D) (regions : regions_t)
    (regionEmbeddings : list RegionEmbedding) (currFrame : cv.UMat)
    : option (distMatrix_t * assignments_t) :=
  let N := length (m_tracks t) in
  let M := length regions in
  '(costMatrix, maxCost) ←
    CreateDistaceMatrix t regions regionEmbeddings (replicate (N * M) 0%Q)
      (max_possible_cost currFrame) 0%Q;
  sp ← m_SPCalculator t;
  Some (costMatrix, Solve sp costMatrix N M (replicate N (-1)%Z) maxCost).

(** The tracks that outlive the frame, each with its assignment slot as the
    update loop sees it. *)
Definition kept_pairs (t : CTracker D) (regions : regions_t) (currFrame : cv.UMat)
    (fps : track_t) : option (list (CTrack D * Z)) :=
  if vec_empty (m_tracks t) then Some []
  else
    '(costMatrix, solved) ←
      solve_frame t regions (region_embedding t currFrame <$> regions) currFrame;
    Some (survivors (m_settings t) fps
            (gate_pairs (m_settings t) costMatrix (m_tracks t) solved)).

(** The regions of the frame that start a track. *)
Definition unassigned_now (t : CTracker D) (regions : regions_t)
    (currFrame : cv.UMat) (kept : list (CTrack D * Z))
    : list (nat * (CRegion * RegionEmbedding)) :=
  unassigned kept.*2 (zip regions (region_embedding t currFrame <$> regions)).

(** The tracker after the frame, given the pairs that outlive it. *)
Definition next_state (t : CTracker D) (regions : regions_t) (currFrame : cv.UMat)
    (fps : track_t) (kept : list (CTrack D * Z)) : CTracker D :=
  {| m_settings := m_settings t;
     m_tracks :=
       ((λ p, updated_track (m_settings t) (m_prevFrame t) currFrame fps regions
                (region_embedding t currFrame <$> regions) p.2 p.1) <$> kept)
       ++ newborns (m_settings t) (m_nextTrackID t)
                   (unassigned_now t regions currFrame kept);
     m_nextTrackID :=
       m_nextTrackID t + length (unassigned_now t regions currFrame kept);
     m_SPCalculator := m_SPCalculator t;
     m_embCalculators := m_embCalculators t;
     m_prevFrame := m_prevFrame t |}.

(** A schedule of the parallel loop: for every bound, some order of the
    indices below it. *)
Definition schedule (sched : nat → list nat) : Prop :=
  ∀ n, sched n ≡ₚ seq 0 n.

(** A run of the tracker: the states after each frame of [inputs], frame
    [k] being processed under schedule [scheds k]. A frame on which the
    model is undefined ends the run with [None]. *)
Fixpoint run_from (scheds : nat → nat → list nat) (k : nat) (t : CTracker D)
    (inputs : list (regions_t * cv.UMat * track_t)) : list (option (CTracker D)) :=
  match inputs with
  | [] => []
  | (regions, currFrame, fps) :: rest =>
      match Update_sched (scheds k) t regions currFrame fps with
      | Some t' => Some t' :: run_from scheds (S k) t' rest
      | None => [None]
      end
  end.

Definition run (scheds : nat → nat → list nat) (settings : TrackerSettings)
    (inputs : list (regions_t * cv.UMat * track_t)) : list (option (CTracker D)) :=
  match CTracker_new settings with
  | Some t => run_from scheds 0 t inputs
  | None => [None]
  end.

(** The contract of [CTrack] on identifiers: a constructor stores the
    identifier it is given, and [Update] keeps it. *)
Definition track_id_contract : Prop :=
  (∀ reg k dt an ua id fo lt,
      m_trackID (CTrack_new reg k dt an ua id fo lt) = id)
  ∧ (∀ reg e k dt an ua id fo lt,
      m_trackID (CTrack_new_emb reg e k dt an ua id fo lt) = id)
  ∧ (∀ tr reg dc mtl pf cf tl ms,
      m_trackID (Track_Update tr reg dc mtl pf cf tl ms) = m_trackID tr)
  ∧ (∀ tr reg e dc mtl pf cf tl ms,
      m_trackID (Track_Update_emb tr reg e dc mtl pf cf tl ms) = m_trackID tr).

(** The identifiers of the live tracks. *)
Definition ids (t : CTracker D) : list nat := m_trackID <$> m_tracks t.

(** Live identifiers are pairwise distinct and below the counter. *)
Definition ids_ok (t : CTracker D) : Prop :=
  NoDup (ids t) ∧ ∀ id, id ∈ ids t → id < m_nextTrackID t.

(** The states a tracker built from [settings] can be in. *)
Inductive reachable (settings : TrackerSettings) : CTracker D → Prop :=
| reach_new t :
    CTracker_new settings = Some t → reachable settings t
| reach_update sched t regions currFrame fps t' :
    reachable settings t → schedule sched →
    Update_sched sched t regions currFrame fps = Some t' →
    reachable settings t'.

(** [t'] is [t] after zero or more frames. *)
Inductive later (t : CTracker D) : CTracker D → Prop :=
| later_refl : later t t
| later_update sched t1 regions currFrame fps t2 :
    later t t1 → schedule sched →
    Update_sched sched t1 regions currFrame fps = Some t2 →
    later t t2.

(** A loop body is pointwise when iteration [i] either fails for a reason
    that does not depend on the vector, or rewrites slot [i] from its own
    content. *)
Definition pointwise {A : Type} (body : nat → list A → option (list A))
    (ok : nat → bool) (g : nat → A → A) : Prop :=
  ∀ i v, body i v = if ok i then modify_at i (g i) v else None.

(** What [CalcEmbeddins] does to slot [i] of the descriptor vector. *)
Definition embed_slot (t : CTracker D) (currFrame : cv.UMat) (regions : regions_t)
    (i : nat) (a : RegionEmbedding) : RegionEmbedding :=
  match regions !! i with
  | Some reg => emb_stage t currFrame reg (hist_stage t currFrame reg a)
  | None => a
  end.

(** [if (dist > maxCost) maxCost = dist]. *)
Definition max_step (maxCost dist : Q) : Q :=
  if Qgtb dist maxCost then dist else maxCost.

(** The value of [maxCost] after the distances [l] have been seen, in
    order, starting from 0. *)
Definition running_max (l : list Q) : Q := foldl max_step 0%Q l.

(** The distances that the loop over regions computes for [track], in the
    order of the regions. *)
Definition row_costs (s : TrackerSettings) (regions : regions_t)
    (regionEmbeddings : list RegionEmbedding) (maxPossibleCost : track_t)
    (track : CTrack D) : list Q :=
  (λ d, pair_cost s track (CalcPredictionEllipse track (min_radius s track))
                  d.1 d.2 maxPossibleCost)
    <$> zip regions regionEmbeddings.

(** All distances of a frame in the order in which [CreateDistaceMatrix]
    computes them: track by track, and region by region for each track. *)
Definition visited_costs (s : TrackerSettings) (tracks : list (CTrack D))
    (regions : regions_t) (regionEmbeddings : list RegionEmbedding)
    (maxPossibleCost : track_t) : list Q :=
  mjoin (row_costs s regions regionEmbeddings maxPossibleCost <$> tracks).

(** A solver that gives no region to two tracks. *)
Definition solver_injective : Prop :=
  ∀ sp costMatrix N M assignment maxCost,
    NoDup (filter (λ a, a ≠ (-1)%Z) (Solve sp costMatrix N M assignment maxCost)).

(** A list of identifiers in strictly increasing order. *)
Definition increasing (l : list nat) : Prop :=
  ∀ i j a b, i < j → l !! i = Some a → l !! j = Some b → a < b.

(** ** Generic facts about the loop combinators *)

Lemma Qgtb_true (a b : Q) : Qgtb a b = true ↔ (b < a)%Q.
Proof.
  unfold Qgtb. rewrite negb_true_iff, <- not_true_iff_false, Qle_bool_iff.
  split; [apply Qnot_le_lt | apply Qlt_not_le].
Qed.

Lemma Qgtb_false (a b : Q) : Qgtb a b = false ↔ (a <= b)%Q.
Proof. unfold Qgtb. rewrite negb_false_iff. apply Qle_bool_iff. Qed.

Lemma Qltb_true (a b : Q) : Qltb a b = true ↔ (a < b)%Q.
Proof. apply Qgtb_true. Qed.

Lemma Qltb_false (a b : Q) : Qltb a b = false ↔ (b <= a)%Q.
Proof. apply Qgtb_false. Qed.

(** An [int] computation whose exact result fits in 32 bits yields it. *)
Lemma wrap_int_small (z : Z) : (- 2 ^ 31 ≤ z < 2 ^ 31)%Z → wrap_int z = z.
Proof. intros Hz. unfold wrap_int. rewrite Z.mod_small by lia. lia. Qed.

(** An [int] of fewer than 25 bits converts to [track_t] exactly. *)
Lemma int_to_track_t_exact (z : Z) :
  (Z.abs z < 2 ^ 24)%Z → int_to_track_t z = inject_Z z.
Proof.
  intros Hz. unfold int_to_track_t.
  assert (Z.max 0 (Z.log2 (Z.abs z) + 1 - 24) = 0)%Z as ->.
  { destruct (decide (Z.abs z = 0%Z)) as [->|Hne]; [done|].
    assert (Z.log2 (Z.abs z) < 24)%Z by (apply Z.log2_lt_pow2; lia). lia. }
  rewrite Z.eqb_refl, Z.shiftr_0_r, Z.shiftl_0_r. f_equal.
  destruct z; simpl; lia.
Qed.

(** For a frame of fewer than 2^24 pixels [maxPossibleCost] is its area. *)
Lemma max_possible_cost_exact (currFrame : cv.UMat) :
  (0 ≤ cv.cols currFrame * cv.rows currFrame < 2 ^ 24)%Z →
  max_possible_cost currFrame = inject_Z (cv.cols currFrame * cv.rows currFrame).
Proof.
  intros Ha. unfold max_possible_cost, int_mul.
  rewrite wrap_int_small by lia. apply int_to_track_t_exact. lia.
Qed.

Lemma for_each_app {S : Type} (body : nat → S → option S) (l1 l2 : list nat) (s : S) :
  for_each body (l1 ++ l2) s = (s' ← for_each body l1 s; for_each body l2 s').
Proof.
  revert s. induction l1 as [|i l1 IH]; intros s; simpl; [done|].
  destruct (body i s) as [s'|]; simpl; [apply IH | done].
Qed.

Lemma for_range_S {S : Type} (body : nat → S → option S) (n : nat) (s : S) :
  for_range body (Datatypes.S n) s = (s' ← for_range body n s; body n s').
Proof.
  unfold for_range. rewrite seq_S, for_each_app. simpl.
  destruct (for_each body (seq 0 n) s) as [s'|]; simpl; [|done].
  by destruct (body n s').
Qed.

(** The loop rule: an invariant [P i] that holds before iteration [i] and is
    re-established by every iteration (which therefore does not fail) holds
    at [n] when the loop ends. *)
Lemma for_range_inv {S : Type} (P : nat → S → Prop) (body : nat → S → option S)
    (n : nat) (s : S) :
  P 0 s →
  (∀ i s, i < n → P i s → ∃ s', body i s = Some s' ∧ P (Datatypes.S i) s') →
  ∃ s', for_range body n s = Some s' ∧ P n s'.
Proof.
  intros H0 Hstep. induction n as [|n IH].
  - exists s. by split.
  - destruct IH as (s1 & E1 & P1); [intros i s0 Hi; apply Hstep; lia|].
    destruct (Hstep n s1) as (s2 & E2 & P2); [lia|done|].
    exists s2. rewrite for_range_S, E1. by split.
Qed.

Lemma modify_at_Some {A : Type} (i : nat) (f : A → A) (v : list A) (a : A) :
  v !! i = Some a → modify_at i f v = Some (<[i := f a]> v).
Proof. intros E. unfold modify_at. by rewrite E. Qed.

Lemma pointwise_swap {A : Type} (body : nat → list A → option (list A)) ok g
    (x y : nat) (v : list A) :
  pointwise body ok g →
  (v1 ← body x v; body y v1) = (v1 ← body y v; body x v1).
Proof.
  intros Hb. destruct (decide (x = y)) as [->|Hne]; [done|].
  rewrite !Hb. unfold modify_at.
  destruct (ok x) eqn:Ex, (ok y) eqn:Ey; simpl;
    destruct (v !! x) as [a|] eqn:Ea, (v !! y) as [b|] eqn:Eb; simpl;
    rewrite ?Hb, ?Ex, ?Ey; unfold modify_at;
    rewrite ?list_lookup_insert_ne by done; rewrite ?Ea, ?Eb; simpl; try done.
  f_equal. by apply list_insert_insert_ne.
Qed.

(** The order of the iterations of a pointwise loop does not matter. *)
Lemma for_each_perm {A : Type} (body : nat → list A → option (list A)) ok g
    (idx1 idx2 : list nat) :
  pointwise body ok g → idx1 ≡ₚ idx2 →
  ∀ v, for_each body idx1 v = for_each body idx2 v.
Proof.
  intros Hb Hp. induction Hp as [|x l1 l2 _ IH|x y l|l1 l2 l3 _ IH1 _ IH2]; intros v.
  - done.
  - simpl. destruct (body x v); simpl; [apply IH | done].
  - change (for_each body (y :: x :: l) v)
      with (v1 ← body y v; v2 ← body x v1; for_each body l v2).
    change (for_each body (x :: y :: l) v)
      with (v1 ← body x v; v2 ← body y v1; for_each body l v2).
    pose proof (pointwise_swap body ok g y x v Hb) as Hs.
    destruct (body y v) as [v1|] eqn:E1, (body x v) as [v1'|] eqn:E2; simpl in *.
    + by rewrite Hs.
    + by rewrite Hs.
    + by rewrite <- Hs.
    + done.
  - by rewrite IH1, IH2.
Qed.

(** What a loop computes when every iteration rewrites its own slot, over
    distinct and valid indices. *)
Lemma for_each_pointwise {A : Type} (body : nat → list A → option (list A)) g
    (idx : list nat) (v : list A) :
  (∀ i v', i ∈ idx → body i v' = modify_at i (g i) v') →
  NoDup idx →
  (∀ i, i ∈ idx → i < length v) →
  for_each body idx v
  = Some (imap (λ i a, if decide (i ∈ idx) then g i a else a) v).
Proof.
  intros Hb Hnd. revert v Hb. induction Hnd as [|i idx Hni Hnd IH]; intros v Hb Hok.
  - simpl. f_equal. apply list_eq. intros k. rewrite list_lookup_imap.
    by destruct (v !! k).
  - assert (i < length v) as Hlt by (apply Hok, elem_of_cons; by left).
    apply lookup_lt_is_Some_2 in Hlt as [a Ea].
    simpl. rewrite Hb by (apply elem_of_cons; by left).
    rewrite (modify_at_Some _ _ _ _ Ea). simpl.
    rewrite IH.
    + f_equal. apply list_eq. intros k. rewrite !list_lookup_imap.
      destruct (decide (k = i)) as [->|Hne].
      * rewrite list_lookup_insert_eq by (by eapply lookup_lt_Some).
        rewrite Ea. simpl. rewrite decide_False by done.
        rewrite decide_True by (apply elem_of_cons; by left). done.
      * rewrite list_lookup_insert_ne by done.
        destruct (v !! k); simpl; [|done]. f_equal.
        destruct (decide (k ∈ idx)) as [Hin|Hin].
        -- rewrite decide_True by (apply elem_of_cons; by right). done.
        -- rewrite decide_False; [done|].
           rewrite elem_of_cons. intros [?|?]; done.
    + intros k v' Hk. apply Hb, elem_of_cons. by right.
    + intros k Hk. rewrite length_insert. apply Hok.
      apply elem_of_cons. by right.
Qed.

Lemma for_range_pointwise {A : Type} (body : nat → list A → option (list A)) g
    (n : nat) (v : list A) :
  (∀ i v', i < n → body i v' = modify_at i (g i) v') →
  n ≤ length v →
  for_range body n v
  = Some (imap (λ i a, if decide (i < n) then g i a else a) v).
Proof.
  intros Hb Hn. unfold for_range.
  rewrite (for_each_pointwise body g); [| |apply NoDup_seq|].
  - f_equal. apply imap_ext. intros i a _.
    destruct (decide (i ∈ seq 0 n)) as [Hin|Hin], (decide (i < n)) as [Hlt|Hlt];
      try done; rewrite elem_of_seq in Hin; lia.
  - intros i v' Hi. apply Hb. rewrite elem_of_seq in Hi. lia.
  - intros i Hi. rewrite elem_of_seq in Hi. lia.
Qed.

(** ** CalcEmbeddins *)

Lemma hist_step_modify (regions : regions_t) (currFrame : cv.UMat) (j : nat)
    (v : list RegionEmbedding) (reg : CRegion) :
  regions !! j = Some reg →
  hist_step regions currFrame j v
  = modify_at j (set_hist (hist_of currFrame reg)) v.
Proof.
  intros Er. unfold hist_step, hist_of.
  destruct (hist_params (cv.nchannels currFrame)) as [[histSize ranges] channels].
  rewrite Er. simpl. unfold modify_at at 2 3.
  destruct (v !! j) as [a|] eqn:Ea; simpl; [|done].
  unfold modify_at. rewrite list_lookup_insert_eq by (by eapply lookup_lt_Some).
  simpl. by rewrite list_insert_insert_eq.
Qed.

Lemma emb_step_modify (t : CTracker D) (regions : regions_t) (currFrame : cv.UMat)
    (j : nat) (v : list RegionEmbedding) (reg : CRegion) :
  regions !! j = Some reg →
  emb_step (m_embCalculators t) regions currFrame j v
  = modify_at j (emb_of t currFrame reg) v.
Proof.
  intros Er. unfold emb_step, emb_of, modify_at.
  destruct (v !! j) as [a|] eqn:Ea; simpl; [|done].
  destruct (cv.Mat_empty (m_embedding a)).
  - rewrite Er. simpl. destruct (m_embCalculators t !! m_type reg) as [c|].
    + rewrite list_lookup_insert_eq by (by eapply lookup_lt_Some).
      simpl. by rewrite list_insert_insert_eq.
    + by rewrite list_insert_id.
  - by rewrite list_insert_id.
Qed.

(** [CalcEmbeddins] never fails on the fresh vector it is given, and leaves
    one descriptor per region. *)
Lemma CalcEmbeddins_eq (t : CTracker D) (regions : regions_t) (currFrame : cv.UMat) :
  CalcEmbeddins t [] regions currFrame
  = Some (region_embedding t currFrame <$> regions).
Proof.
  unfold CalcEmbeddins. destruct regions as [|r0 rs] eqn:Eregs; [done|].
  rewrite <- Eregs.
  replace (vec_empty regions) with false by (by rewrite Eregs).
  cbn [negb]. set (M := length regions).
  assert (resize_vec M RegionEmbedding_default [] = replicate M RegionEmbedding_default)
    as -> by (unfold resize_vec; by rewrite take_nil, Nat.sub_0_r).
  set (gh := λ (j : nat) (e : RegionEmbedding),
         match regions !! j with
         | Some reg => set_hist (hist_of currFrame reg) e | None => e end).
  set (ge := λ (j : nat) (e : RegionEmbedding),
         match regions !! j with
         | Some reg => emb_of t currFrame reg e | None => e end).
  assert (∀ v : list RegionEmbedding, length v = M →
    for_range (hist_step regions currFrame) M v
    = Some (imap (λ i a, if decide (i < M) then gh i a else a) v)) as Hh.
  { intros v Hv. apply for_range_pointwise; [|lia].
    intros i v' Hi. destruct (lookup_lt_is_Some_2 regions i Hi) as [reg Er].
    unfold gh. cbv beta. rewrite Er. by apply hist_step_modify. }
  assert (∀ v : list RegionEmbedding, length v = M →
    for_range (emb_step (m_embCalculators t) regions currFrame) M v
    = Some (imap (λ i a, if decide (i < M) then ge i a else a) v)) as He.
  { intros v Hv. apply for_range_pointwise; [|lia].
    intros i v' Hi. destruct (lookup_lt_is_Some_2 regions i Hi) as [reg Er].
    unfold ge. cbv beta. rewrite Er. by apply emb_step_modify. }
  assert (∀ v : list RegionEmbedding, length v = M →
    (if Qgtb (m_distType (m_settings t) tracking.DistHist) 0
     then for_range (hist_step regions currFrame) M v else Some v)
    = Some (imap (λ i a, match regions !! i with
                         | Some reg => hist_stage t currFrame reg a
                         | None => a end) v)) as Hh'.
  { intros v Hv. unfold hist_stage.
    destruct (Qgtb (m_distType (m_settings t) tracking.DistHist) 0).
    - rewrite Hh by done. f_equal. apply imap_ext. intros i a Ea.
      apply lookup_lt_Some in Ea. rewrite decide_True by lia. done.
    - f_equal. apply list_eq. intros i. rewrite list_lookup_imap.
      destruct (v !! i); simpl; [|done]. by destruct (regions !! i). }
  assert (∀ v : list RegionEmbedding, length v = M →
    (if Qgtb (m_distType (m_settings t) tracking.DistFeatureCos) 0
     then for_range (emb_step (m_embCalculators t) regions currFrame) M v else Some v)
    = Some (imap (λ i a, match regions !! i with
                         | Some reg => emb_stage t currFrame reg a
                         | None => a end) v)) as He'.
  { intros v Hv. unfold emb_stage.
    destruct (Qgtb (m_distType (m_settings t) tracking.DistFeatureCos) 0).
    - rewrite He by done. f_equal. apply imap_ext. intros i a Ea.
      apply lookup_lt_Some in Ea. rewrite decide_True by lia. done.
    - f_equal. apply list_eq. intros i. rewrite list_lookup_imap.
      destruct (v !! i); simpl; [|done]. by destruct (regions !! i). }
  rewrite Hh' by apply length_replicate. simpl.
  rewrite He' by (by rewrite length_imap, length_replicate).
  f_equal. apply list_eq. intros i.
  rewrite !list_lookup_imap, list_lookup_fmap.
  destruct (regions !! i) as [reg|] eqn:Er; simpl.
  - rewrite lookup_replicate_2 by (by eapply lookup_lt_Some). done.
  - apply lookup_ge_None in Er. by rewrite (proj1 (lookup_replicate_None _ _ _)).
Qed.

(** ** The constructor *)

Lemma try_emplace_lookup {V : Type} (k k' : Z) (v : V) (m : gmap Z V) :
  try_emplace k v m !! k'
  = match m !! k' with
    | Some x => Some x
    | None => if decide (k' = k) then Some v else None
    end.
Proof.
  unfold try_emplace. destruct (decide (k' = k)) as [->|Hne].
  - destruct (m !! k) eqn:E; [done|]. by rewrite lookup_insert_eq.
  - destruct (m !! k) eqn:E.
    + by destruct (m !! k').
    + rewrite lookup_insert_ne by done. by destruct (m !! k').
Qed.

Lemma foldl_try_emplace_lookup {V : Type} (tys : list Z) (v : V) (m : gmap Z V) (k : Z) :
  foldl (λ acc ty, try_emplace ty v acc) m tys !! k
  = match m !! k with
    | Some x => Some x
    | None => if bool_decide (k ∈ tys) then Some v else None
    end.
Proof.
  revert m. induction tys as [|ty tys IH]; intros m; simpl.
  - by destruct (m !! k).
  - rewrite IH, try_emplace_lookup.
    destruct (m !! k) as [x|]; [done|].
    destruct (decide (k = ty)) as [->|Hne].
    + rewrite bool_decide_eq_true_2 by (apply elem_of_cons; by left). done.
    + destruct (bool_decide (k ∈ tys)) eqn:Ein.
      * apply bool_decide_eq_true_1 in Ein.
        rewrite bool_decide_eq_true_2 by (apply elem_of_cons; by right). done.
      * apply bool_decide_eq_false_1 in Ein.
        rewrite bool_decide_eq_false_2; [done|].
        rewrite elem_of_cons. by intros [?|?].
Qed.

Lemma register_embedding_lookup (p : EmbeddingParams)
    (m : gmap Z EmbeddingsCalculator) (k : Z) :
  register_embedding p m !! k
  = match m !! k with
    | Some x => Some x
    | None => first_backend [p] k
    end.
Proof.
  unfold register_embedding. simpl.
  destruct (Initialize _ _ _); simpl.
  - rewrite foldl_try_emplace_lookup. destruct (m !! k); [done|].
    by destruct (bool_decide _).
  - by destruct (m !! k).
Qed.

Lemma registered_lookup (params : list EmbeddingParams)
    (m : gmap Z EmbeddingsCalculator) (k : Z) :
  foldl (λ acc embParam, register_embedding embParam acc) m params !! k
  = match m !! k with
    | Some x => Some x
    | None => first_backend params k
    end.
Proof.
  revert m. induction params as [|p params IH]; intros m; simpl.
  - by destruct (m !! k).
  - rewrite IH, register_embedding_lookup. simpl.
    destruct (m !! k); [done|].
    by destruct (Initialize _ _ _ && bool_decide _).
Qed.

(** Every calculator in the table was initialised successfully. *)
Lemma first_backend_initialized (params : list EmbeddingParams) (k : Z)
    (c : EmbeddingsCalculator) :
  first_backend params k = Some c →
  Initialize (ec_cfgName c) (ec_weightsName c) (ec_inputLayer c) = true
  ∧ ∃ p, p ∈ params ∧ c = make_embCalc p ∧ k ∈ m_objectTypes p.
Proof.
  induction params as [|p params IH]; simpl; [done|].
  destruct (Initialize (m_embeddingCfgName p) (m_embeddingWeightsName p)
              (m_inputLayer p)) eqn:Ei; simpl.
  - destruct (bool_decide (k ∈ m_objectTypes p)) eqn:Ek.
    + intros [= <-]. split; [done|]. exists p.
      apply bool_decide_eq_true_1 in Ek.
      split; [apply elem_of_cons; by left | done].
    + intros Hc. destruct (IH Hc) as (? & q & ? & ? & ?).
      split; [done|]. exists q. split; [apply elem_of_cons; by right | done].
  - intros Hc. destruct (IH Hc) as (? & q & ? & ? & ?).
    split; [done|]. exists q. split; [apply elem_of_cons; by right | done].
Qed.

Lemma CTracker_new_eq (settings : TrackerSettings) :
  ∃ t, CTracker_new settings = Some t
       ∧ m_settings t = settings ∧ m_tracks t = [] ∧ m_nextTrackID t = 0
       ∧ m_prevFrame t = cv.UMat_default
       ∧ is_Some (m_SPCalculator t)
       ∧ ∀ ty, m_embCalculators t !! ty = first_backend (m_embeddings settings) ty.
Proof.
  unfold CTracker_new. destruct (m_matchType settings); simpl;
    eexists; (split; [reflexivity|]); simpl; repeat split; eauto;
    intros ty; by rewrite registered_lookup, lookup_empty.
Qed.

(** ** CreateDistaceMatrix *)

Lemma pair_dist_eq (s : TrackerSettings) (track : CTrack D)
    (predictedArea : cv.RotatedRect) (reg : CRegion)
    (regionEmbeddings : list RegionEmbedding) (j : nat) (e : RegionEmbedding)
    (maxPossibleCost : track_t) :
  regionEmbeddings !! j = Some e →
  pair_dist s track predictedArea reg regionEmbeddings j maxPossibleCost
  = Some (pair_cost s track predictedArea reg e maxPossibleCost).
Proof.
  intros Ee. unfold pair_dist, pair_cost.
  destruct (CheckType s _ _); [|done].
  unfold add_cos, add_hist, add_jaccard, add_rects, add_centers.
  unfold tracking.DistCenters, tracking.DistRects, tracking.DistJaccard,
    tracking.DistHist, tracking.DistFeatureCos, tracking.DistsCount.
  cbn [Nat.eqb]. rewrite !andb_true_r, Ee.
  destruct (Qgtb (m_distType s 3) 0), (Qgtb (m_distType s 4) 0); simpl; try done.
  - by destruct (m_type reg =? m_type (LastRegion track))%Z.
  - by destruct (m_type reg =? m_type (LastRegion track))%Z.
Qed.

(** The column-major index of a pair determines the pair. *)
Lemma index_inj (N i j i' j' : nat) :
  i < N → i' < N → i + j * N = i' + j' * N → i = i' ∧ j = j'.
Proof.
  intros Hi Hi' E.
  assert (j = j') as ->.
  { apply (f_equal (λ k, k / N)) in E.
    rewrite !Nat.div_add, !(Nat.div_small _ N) in E by lia. done. }
  split; [lia | done].
Qed.

Lemma index_lt (N M i j : nat) : i < N → j < M → i + j * N < N * M.
Proof. intros Hi Hj. nia. Qed.

(** The inner loop fills column-major slots [i + j * N] of row [i] and
    leaves every other slot as it was. *)
Lemma dist_col_loop (s : TrackerSettings) (N i : nat) (track : CTrack D)
    (predictedArea : cv.RotatedRect) (regions : regions_t)
    (regionEmbeddings : list RegionEmbedding) (maxPossibleCost : track_t)
    (cm : list Q) (mc : Q) :
  i < N → length cm = N * length regions →
  length regionEmbeddings = length regions →
  ∃ cm' mc',
    for_range (dist_col_step s N i track predictedArea regions regionEmbeddings
                             maxPossibleCost) (length regions) (cm, mc)
    = Some (cm', mc')
    ∧ length cm' = N * length regions
    ∧ (∀ j reg e, regions !! j = Some reg → regionEmbeddings !! j = Some e →
         cm' !! (i + j * N)
         = Some (pair_cost s track predictedArea reg e maxPossibleCost))
    ∧ (∀ k, (∀ j, j < length regions → k ≠ i + j * N) → cm' !! k = cm !! k).
Proof.
  intros Hi Hlen Hemb.
  set (M := length regions) in *.
  set (P := λ (j : nat) (st : list Q * Q),
         length st.1 = N * M
         ∧ (∀ j' reg e, j' < j → regions !! j' = Some reg →
              regionEmbeddings !! j' = Some e →
              st.1 !! (i + j' * N)
              = Some (pair_cost s track predictedArea reg e maxPossibleCost))
         ∧ (∀ k, (∀ j', j' < j → k ≠ i + j' * N) → st.1 !! k = cm !! k)).
  destruct (for_range_inv P
              (dist_col_step s N i track predictedArea regions regionEmbeddings
                             maxPossibleCost) M (cm, mc))
    as ([cm' mc'] & E & Hl & Hrow & Hframe).
  - split; [done|]. split; [intros; lia | done].
  - intros j [cm1 mc1] Hj (Hl & Hrow & Hframe). simpl in *.
    destruct (lookup_lt_is_Some_2 regions j Hj) as [reg Er].
    destruct (lookup_lt_is_Some_2 regionEmbeddings j) as [e Ee]; [lia|].
    assert (i + j * N < length cm1) as Hidx by (rewrite Hl; by apply index_lt).
    destruct (lookup_lt_is_Some_2 cm1 _ Hidx) as [c0 Ec].
    unfold dist_col_step. rewrite Er. simpl.
    rewrite (pair_dist_eq _ _ _ _ _ _ e) by done. simpl.
    rewrite (modify_at_Some _ _ _ _ Ec). simpl.
    eexists. split; [reflexivity|]. unfold P. simpl.
    split; [by rewrite length_insert|]. split.
    + intros j' reg' e' Hj' Er' Ee'.
      destruct (decide (j' = j)) as [->|Hne].
      * rewrite list_lookup_insert_eq by done. congruence.
      * rewrite list_lookup_insert_ne.
        -- apply Hrow; [lia|done|done].
        -- intros Heq. apply index_inj in Heq as [_ ?]; [lia|done|done].
    + intros k Hk. rewrite list_lookup_insert_ne.
      * apply Hframe. intros j' Hj'. apply Hk. lia.
      * intros Heq. by apply (Hk j); [lia|].
  - exists cm', mc'. split; [done|]. split; [done|]. split; [|done].
    intros j reg e Er Ee. eapply Hrow; [by eapply lookup_lt_Some|done|done].
Qed.

(** With one descriptor per region, [CreateDistaceMatrix] succeeds and
    stores the cost of pair [(i, j)] at [i + j * N]. *)
Lemma CreateDistaceMatrix_eq (t : CTracker D) (regions : regions_t)
    (regionEmbeddings : list RegionEmbedding) (maxPossibleCost mc0 : track_t) :
  length regionEmbeddings = length regions →
  ∃ cm mc,
    CreateDistaceMatrix t regions regionEmbeddings
      (replicate (length (m_tracks t) * length regions) 0%Q) maxPossibleCost mc0
    = Some (cm, mc)
    ∧ length cm = length (m_tracks t) * length regions
    ∧ ∀ i j, i < length (m_tracks t) → j < length regions →
        cm !! (i + j * length (m_tracks t))
        = cost_at (m_settings t) (m_tracks t) regions regionEmbeddings
                  maxPossibleCost i j.
Proof.
  intros Hemb. unfold CreateDistaceMatrix.
  set (N := length (m_tracks t)). set (M := length regions).
  set (P := λ (i : nat) (st : list Q * Q),
         length st.1 = N * M
         ∧ ∀ i' j, i' < i → j < M →
             st.1 !! (i' + j * N)
             = cost_at (m_settings t) (m_tracks t) regions regionEmbeddings
                       maxPossibleCost i' j).
  destruct (for_range_inv P
              (dist_row_step (m_settings t) (m_tracks t) regions regionEmbeddings
                             maxPossibleCost) N (replicate (N * M) 0%Q, 0%Q))
    as ([cm mc] & E & Hl & Hall).
  - split; [apply length_replicate | intros; lia].
  - intros i [cm1 mc1] Hi (Hl & Hall). simpl in *.
    destruct (lookup_lt_is_Some_2 (m_tracks t) i Hi) as [track Et].
    unfold dist_row_step. rewrite Et. simpl.
    destruct (dist_col_loop (m_settings t) N i track
                (CalcPredictionEllipse track (min_radius (m_settings t) track))
                regions regionEmbeddings maxPossibleCost cm1 mc1)
      as (cm2 & mc2 & E2 & Hl2 & Hrow & Hframe); [done|done|done|].
    exists (cm2, mc2). split; [done|]. unfold P. simpl. split; [done|].
    intros i' j Hi' Hj.
    destruct (decide (i' = i)) as [->|Hne].
    + destruct (lookup_lt_is_Some_2 regions j Hj) as [reg Er].
      destruct (lookup_lt_is_Some_2 regionEmbeddings j) as [e Ee];
        [unfold M in Hj; lia|].
      rewrite (Hrow j reg e) by done.
      unfold cost_at. rewrite Et, Er, Ee. done.
    + rewrite Hframe; [apply Hall; lia|].
      intros j' Hj' Heq. apply index_inj in Heq as [? _]; [lia|lia|done].
  - exists cm, mc. by split.
Qed.

(** ** Gating *)

Lemma lookupZ_nat {A : Type} (v : list A) (n : nat) :
  lookupZ v (Z.of_nat n) = v !! n.
Proof.
  unfold lookupZ. rewrite (proj2 (Z.ltb_ge _ _)) by lia. by rewrite Nat2Z.id.
Qed.

Lemma lookupZ_index (cm : list Q) (N i j : nat) :
  lookupZ cm (Z.of_nat i + Z.of_nat j * Z.of_nat N)%Z = cm !! (i + j * N).
Proof. rewrite <- lookupZ_nat. f_equal. lia. Qed.

Lemma lookupZ_is_Some {A : Type} (v : list A) (a : Z) :
  (0 ≤ a < Z.of_nat (length v))%Z → is_Some (lookupZ v a).
Proof.
  intros Ha. rewrite <- (Z2Nat.id a) by lia. rewrite lookupZ_nat.
  apply lookup_lt_is_Some_2. lia.
Qed.

Lemma gating_step_eq (s : TrackerSettings) (cm : list Q) (N M i : nat) (a : Z)
    (assignment : list Z) (tracks : list (CTrack D)) (track : CTrack D) :
  length cm = N * M → i < N →
  a = (-1)%Z ∨ (0 ≤ a < Z.of_nat M)%Z →
  assignment !! i = Some a → tracks !! i = Some track →
  gating_step s cm N i (assignment, tracks)
  = Some (<[i := gate_assignment s cm N i a]> assignment,
          <[i := gate_track s cm N i a track]> tracks).
Proof.
  intros Hcm Hi Ha Ea Et. unfold gating_step, gate_assignment, gate_track, voided.
  rewrite Ea. simpl. destruct Ha as [->|Ha].
  - simpl. rewrite (modify_at_Some _ _ _ _ Et). simpl.
    by rewrite (list_insert_id assignment i (-1)%Z).
  - rewrite (proj2 (Z.eqb_neq a (-1))) by lia. simpl.
    assert (is_Some (lookupZ cm (Z.of_nat i + a * Z.of_nat N))) as [c Ec].
    { rewrite <- (Z2Nat.id a) by lia. rewrite lookupZ_index.
      apply lookup_lt_is_Some_2. rewrite Hcm. apply index_lt; lia. }
    rewrite Ec. simpl. destruct (Qgtb c (m_distThres s)).
    + rewrite (modify_at_Some _ _ _ _ Ea). simpl.
      by rewrite (modify_at_Some _ _ _ _ Et).
    + by rewrite !list_insert_id.
Qed.

(** Under the solver's contract the gating loop does not fail, and treats
    every slot by [gate_assignment] and [gate_track]. *)
Lemma gating_loop_eq (s : TrackerSettings) (cm : list Q) (M : nat)
    (assignment : list Z) (tracks : list (CTrack D)) :
  length cm = length tracks * M →
  assignment_wf (length tracks) M assignment →
  for_range (gating_step s cm (length tracks)) (length assignment)
            (assignment, tracks)
  = Some ((gate_pairs s cm tracks assignment).*2,
          (gate_pairs s cm tracks assignment).*1).
Proof.
  intros Hcm [Hlen Hwf]. set (N := length tracks) in *.
  set (P := λ (i : nat) (st : list Z * list (CTrack D)),
         length st.1 = N ∧ length st.2 = N
         ∧ (∀ k a, assignment !! k = Some a →
              st.1 !! k = Some (if decide (k < i) then gate_assignment s cm N k a
                                else a))
         ∧ (∀ k a tr, assignment !! k = Some a → tracks !! k = Some tr →
              st.2 !! k = Some (if decide (k < i) then gate_track s cm N k a tr
                                else tr))).
  destruct (for_range_inv P (gating_step s cm N) (length assignment)
              (assignment, tracks)) as ([as' ts'] & E & Hl1 & Hl2 & Ha & Ht).
  - unfold P. simpl. repeat split; try done.
  - intros i [as1 ts1] Hi (Hl1 & Hl2 & Ha & Ht). cbn [fst snd] in *.
    destruct (lookup_lt_is_Some_2 assignment i Hi) as [a Ea].
    destruct (lookup_lt_is_Some_2 tracks i) as [tr Et]; [unfold N in *; lia|].
    pose proof (Ha i a Ea) as Ea1. rewrite decide_False in Ea1 by lia.
    pose proof (Ht i a tr Ea Et) as Et1. rewrite decide_False in Et1 by lia.
    rewrite (gating_step_eq s cm N M i a as1 ts1 tr); eauto; [|lia].
    eexists. split; [reflexivity|]. unfold P. simpl.
    rewrite !length_insert. repeat split; try done.
    + intros k b Eb. destruct (decide (k = i)) as [->|Hne].
      * rewrite list_lookup_insert_eq by lia. rewrite decide_True by lia. congruence.
      * rewrite list_lookup_insert_ne by done. rewrite (Ha k b Eb).
        destruct (decide (k < i)), (decide (k < S i)); try done; lia.
    + intros k b tr' Eb Et'. destruct (decide (k = i)) as [->|Hne].
      * rewrite list_lookup_insert_eq by lia. rewrite decide_True by lia. congruence.
      * rewrite list_lookup_insert_ne by done. rewrite (Ht k b tr' Eb Et').
        destruct (decide (k < i)), (decide (k < S i)); try done; lia.
  - rewrite E. simpl in *. f_equal. unfold gate_pairs. f_equal.
    + apply list_eq. intros k.
      rewrite list_lookup_fmap, list_lookup_imap, lookup_zip_with.
      destruct (assignment !! k) as [a|] eqn:Ea.
      * destruct (lookup_lt_is_Some_2 tracks k) as [tr Et];
          [apply lookup_lt_Some in Ea; unfold N in *; lia|].
        rewrite Et. simpl. rewrite (Ha k a Ea).
        apply lookup_lt_Some in Ea. by rewrite decide_True by lia.
      * apply lookup_ge_None in Ea.
        rewrite (proj2 (lookup_ge_None as' k)) by lia.
        by destruct (tracks !! k).
    + apply list_eq. intros k.
      rewrite list_lookup_fmap, list_lookup_imap, lookup_zip_with.
      destruct (assignment !! k) as [a|] eqn:Ea.
      * destruct (lookup_lt_is_Some_2 tracks k) as [tr Et];
          [apply lookup_lt_Some in Ea; unfold N in *; lia|].
        rewrite Et. simpl. rewrite (Ht k a tr Ea Et).
        apply lookup_lt_Some in Ea. by rewrite decide_True by lia.
      * apply lookup_ge_None in Ea.
        rewrite (proj2 (lookup_ge_None ts' k)) by lia.
        rewrite (proj2 (lookup_ge_None tracks k)) by (unfold N in *; lia).
        done.
Qed.

(** ** Removal of lost tracks *)

Lemma erase_at_middle {A : Type} (l1 l2 : list A) (x : A) :
  erase_at (length l1) (l1 ++ x :: l2) = l1 ++ l2.
Proof.
  unfold erase_at. rewrite take_app_length.
  rewrite (cons_middle x l1 l2), app_assoc.
  by rewrite (drop_app_length' (l1 ++ [x])) by (rewrite length_app; simpl; lia).
Qed.

(** The removal loop, started at index [length pre] with [pre] already
    examined and kept, keeps exactly the [survivors] of what remains; the
    fuel it needs is bounded by the number of remaining pairs. *)
Lemma retire_loop_gen (s : TrackerSettings) (fps : track_t)
    (rest : list (CTrack D * Z)) :
  ∀ (pre : list (CTrack D * Z)) (fuel : nat),
    length rest < fuel →
    retire_loop s fps fuel (length pre) ((pre ++ rest).*1) ((pre ++ rest).*2)
    = Some ((pre ++ survivors s fps rest).*1, (pre ++ survivors s fps rest).*2).
Proof.
  induction rest as [|[x a] rest IH]; intros pre fuel Hfuel;
    (destruct fuel as [|fuel]; [simpl in Hfuel; lia|]); simpl.
  - replace (survivors s fps []) with (@nil (CTrack D * Z)) by done.
    rewrite app_nil_r, length_fmap, Nat.ltb_irrefl. done.
  - rewrite !fmap_app, !fmap_cons, length_app, length_fmap. simpl.
    rewrite (proj2 (Nat.ltb_lt _ _)) by lia.
    assert ((pre.*1 ++ x :: rest.*1) !! length pre = Some x) as ->
      by (apply list_lookup_middle; by rewrite length_fmap).
    assert ((pre.*2 ++ a :: rest.*2) !! length pre = Some a) as ->
      by (apply list_lookup_middle; by rewrite length_fmap).
    assert (erase_at (length pre) (pre.*1 ++ x :: rest.*1) = pre.*1 ++ rest.*1)
      as -> by (rewrite <- (length_fmap fst pre); apply erase_at_middle).
    assert (erase_at (length pre) (pre.*2 ++ a :: rest.*2) = pre.*2 ++ rest.*2)
      as -> by (rewrite <- (length_fmap snd pre); apply erase_at_middle).
    simpl. unfold survivors. destruct (retire_cond s fps x) eqn:Ec.
    + rewrite <- !fmap_app. rewrite IH by (simpl in Hfuel; lia).
      rewrite filter_cons_False; [|simpl; by rewrite Ec].
      by rewrite !fmap_app.
    + rewrite filter_cons_True by done.
      specialize (IH (pre ++ [(x, a)]) fuel).
      rewrite length_app in IH. simpl in IH.
      rewrite Nat.add_1_r in IH. rewrite <- !app_assoc in IH. simpl in IH.
      rewrite !fmap_app, !fmap_cons in IH. simpl in IH.
      rewrite IH by (simpl in Hfuel; lia). done.
Qed.

(** The removal loop as [UpdateTrackingState] runs it. *)
Lemma retire_loop_eq (s : TrackerSettings) (fps : track_t)
    (pairs : list (CTrack D * Z)) :
  retire_loop s fps (S (length pairs.*1)) 0 pairs.*1 pairs.*2
  = Some ((survivors s fps pairs).*1, (survivors s fps pairs).*2).
Proof.
  apply (retire_loop_gen s fps pairs []). rewrite length_fmap. lia.
Qed.

(** ** Birth of tracks *)

Lemma vec_empty_false {A : Type} (v : list A) : 0 < length v → vec_empty v = false.
Proof. destruct v; simpl; [lia | done]. Qed.

Lemma newborns_snoc (s : TrackerSettings) (id : nat)
    (unb : list (nat * (CRegion * RegionEmbedding)))
    (p : nat * (CRegion * RegionEmbedding)) :
  newborns s id (unb ++ [p])
  = newborns s id unb ++ [born s p.2.1 p.2.2 (id + length unb)].
Proof. unfold newborns. rewrite imap_app. simpl. by rewrite Nat.add_0_r. Qed.

(** With one descriptor per region the birth loop does not fail; it appends
    one track per unassigned region, in index order, and advances the
    counter by their number. *)
Lemma birth_loop_eq (s : TrackerSettings) (regions : regions_t)
    (regionEmbeddings : list RegionEmbedding) (assignment : list Z)
    (tracks : list (CTrack D)) (nextTrackID : nat) :
  length regionEmbeddings = length regions →
  for_range (birth_step s regions regionEmbeddings assignment) (length regions)
            (tracks, nextTrackID)
  = Some (tracks ++ newborns s nextTrackID
                      (unassigned assignment (zip regions regionEmbeddings)),
          nextTrackID
          + length (unassigned assignment (zip regions regionEmbeddings))).
Proof.
  intros Hemb.
  set (tagged := imap (λ j d, (j, d)) (zip regions regionEmbeddings)).
  set (U := λ i : nat, filter (λ p : nat * (CRegion * RegionEmbedding),
                                 not_found assignment p.1 = true) (take i tagged)).
  set (P := λ (i : nat) (st : list (CTrack D) * nat),
         st = (tracks ++ newborns s nextTrackID (U i), nextTrackID + length (U i))).
  destruct (for_range_inv P (birth_step s regions regionEmbeddings assignment)
              (length regions) (tracks, nextTrackID)) as (st & E & HP).
  - unfold P, U. rewrite take_0. simpl. by rewrite app_nil_r, Nat.add_0_r.
  - intros i st Hi ->.
    destruct (lookup_lt_is_Some_2 regions i Hi) as [reg Er].
    destruct (lookup_lt_is_Some_2 regionEmbeddings i) as [e Ee]; [lia|].
    assert (tagged !! i = Some (i, (reg, e))) as Etag.
    { unfold tagged. rewrite list_lookup_imap, lookup_zip_with, Er. simpl.
      by rewrite Ee. }
    assert (U (S i) = U i ++ (if not_found assignment i then [(i, (reg, e))] else []))
      as HU.
    { unfold U. rewrite (take_S_r _ _ _ Etag), filter_app. f_equal.
      destruct (not_found assignment i) eqn:En.
      - by rewrite filter_cons_True.
      - rewrite filter_cons_False; [done|]. simpl. by rewrite En. }
    unfold birth_step, P. rewrite HU.
    destruct (not_found assignment i).
    + rewrite vec_empty_false by lia. rewrite Er, Ee. simpl.
      eexists. split; [reflexivity|].
      rewrite newborns_snoc, length_app. simpl.
      rewrite app_assoc. f_equal. unfold born. lia.
    + eexists. split; [reflexivity|]. by rewrite app_nil_r.
  - rewrite E, HP. unfold U, unassigned. fold tagged.
    rewrite take_ge; [done|].
    unfold tagged. rewrite length_imap, length_zip_with. lia.
Qed.

(** ** The update loop *)

Lemma modify_at_twice {A : Type} (i : nat) (f g : A → A) (v : list A) :
  (v' ← modify_at i f v; modify_at i g v') = modify_at i (g ∘ f) v.
Proof.
  unfold modify_at. destruct (v !! i) as [a|] eqn:Ea; simpl; [|done].
  rewrite list_lookup_insert_eq by (by eapply lookup_lt_Some). simpl.
  by rewrite list_insert_insert_eq.
Qed.

(** Iteration [i] of the update loop reads and writes [m_tracks[i]] only. *)
Lemma update_step_pointwise (s : TrackerSettings) (prevFrame currFrame : cv.UMat)
    (fps : track_t) (regions : regions_t) (regionEmbeddings : list RegionEmbedding)
    (assignment : list Z) :
  pointwise (update_step s prevFrame currFrame fps regions regionEmbeddings assignment)
            (update_ok regions regionEmbeddings assignment)
            (update_slot s prevFrame currFrame fps regions regionEmbeddings assignment).
Proof.
  intros i v. unfold update_step, update_ok, update_slot, updated_track.
  destruct (assignment !! i) as [a|]; simpl; [|done].
  destruct (negb (a =? -1)%Z); [|done].
  destruct (vec_empty regionEmbeddings).
  - destruct (lookupZ regions a) as [reg|] eqn:Er.
    + rewrite bool_decide_eq_true_2 by eauto. simpl. apply modify_at_twice.
    + rewrite bool_decide_eq_false_2 by (by intros [? ?]). simpl.
      unfold modify_at. by destruct (v !! i).
  - destruct (lookupZ regions a) as [reg|] eqn:Er.
    + rewrite bool_decide_eq_true_2 by eauto. simpl.
      destruct (lookupZ regionEmbeddings a) as [emb|] eqn:Ee.
      * rewrite bool_decide_eq_true_2 by eauto. simpl. apply modify_at_twice.
      * rewrite bool_decide_eq_false_2 by (by intros [? ?]). simpl.
        unfold modify_at. by destruct (v !! i).
    + rewrite bool_decide_eq_false_2 by (by intros [? ?]). simpl.
      unfold modify_at. by destruct (v !! i).
Qed.

(** The update loop gives the same result in every order of its
    iterations. *)
Lemma update_loop_perm (s : TrackerSettings) (prevFrame currFrame : cv.UMat)
    (fps : track_t) (regions : regions_t) (regionEmbeddings : list RegionEmbedding)
    (assignment : list Z) (idx1 idx2 : list nat) (tracks : list (CTrack D)) :
  idx1 ≡ₚ idx2 →
  for_each (update_step s prevFrame currFrame fps regions regionEmbeddings assignment)
           idx1 tracks
  = for_each (update_step s prevFrame currFrame fps regions regionEmbeddings assignment)
             idx2 tracks.
Proof.
  intros Hp. eapply for_each_perm; [apply update_step_pointwise | done].
Qed.

(** Under the solver's contract, and with one descriptor per region, the
    update loop does not fail: the tracks that have an assignment slot are
    updated according to it, the others (the newborn ones) are not
    touched. *)
Lemma update_loop_eq (s : TrackerSettings) (prevFrame currFrame : cv.UMat)
    (fps : track_t) (regions : regions_t) (regionEmbeddings : list RegionEmbedding)
    (pairs : list (CTrack D * Z)) (born_now : list (CTrack D)) :
  length regionEmbeddings = length regions →
  (∀ p, p ∈ pairs → p.2 = (-1)%Z ∨ (0 ≤ p.2 < Z.of_nat (length regions))%Z) →
  for_range (update_step s prevFrame currFrame fps regions regionEmbeddings pairs.*2)
            (length pairs.*2) (pairs.*1 ++ born_now)
  = Some (((λ p, updated_track s prevFrame currFrame fps regions regionEmbeddings
                               p.2 p.1) <$> pairs) ++ born_now).
Proof.
  intros Hemb Hwf. rewrite length_fmap.
  rewrite (for_range_pointwise _
             (update_slot s prevFrame currFrame fps regions regionEmbeddings pairs.*2)).
  - f_equal. apply list_eq. intros k. rewrite list_lookup_imap.
    destruct (decide (k < length pairs)) as [Hk|Hk].
    + destruct (lookup_lt_is_Some_2 pairs k Hk) as [[tr a] Ep].
      rewrite !lookup_app_l by (by rewrite length_fmap).
      rewrite !list_lookup_fmap, Ep. simpl.
      unfold update_slot. by rewrite list_lookup_fmap, Ep.
    + rewrite !lookup_app_r by (rewrite length_fmap; lia).
      rewrite !length_fmap. by destruct (born_now !! (k - length pairs)).
  - intros i v' Hi. rewrite update_step_pointwise.
    destruct (lookup_lt_is_Some_2 pairs i Hi) as [[tr a] Ep].
    unfold update_ok. rewrite list_lookup_fmap, Ep. simpl.
    destruct (Hwf (tr, a)) as [Ha|Ha]; [by eapply list_elem_of_lookup_2|..];
      simpl in Ha.
    + subst a. done.
    + rewrite (proj2 (Z.eqb_neq a (-1))) by lia. simpl.
      rewrite vec_empty_false by lia.
      rewrite !bool_decide_eq_true_2; [done|..];
        apply lookupZ_is_Some; lia.
  - rewrite length_app, length_fmap. lia.
Qed.

(** ** One frame *)

Lemma gate_pairs_lookup (s : TrackerSettings) (cm : list Q)
    (tracks : list (CTrack D)) (assignment : list Z) (i : nat) :
  gate_pairs s cm tracks assignment !! i
  = (tr ← tracks !! i; a ← assignment !! i;
     Some (gate_track s cm (length tracks) i a tr,
           gate_assignment s cm (length tracks) i a)).
Proof.
  unfold gate_pairs. rewrite list_lookup_imap, lookup_zip_with.
  destruct (tracks !! i); simpl; [|done]. by destruct (assignment !! i).
Qed.

Lemma gate_pairs_wf (s : TrackerSettings) (cm : list Q) (M : nat)
    (tracks : list (CTrack D)) (assignment : list Z) (p : CTrack D * Z) :
  assignment_wf (length tracks) M assignment →
  p ∈ gate_pairs s cm tracks assignment →
  p.2 = (-1)%Z ∨ (0 ≤ p.2 < Z.of_nat M)%Z.
Proof.
  intros [_ Hwf] [i Ei]%list_elem_of_lookup_1.
  rewrite gate_pairs_lookup in Ei.
  destruct (tracks !! i) as [tr|]; simpl in Ei; [|done].
  destruct (assignment !! i) as [a|] eqn:Ea; simpl in Ei; [|done].
  injection Ei as <-. simpl. unfold gate_assignment.
  destruct (voided _ _ _ _ _); [by left | by eapply Hwf].
Qed.

Lemma survivors_elem (s : TrackerSettings) (fps : track_t)
    (pairs : list (CTrack D * Z)) (p : CTrack D * Z) :
  p ∈ survivors s fps pairs ↔ retire_cond s fps p.1 = false ∧ p ∈ pairs.
Proof.
  unfold survivors.
  apply (list_elem_of_filter (λ q : CTrack D * Z, retire_cond s fps q.1 = false)).
Qed.

(** With the members of the tracker in order and the solver's contract, the
    guarded block does not fail. *)
Lemma associate_eq (t : CTracker D) (regions : regions_t)
    (regionEmbeddings : list RegionEmbedding) (currFrame : cv.UMat) (fps : track_t) :
  solver_contract → is_Some (m_SPCalculator t) →
  length regionEmbeddings = length regions →
  ∃ cm solved,
    solve_frame t regions regionEmbeddings currFrame = Some (cm, solved)
    ∧ length cm = length (m_tracks t) * length regions
    ∧ assignment_wf (length (m_tracks t)) (length regions) solved
    ∧ (∀ i j, i < length (m_tracks t) → j < length regions →
         cm !! (i + j * length (m_tracks t))
         = cost_at (m_settings t) (m_tracks t) regions regionEmbeddings
                   (max_possible_cost currFrame) i j)
    ∧ associate t regions regionEmbeddings currFrame fps
        (replicate (length (m_tracks t)) (-1)%Z)
      = Some ((survivors (m_settings t) fps
                 (gate_pairs (m_settings t) cm (m_tracks t) solved)).*1,
              (survivors (m_settings t) fps
                 (gate_pairs (m_settings t) cm (m_tracks t) solved)).*2).
Proof.
  intros Hsolver [sp Esp] Hemb.
  destruct (CreateDistaceMatrix_eq t regions regionEmbeddings
              (max_possible_cost currFrame) 0%Q Hemb)
    as (cm & mc & Ecm & Hlen & Hcost).
  pose proof (Hsolver sp cm (length (m_tracks t)) (length regions)
                (replicate (length (m_tracks t)) (-1)%Z) mc
                (length_replicate _ _)) as Hwf.
  eexists cm, _. unfold solve_frame, associate. rewrite Ecm, Esp. simpl.
  split; [reflexivity|]. split; [done|]. split; [done|]. split; [done|].
  rewrite (gating_loop_eq _ _ (length regions)) by done. simpl.
  apply retire_loop_eq.
Qed.

(** The closed form of [UpdateTrackingState]: for every schedule of the
    parallel loop it returns [next_state]. *)
Lemma UpdateTrackingState_sched_eq (sched : nat → list nat) (t : CTracker D)
    (regions : regions_t) (currFrame : cv.UMat) (fps : track_t) :
  solver_contract → is_Some (m_SPCalculator t) → schedule sched →
  ∃ kept,
    kept_pairs t regions currFrame fps = Some kept
    ∧ (∀ p, p ∈ kept → p.2 = (-1)%Z ∨ (0 ≤ p.2 < Z.of_nat (length regions))%Z)
    ∧ UpdateTrackingState_sched sched t regions currFrame fps
      = Some (next_state t regions currFrame fps kept).
Proof.
  intros Hsolver Hsp Hsched.
  unfold UpdateTrackingState_sched, kept_pairs.
  rewrite CalcEmbeddins_eq. simpl.
  set (embs := region_embedding t currFrame <$> regions).
  assert (length embs = length regions) as Hemb by apply length_fmap.
  assert (∃ kept,
    (if vec_empty (m_tracks t) then Some []
     else '(cm, solved) ← solve_frame t regions embs currFrame;
          Some (survivors (m_settings t) fps
                  (gate_pairs (m_settings t) cm (m_tracks t) solved))) = Some kept
    ∧ (∀ p, p ∈ kept → p.2 = (-1)%Z ∨ (0 ≤ p.2 < Z.of_nat (length regions))%Z)
    ∧ (if negb (vec_empty (m_tracks t))
       then associate t regions embs currFrame fps
              (replicate (length (m_tracks t)) (-1)%Z)
       else Some (m_tracks t, replicate (length (m_tracks t)) (-1)%Z))
      = Some (kept.*1, kept.*2)) as (kept & -> & Hwf & ->).
  { destruct (m_tracks t) as [|t0 ts] eqn:Et.
    - exists []. simpl. split; [done|]. split; [|done].
      intros p Hp. by apply elem_of_nil in Hp.
    - rewrite <- Et. replace (vec_empty (m_tracks t)) with false by (by rewrite Et).
      destruct (associate_eq t regions embs currFrame fps Hsolver Hsp Hemb)
        as (cm & solved & -> & Hlen & Hwf & _ & ->). simpl.
      eexists. split; [reflexivity|]. split; [|done].
      intros p [_ Hp]%survivors_elem. by eapply gate_pairs_wf. }
  exists kept. split; [done|]. split; [done|]. simpl.
  rewrite birth_loop_eq by done. simpl.
  rewrite (update_loop_perm _ _ _ _ _ _ _ _ (seq 0 (length kept.*2)))
    by apply Hsched.
  pose proof (update_loop_eq (m_settings t) (m_prevFrame t) currFrame fps regions
                embs kept
                (newborns (m_settings t) (m_nextTrackID t)
                   (unassigned kept.*2 (zip regions embs))) Hemb Hwf) as Hupd.
  unfold for_range in Hupd. rewrite Hupd. done.
Qed.

(** ** Independence of the schedule *)

Lemma UpdateTrackingState_sched_indep (sched1 sched2 : nat → list nat)
    (t : CTracker D) (regions : regions_t) (currFrame : cv.UMat) (fps : track_t) :
  schedule sched1 → schedule sched2 →
  UpdateTrackingState_sched sched1 t regions currFrame fps
  = UpdateTrackingState_sched sched2 t regions currFrame fps.
Proof.
  intros H1 H2. unfold UpdateTrackingState_sched.
  destruct (CalcEmbeddins t [] regions currFrame) as [embs|]; simpl; [|done].
  destruct (if negb (vec_empty (m_tracks t)) then _ else _)
    as [[tracks assignment]|]; simpl; [|done].
  destruct (for_range _ _ _) as [[tracks' nextID]|]; simpl; [|done].
  rewrite (update_loop_perm _ _ _ _ _ _ _ (sched1 (length assignment))
             (sched2 (length assignment))); [done|].
  by rewrite (H1 (length assignment)), (H2 (length assignment)).
Qed.

Lemma Update_sched_indep (sched1 sched2 : nat → list nat)
    (t : CTracker D) (regions : regions_t) (currFrame : cv.UMat) (fps : track_t) :
  schedule sched1 → schedule sched2 →
  Update_sched sched1 t regions currFrame fps
  = Update_sched sched2 t regions currFrame fps.
Proof.
  intros H1 H2. unfold Update_sched.
  by rewrite (UpdateTrackingState_sched_indep sched1 sched2).
Qed.

Lemma schedule_seq : schedule (seq 0).
Proof. by intros n. Qed.

(** The closed form of [Update]. *)
Lemma Update_sched_eq (sched : nat → list nat) (t : CTracker D)
    (regions : regions_t) (currFrame : cv.UMat) (fps : track_t) :
  solver_contract → is_Some (m_SPCalculator t) → schedule sched →
  ∃ kept,
    kept_pairs t regions currFrame fps = Some kept
    ∧ (∀ p, p ∈ kept → p.2 = (-1)%Z ∨ (0 ≤ p.2 < Z.of_nat (length regions))%Z)
    ∧ Update_sched sched t regions currFrame fps
      = Some (set_prevFrame currFrame (next_state t regions currFrame fps kept)).
Proof.
  intros Hsolver Hsp Hsched.
  destruct (UpdateTrackingState_sched_eq sched t regions currFrame fps
              Hsolver Hsp Hsched) as (kept & Ek & Hwf & E).
  exists kept. split; [done|]. split; [done|].
  unfold Update_sched. by rewrite E.
Qed.

(** ** Identifiers *)

Lemma updated_track_id (s : TrackerSettings) (prevFrame currFrame : cv.UMat)
    (fps : track_t) (regions : regions_t) (regionEmbeddings : list RegionEmbedding)
    (a : Z) (track : CTrack D) :
  track_id_contract →
  m_trackID (updated_track s prevFrame currFrame fps regions regionEmbeddings a track)
  = m_trackID track.
Proof.
  intros (_ & _ & Hu & Hue). unfold updated_track.
  destruct (negb (a =? -1)%Z); [|by rewrite Hu].
  destruct (vec_empty regionEmbeddings).
  - destruct (lookupZ regions a); [by rewrite Hu | done].
  - destruct (lookupZ regions a); [|done].
    destruct (lookupZ regionEmbeddings a); [by rewrite Hue | done].
Qed.

Lemma newborns_ids (s : TrackerSettings) (id : nat)
    (unb : list (nat * (CRegion * RegionEmbedding))) :
  track_id_contract →
  m_trackID <$> newborns s id unb = seq id (length unb).
Proof.
  intros (_ & Hn & _). unfold newborns. rewrite fmap_imap.
  transitivity (imap (λ (j : nat) (_ : nat * (CRegion * RegionEmbedding)), id + j) unb).
  - apply imap_ext. intros k p _. simpl. unfold born. by rewrite Hn.
  - rewrite (imap_seq unb (λ k, k) id). apply list_fmap_id.
Qed.

Lemma gate_pairs_ids (s : TrackerSettings) (cm : list Q)
    (tracks : list (CTrack D)) (assignment : list Z) :
  length assignment = length tracks →
  (m_trackID ∘ fst) <$> gate_pairs s cm tracks assignment = m_trackID <$> tracks.
Proof.
  intros Hlen. apply list_eq. intros i.
  rewrite !list_lookup_fmap, gate_pairs_lookup.
  destruct (tracks !! i) as [tr|] eqn:Et; simpl; [|done].
  destruct (lookup_lt_is_Some_2 assignment i) as [a Ea];
    [apply lookup_lt_Some in Et; lia|].
  rewrite Ea. simpl. unfold gate_track. by destruct (voided _ _ _ _ _).
Qed.

(** The pairs kept for a frame are a sub-sequence of the gated pairs of the
    old tracks, so their identifiers are a sub-sequence of the old ones. *)
Lemma kept_pairs_ids (t : CTracker D) (regions : regions_t) (currFrame : cv.UMat)
    (fps : track_t) (kept : list (CTrack D * Z)) :
  solver_contract →
  kept_pairs t regions currFrame fps = Some kept →
  (m_trackID ∘ fst) <$> kept `sublist_of` ids t.
Proof.
  intros Hsolver. unfold kept_pairs, ids.
  destruct (vec_empty (m_tracks t)); [intros [= <-]; apply sublist_nil_l|].
  unfold solve_frame.
  destruct (CreateDistaceMatrix _ _ _ _ _ _) as [[cm mc]|]; simpl; [|done].
  destruct (m_SPCalculator t) as [sp|]; simpl; [|done].
  intros [= <-].
  rewrite <- (gate_pairs_ids (m_settings t) cm (m_tracks t)
                (Solve sp cm (length (m_tracks t)) (length regions)
                   (replicate (length (m_tracks t)) (-1)%Z) mc)).
  - apply fmap_sublist. unfold survivors. apply sublist_filter.
  - apply Hsolver, length_replicate.
Qed.

Lemma next_state_ids (t : CTracker D) (regions : regions_t) (currFrame : cv.UMat)
    (fps : track_t) (kept : list (CTrack D * Z)) :
  track_id_contract →
  ids (next_state t regions currFrame fps kept)
  = ((m_trackID ∘ fst) <$> kept)
    ++ seq (m_nextTrackID t) (length (unassigned_now t regions currFrame kept)).
Proof.
  intros Hid. unfold ids, next_state. simpl.
  rewrite fmap_app, newborns_ids by done. f_equal.
  rewrite <- list_fmap_compose. apply list_fmap_ext. intros i [tr a] _. simpl.
  by apply updated_track_id.
Qed.

(** One frame preserves the invariant on identifiers; the identifiers after
    the frame are old ones or at least the old counter. *)
Lemma next_state_ids_ok (t : CTracker D) (regions : regions_t) (currFrame : cv.UMat)
    (fps : track_t) (kept : list (CTrack D * Z)) :
  track_id_contract → solver_contract →
  kept_pairs t regions currFrame fps = Some kept →
  ids_ok t → ids_ok (next_state t regions currFrame fps kept).
Proof.
  intros Hid Hsolver Ek [Hnd Hlt].
  pose proof (kept_pairs_ids _ _ _ _ _ Hsolver Ek) as Hsub.
  unfold ids_ok. rewrite next_state_ids by done. simpl. split.
  - apply NoDup_app. split; [by eapply sublist_NoDup|]. split; [|apply NoDup_seq].
    intros id Hin Hseq. apply elem_of_seq in Hseq.
    pose proof (Hlt id (elem_of_sublist _ _ _ Hin Hsub)). lia.
  - intros id [Hin|Hin]%elem_of_app.
    + pose proof (Hlt id (elem_of_sublist _ _ _ Hin Hsub)). lia.
    + apply elem_of_seq in Hin. lia.
Qed.

Lemma set_prevFrame_ids (f : cv.UMat) (t : CTracker D) :
  ids (set_prevFrame f t) = ids t.
Proof. done. Qed.

(** What holds of every state of a tracker: the solver is there, the
    settings are the ones given at construction, and identifiers are
    distinct and below the counter. *)
Lemma reachable_ok (settings : TrackerSettings) (t : CTracker D) :
  track_id_contract → solver_contract →
  reachable settings t →
  ids_ok t ∧ is_Some (m_SPCalculator t) ∧ m_settings t = settings.
Proof.
  intros Hid Hsolver Hr.
  induction Hr as [t E|sched t regions currFrame fps t' Hr IH Hsched E].
  - destruct (CTracker_new_eq settings) as (t0 & E0 & Hs & Ht & Hn & _ & Hsp & _).
    rewrite E0 in E. injection E as <-.
    split; [|by split]. unfold ids_ok, ids. rewrite Ht. simpl.
    split; [apply NoDup_nil_2 | intros id Hin; by apply elem_of_nil in Hin].
  - destruct IH as (Hok & Hsp & Hs).
    destruct (Update_sched_eq sched t regions currFrame fps Hsolver Hsp Hsched)
      as (kept & Ek & _ & E').
    rewrite E' in E. injection E as <-.
    split; [|by split].
    by apply (next_state_ids_ok t regions currFrame fps kept).
Qed.

(** Over any number of frames the counter does not decrease, and an
    identifier of a later state is an old live one or was issued since. *)
Lemma later_ids (t t' : CTracker D) :
  track_id_contract → solver_contract →
  is_Some (m_SPCalculator t) →
  later t t' →
  is_Some (m_SPCalculator t')
  ∧ m_nextTrackID t ≤ m_nextTrackID t'
  ∧ ∀ id, id ∈ ids t' → id ∈ ids t ∨ m_nextTrackID t ≤ id.
Proof.
  intros Hid Hsolver Hsp Hl.
  induction Hl as [|sched t1 regions currFrame fps t2 Hl IH Hsched E].
  - split; [done|]. split; [lia | by left].
  - destruct IH as (Hsp1 & Hle & Hin1).
    destruct (Update_sched_eq sched t1 regions currFrame fps Hsolver Hsp1 Hsched)
      as (kept & Ek & _ & E').
    rewrite E' in E. injection E as <-.
    split; [done|]. split; [simpl; lia|].
    intros id. rewrite set_prevFrame_ids, next_state_ids by done.
    intros [Hin|Hin]%elem_of_app.
    + apply Hin1. eapply elem_of_sublist; [done|]. by eapply kept_pairs_ids.
    + apply elem_of_seq in Hin. right. lia.
Qed.

(** ** The unassigned regions *)

Lemma not_found_spec (assignment : list Z) (j : nat) :
  not_found assignment j = true ↔ Z.of_nat j ∉ assignment.
Proof.
  unfold not_found. rewrite negb_true_iff, <- not_true_iff_false, existsb_exists.
  split.
  - intros Hn Hin. apply Hn. exists (Z.of_nat j).
    split; [by apply list_elem_of_In | apply Z.eqb_refl].
  - intros Hn (a & Hin & Ea). apply Z.eqb_eq in Ea. subst a.
    by apply Hn, list_elem_of_In.
Qed.

Lemma unassigned_fst_gen (assignment : list Z)
    (described : list (CRegion * RegionEmbedding)) (n : nat) :
  (filter (λ p : nat * (CRegion * RegionEmbedding), not_found assignment p.1 = true)
          (imap (λ j d, (n + j, d)) described)).*1
  = filter (λ j, not_found assignment j = true) (seq n (length described)).
Proof.
  revert n. induction described as [|d described IH]; intros n; [done|].
  rewrite imap_cons. simpl seq. rewrite !filter_cons. simpl.
  rewrite Nat.add_0_r.
  assert (imap ((λ j d0, (n + j, d0)) ∘ S) described
          = imap (λ j d0, (S n + j, d0)) described) as ->.
  { apply imap_ext. intros j x _. simpl. f_equal. lia. }
  destruct (decide (not_found assignment n = true));
    rewrite ?fmap_cons, (IH (S n)); done.
Qed.

(** The indices of the unassigned regions, in increasing order. *)
Lemma unassigned_fst (assignment : list Z)
    (described : list (CRegion * RegionEmbedding)) :
  (unassigned assignment described).*1
  = filter (λ j, Z.of_nat j ∉ assignment) (seq 0 (length described)).
Proof.
  unfold unassigned.
  etrans; [exact (unassigned_fst_gen assignment described 0)|].
  apply list_filter_iff. intros j. apply not_found_spec.
Qed.

Lemma unassigned_lookup (assignment : list Z)
    (described : list (CRegion * RegionEmbedding)) (k j : nat)
    (d : CRegion * RegionEmbedding) :
  unassigned assignment described !! k = Some (j, d) → described !! j = Some d.
Proof.
  intros Hk%list_elem_of_lookup_2. unfold unassigned in Hk.
  apply list_elem_of_filter in Hk as [_ Hin].
  apply list_elem_of_lookup_1 in Hin as [i Ei].
  rewrite list_lookup_imap in Ei.
  destruct (described !! i) as [d'|] eqn:Ed; simpl in Ei; [|done].
  by injection Ei as <- <-.
Qed.

(** The [k]-th newborn track of a frame: built from the [k]-th unassigned
    region and its descriptor, with the counter's value at that moment. *)
Lemma newborns_lookup (t : CTracker D) (regions : regions_t) (currFrame : cv.UMat)
    (kept : list (CTrack D * Z)) (k j : nat) :
  filter (λ j, Z.of_nat j ∉ kept.*2) (seq 0 (length regions)) !! k = Some j →
  ∃ reg, regions !! j = Some reg
    ∧ newborns (m_settings t) (m_nextTrackID t)
               (unassigned_now t regions currFrame kept) !! k
      = Some (born (m_settings t) reg (region_embedding t currFrame reg)
                   (m_nextTrackID t + k)).
Proof.
  intros Hk. unfold unassigned_now.
  set (described := zip regions (region_embedding t currFrame <$> regions)).
  assert (length described = length regions) as Hlen
    by (unfold described; rewrite length_zip_with, length_fmap; lia).
  rewrite <- Hlen, <- unassigned_fst in Hk.
  rewrite list_lookup_fmap in Hk.
  destruct (unassigned kept.*2 described !! k) as [[j' [reg e]]|] eqn:Eu;
    simpl in Hk; [|done].
  injection Hk as ->.
  pose proof (unassigned_lookup _ _ _ _ _ Eu) as Ed.
  unfold described in Ed. rewrite lookup_zip_with, list_lookup_fmap in Ed.
  destruct (regions !! j) as [reg'|] eqn:Er; simpl in Ed; [|done].
  injection Ed as <- <-.
  exists reg'. split; [done|].
  unfold newborns. by rewrite list_lookup_imap, Eu.
Qed.

Lemma unassigned_now_length (t : CTracker D) (regions : regions_t)
    (currFrame : cv.UMat) (kept : list (CTrack D * Z)) :
  length (unassigned_now t regions currFrame kept)
  = length (filter (λ j, Z.of_nat j ∉ kept.*2) (seq 0 (length regions))).
Proof.
  unfold unassigned_now.
  rewrite <- (length_fmap fst), unassigned_fst, length_zip_with, length_fmap.
  by rewrite Nat.min_id.
Qed.

(** ** Gating, slot by slot *)

Lemma voided_assigned (s : TrackerSettings) (cm : list Q) (N i j : nat) (c : Q) :
  cm !! (i + j * N) = Some c →
  voided s cm N i (Z.of_nat j) = Qgtb c (m_distThres s).
Proof.
  intros Ec. unfold voided. rewrite lookupZ_index, Ec.
  by rewrite (proj2 (Z.eqb_neq (Z.of_nat j) (-1))) by lia.
Qed.

Lemma wf_entry (N M : nat) (assignment : list Z) (i : nat) (a : Z) :
  assignment_wf N M assignment → assignment !! i = Some a →
  i < N ∧ (a = (-1)%Z ∨ ∃ j, a = Z.of_nat j ∧ j < M).
Proof.
  intros [Hlen Hwf] Ea. split; [apply lookup_lt_Some in Ea; lia|].
  destruct (Hwf i a Ea) as [->|Ha]; [by left|].
  right. exists (Z.to_nat a). split; lia.
Qed.

(** ** The claims *)

(** Given a cost matrix of [N * M] entries and an assignment vector that
    meets the solver's contract, the gating loop returns a result, and in
    it: a slot that still names region [j] is the slot the solver filled,
    its track is untouched and the cost [cost[i + j * N]] is at most
    [m_distThres]; a slot whose cost exceeds [m_distThres] is set to [-1]
    and its track's skipped-frames counter incremented by one; a slot the
    solver left at [-1] stays so and its track's counter is incremented by
    one. *)
Lemma gating_loop_spec (s : TrackerSettings) (cm : list Q) (M : nat)
    (assignment : list Z) (tracks : list (CTrack D)) :
  length cm = length tracks * M →
  assignment_wf (length tracks) M assignment →
  ∃ assignment' tracks',
    for_range (gating_step s cm (length tracks)) (length assignment)
              (assignment, tracks) = Some (assignment', tracks')
    ∧ length assignment' = length tracks ∧ length tracks' = length tracks
    ∧ (∀ i j, assignment' !! i = Some (Z.of_nat j) →
         assignment !! i = Some (Z.of_nat j)
         ∧ tracks' !! i = tracks !! i
         ∧ ∃ c, cm !! (i + j * length tracks) = Some c ∧ (c <= m_distThres s)%Q)
    ∧ (∀ i j c tr, assignment !! i = Some (Z.of_nat j) →
         cm !! (i + j * length tracks) = Some c → (m_distThres s < c)%Q →
         tracks !! i = Some tr →
         assignment' !! i = Some (-1)%Z
         ∧ tracks' !! i = Some (set_SkippedFrames (S (m_skippedFrames tr)) tr))
    ∧ (∀ i tr, assignment !! i = Some (-1)%Z → tracks !! i = Some tr →
         assignment' !! i = Some (-1)%Z
         ∧ tracks' !! i = Some (set_SkippedFrames (S (m_skippedFrames tr)) tr)).
Proof.
  intros Hcm Hwf.
  eexists _, _. split; [by apply (gating_loop_eq s cm M)|].
  assert (length (gate_pairs s cm tracks assignment) = length tracks) as Hlen.
  { unfold gate_pairs. rewrite length_imap, length_zip_with.
    destruct Hwf as [-> _]. lia. }
  rewrite !length_fmap. split; [done|]. split; [done|].
  assert (∀ i a tr, assignment !! i = Some a → tracks !! i = Some tr →
            (gate_pairs s cm tracks assignment).*2 !! i
            = Some (gate_assignment s cm (length tracks) i a)
            ∧ (gate_pairs s cm tracks assignment).*1 !! i
              = Some (gate_track s cm (length tracks) i a tr)) as Hslot.
  { intros i a tr Ea Et.
    rewrite !list_lookup_fmap, gate_pairs_lookup, Et, Ea. done. }
  assert (∀ i j, i < length tracks → j < M →
            is_Some (cm !! (i + j * length tracks))) as Hcost.
  { intros i j Hi Hj. apply lookup_lt_is_Some_2. rewrite Hcm. by apply index_lt. }
  split; [|split].
  - intros i j Ei.
    rewrite list_lookup_fmap, gate_pairs_lookup in Ei.
    destruct (tracks !! i) as [tr|] eqn:Et; simpl in Ei; [|done].
    destruct (assignment !! i) as [a|] eqn:Ea; simpl in Ei; [|done].
    injection Ei as Ei. unfold gate_assignment in Ei.
    destruct (voided s cm (length tracks) i a) eqn:Ev; [lia|]. subst a.
    destruct (wf_entry _ _ _ _ _ Hwf Ea) as [Hi [?|(j' & Hj' & HjM)]]; [lia|].
    apply Nat2Z.inj in Hj'. subst j'.
    destruct (Hcost i j Hi HjM) as [c Ec].
    rewrite (voided_assigned _ _ _ _ _ c Ec) in Ev. apply Qgtb_false in Ev.
    split; [done|]. split; [|by exists c].
    destruct (Hslot i (Z.of_nat j) tr Ea Et) as [_ ->].
    unfold gate_track. rewrite (voided_assigned _ _ _ _ _ c Ec).
    by rewrite (proj2 (Qgtb_false _ _) Ev).
  - intros i j c tr Ea Ec Hc Et.
    destruct (Hslot i (Z.of_nat j) tr Ea Et) as [-> ->].
    unfold gate_assignment, gate_track.
    rewrite (voided_assigned _ _ _ _ _ c Ec), (proj2 (Qgtb_true _ _) Hc). done.
  - intros i tr Ea Et.
    destruct (Hslot i (-1)%Z tr Ea Et) as [-> ->]. done.
Qed.

Lemma NoDup_fmap_elem_inj {A B : Type} (f : A → B) (l : list A) (x y : A) :
  NoDup (f <$> l) → x ∈ l → y ∈ l → f x = f y → x = y.
Proof.
  induction l as [|z l IH]; intros Hnd Hx Hy Hf; [by apply elem_of_nil in Hx|].
  rewrite fmap_cons in Hnd. apply NoDup_cons in Hnd as [Hz Hnd].
  apply elem_of_cons in Hx as [->|Hx]; apply elem_of_cons in Hy as [->|Hy].
  - done.
  - exfalso. apply Hz. rewrite Hf. by apply list_elem_of_fmap_2.
  - exfalso. apply Hz. rewrite <- Hf. by apply list_elem_of_fmap_2.
  - by apply IH.
Qed.

(** The pairs kept for a frame, in terms of the frame's cost matrix and the
    solver's answer. *)
Lemma kept_pairs_eq (t : CTracker D) (regions : regions_t) (currFrame : cv.UMat)
    (fps : track_t) :
  solver_contract → is_Some (m_SPCalculator t) →
  ∃ cm solved,
    solve_frame t regions (region_embedding t currFrame <$> regions) currFrame
    = Some (cm, solved)
    ∧ length cm = length (m_tracks t) * length regions
    ∧ assignment_wf (length (m_tracks t)) (length regions) solved
    ∧ (∀ i j, i < length (m_tracks t) → j < length regions →
         cm !! (i + j * length (m_tracks t))
         = cost_at (m_settings t) (m_tracks t) regions
                   (region_embedding t currFrame <$> regions)
                   (max_possible_cost currFrame) i j)
    ∧ kept_pairs t regions currFrame fps
      = Some (survivors (m_settings t) fps
                (gate_pairs (m_settings t) cm (m_tracks t) solved)).
Proof.
  intros Hsolver Hsp.
  destruct (associate_eq t regions (region_embedding t currFrame <$> regions)
              currFrame fps Hsolver Hsp (length_fmap _ _))
    as (cm & solved & E & Hlen & Hwf & Hcost & _).
  exists cm, solved. repeat (split; [done|]).
  unfold kept_pairs. rewrite E. simpl.
  by destruct (m_tracks t).
Qed.

(** The pairs kept for a frame are the two vectors that the guarded block of
    [UpdateTrackingState] leaves. *)
Lemma kept_pairs_code (t : CTracker D) (regions : regions_t) (currFrame : cv.UMat)
    (fps : track_t) (kept : list (CTrack D * Z)) :
  solver_contract → is_Some (m_SPCalculator t) →
  kept_pairs t regions currFrame fps = Some kept →
  (m_tracks t = [] → kept = [])
  ∧ (m_tracks t ≠ [] →
     associate t regions (region_embedding t currFrame <$> regions) currFrame fps
               (replicate (length (m_tracks t)) (-1)%Z)
     = Some (kept.*1, kept.*2)).
Proof.
  intros Hsolver Hsp Ek. split.
  - intros Ht. unfold kept_pairs in Ek. rewrite Ht in Ek. simpl in Ek. congruence.
  - intros Hne.
    destruct (associate_eq t regions (region_embedding t currFrame <$> regions)
                currFrame fps Hsolver Hsp (length_fmap _ _))
      as (cm & solved & E & _ & _ & _ & Ea).
    unfold kept_pairs in Ek. rewrite E in Ek. simpl in Ek.
    assert (vec_empty (m_tracks t) = false) as Hv by (by destruct (m_tracks t)).
    rewrite Hv in Ek. injection Ek as <-. exact Ea.
Qed.

(** C2. Removal. The removal loop erases a track exactly when its
    skipped-frames counter exceeds [m_maximumAllowedSkippedFrames], or it is
    out of the frame, or it has been static for
    [cvRound (fps * (m_maxStaticTime - m_minStaticTime))] frames; it erases
    the assignment slot with the same index in the same iteration, so that
    the vectors that come out are the kept tracks and their own slots, in
    order; and after [Update] the identifier of every erased track is gone
    from the tracker, that of every other old track is still there. *)
Theorem C2_retirement (sched : nat → list nat) (t : CTracker D)
    (regions : regions_t) (currFrame : cv.UMat) (fps : track_t) :
  track_id_contract → solver_contract → schedule sched →
  is_Some (m_SPCalculator t) → ids_ok t →
  (∀ tr, retire_cond (m_settings t) fps tr = true
         ↔ (m_maximumAllowedSkippedFrames (m_settings t) < m_skippedFrames tr
            ∨ IsOutOfTheFrame tr = true
            ∨ IsStaticTimeout tr
                (cvRound (fps * inject_Z (m_maxStaticTime (m_settings t)
                                          - m_minStaticTime (m_settings t))))
              = true))
  ∧ (∀ (tracks : list (CTrack D)) (assignment : list Z),
       length tracks = length assignment →
       ∃ tracks' assignment',
         retire_loop (m_settings t) fps (S (length tracks)) 0 tracks assignment
         = Some (tracks', assignment')
         ∧ length tracks' = length assignment'
         ∧ zip tracks' assignment'
           = filter (λ p, retire_cond (m_settings t) fps p.1 = false)
                    (zip tracks assignment))
  ∧ ∃ cm solved t',
      solve_frame t regions (region_embedding t currFrame <$> regions) currFrame
      = Some (cm, solved)
      ∧ Update_sched sched t regions currFrame fps = Some t'
      ∧ ∀ tr a, (tr, a) ∈ gate_pairs (m_settings t) cm (m_tracks t) solved →
          (retire_cond (m_settings t) fps tr = true → m_trackID tr ∉ ids t')
          ∧ (retire_cond (m_settings t) fps tr = false → m_trackID tr ∈ ids t').
Proof.
  intros Hid Hsolver Hsched Hsp [Hnd Hlt]. split; [|split].
  - intros tr. unfold retire_cond. rewrite !orb_true_iff, Nat.ltb_lt. tauto.
  - intros tracks assignment Hlen.
    pose proof (retire_loop_eq (m_settings t) fps (zip tracks assignment)) as E.
    rewrite fst_zip, snd_zip in E by lia.
    eexists _, _. split; [exact E|]. rewrite !length_fmap. split; [done|].
    apply zip_fst_snd.
  - destruct (kept_pairs_eq t regions currFrame fps Hsolver Hsp)
      as (cm & solved & E & Hlen & Hwf & _ & Ek).
    destruct (Update_sched_eq sched t regions currFrame fps Hsolver Hsp Hsched)
      as (kept & Ek' & _ & EU).
    rewrite Ek in Ek'. injection Ek' as <-.
    eexists cm, solved, _. split; [done|]. split; [exact EU|].
    intros tr a Hin. rewrite set_prevFrame_ids, next_state_ids by done.
    pose proof (gate_pairs_ids (m_settings t) cm (m_tracks t) solved
                  (proj1 Hwf)) as Hids.
    split.
    + intros Hc [Hk|Hk]%elem_of_app.
      * apply list_elem_of_fmap in Hk as ([tr' a'] & Heq & Hk). simpl in Heq.
        apply survivors_elem in Hk as [Hc' Hk]. simpl in Hc'.
        assert ((tr, a) = (tr', a')) as Hsame.
        { apply (NoDup_fmap_elem_inj (m_trackID ∘ fst)
                   (gate_pairs (m_settings t) cm (m_tracks t) solved));
            [by rewrite Hids|done|done|done]. }
        injection Hsame as -> ->. congruence.
      * apply elem_of_seq in Hk.
        assert (m_trackID tr ∈ ids t) as Hold.
        { unfold ids. rewrite <- Hids.
          by apply (list_elem_of_fmap_2 (m_trackID ∘ fst) _ (tr, a)). }
        apply Hlt in Hold. lia.
    + intros Hc. apply elem_of_app. left.
      apply (list_elem_of_fmap_2 (m_trackID ∘ fst) _ (tr, a)).
      by apply survivors_elem.
Qed.

Lemma updated_track_assigned (s : TrackerSettings) (prevFrame currFrame : cv.UMat)
    (fps : track_t) (regions : regions_t) (regionEmbeddings : list RegionEmbedding)
    (j : nat) (tr : CTrack D) (reg : CRegion) (emb : RegionEmbedding) :
  regions !! j = Some reg → regionEmbeddings !! j = Some emb →
  updated_track s prevFrame currFrame fps regions regionEmbeddings (Z.of_nat j) tr
  = Track_Update_emb (set_SkippedFrames 0 tr) reg emb true (m_maxTraceLength s)
                     prevFrame currFrame (traj_len s fps) (m_maxSpeedForStatic s).
Proof.
  intros Er Ee. unfold updated_track.
  rewrite (proj2 (Z.eqb_neq (Z.of_nat j) (-1))) by lia. simpl.
  rewrite vec_empty_false by (apply lookup_lt_Some in Ee; lia).
  by rewrite !lookupZ_nat, Er, Ee.
Qed.

(** A pair that leaves the guarded block with a region is a pair of the
    solver's answer that the gating loop did not void and the removal loop
    did not erase. *)
Lemma kept_pair_origin (s : TrackerSettings) (fps : track_t) (cm : list Q)
    (tracks : list (CTrack D)) (solved : list Z) (k : nat) (tr : CTrack D) (j : nat) :
  survivors s fps (gate_pairs s cm tracks solved) !! k = Some (tr, Z.of_nat j) →
  ∃ i, tracks !! i = Some tr ∧ solved !! i = Some (Z.of_nat j)
    ∧ voided s cm (length tracks) i (Z.of_nat j) = false.
Proof.
  intros Hk%list_elem_of_lookup_2. apply survivors_elem in Hk as [_ Hk].
  apply list_elem_of_lookup_1 in Hk as [i Ei]. rewrite gate_pairs_lookup in Ei.
  destruct (tracks !! i) as [tr0|] eqn:Et; simpl in Ei; [|done].
  destruct (solved !! i) as [a|] eqn:Ea; simpl in Ei; [|done].
  unfold gate_track, gate_assignment in Ei.
  destruct (voided s cm (length tracks) i a) eqn:Ev; injection Ei as <- Hj; [lia|].
  subst a. by exists i.
Qed.

(** C1. Gating, as [Update] performs it on a tracker that has tracks. The
    solver's answer [solved] for the cost matrix [cm] of the frame goes
    through the gating loop, which returns the vectors [assignment'] and
    [tracks']: a slot that still names region [j] is the solver's, its track
    is untouched and [cm[i + j * N]] is at most [m_distThres]; a slot whose
    cost exceeds [m_distThres] is set to [-1] and the track's skipped-frames
    counter is incremented by one; a track the solver left at [-1] has its
    counter incremented by one. The removal loop then erases tracks and
    their slots from these vectors, and the update loop runs on what is
    left, [kept]: a track of [kept] whose slot names region [j] is an old
    track that the solver paired with [j] at a cost of at most
    [m_distThres], and it is passed to its [Update] with that region, its
    descriptor and the counter set to 0; a track of [kept] whose slot is
    [-1] is passed to the unassigned [Update] with the counter it has. *)
Theorem C1_gating (sched : nat → list nat) (t : CTracker D)
    (regions : regions_t) (currFrame : cv.UMat) (fps : track_t) :
  solver_contract → schedule sched → is_Some (m_SPCalculator t) →
  m_tracks t ≠ [] →
  let s := m_settings t in
  let N := length (m_tracks t) in
  let embs := region_embedding t currFrame <$> regions in
  ∃ cm solved assignment' tracks' kept t',
    solve_frame t regions embs currFrame = Some (cm, solved)
    ∧ for_range (gating_step s cm N) (length solved) (solved, m_tracks t)
      = Some (assignment', tracks')
    ∧ length assignment' = N ∧ length tracks' = N
    ∧ (∀ i j, assignment' !! i = Some (Z.of_nat j) →
         solved !! i = Some (Z.of_nat j)
         ∧ tracks' !! i = m_tracks t !! i
         ∧ ∃ c, cm !! (i + j * N) = Some c ∧ (c <= m_distThres s)%Q)
    ∧ (∀ i j c tr, solved !! i = Some (Z.of_nat j) →
         cm !! (i + j * N) = Some c → (m_distThres s < c)%Q →
         m_tracks t !! i = Some tr →
         assignment' !! i = Some (-1)%Z
         ∧ tracks' !! i = Some (set_SkippedFrames (S (m_skippedFrames tr)) tr))
    ∧ (∀ i tr, solved !! i = Some (-1)%Z → m_tracks t !! i = Some tr →
         assignment' !! i = Some (-1)%Z
         ∧ tracks' !! i = Some (set_SkippedFrames (S (m_skippedFrames tr)) tr))
    ∧ retire_loop s fps (S (length tracks')) 0 tracks' assignment'
      = Some (kept.*1, kept.*2)
    ∧ kept = filter (λ p, retire_cond s fps p.1 = false) (zip tracks' assignment')
    ∧ associate t regions embs currFrame fps (replicate N (-1)%Z)
      = Some (kept.*1, kept.*2)
    ∧ Update_sched sched t regions currFrame fps = Some t'
    ∧ length kept ≤ length (m_tracks t')
    ∧ (∀ k tr j, kept !! k = Some (tr, Z.of_nat j) →
         (∃ i c, m_tracks t !! i = Some tr ∧ solved !! i = Some (Z.of_nat j)
            ∧ cm !! (i + j * N) = Some c ∧ (c <= m_distThres s)%Q)
         ∧ ∃ reg emb, regions !! j = Some reg ∧ embs !! j = Some emb
             ∧ m_tracks t' !! k
               = Some (Track_Update_emb (set_SkippedFrames 0 tr) reg emb true
                         (m_maxTraceLength s) (m_prevFrame t) currFrame
                         (traj_len s fps) (m_maxSpeedForStatic s)))
    ∧ (∀ k tr, kept !! k = Some (tr, (-1)%Z) →
         m_tracks t' !! k
         = Some (Track_Update tr CRegion_default false (m_maxTraceLength s)
                   (m_prevFrame t) currFrame 0 (m_maxSpeedForStatic s))).
Proof.
  intros Hsolver Hsched Hsp Hne s N embs. subst s N.
  destruct (kept_pairs_eq t regions currFrame fps Hsolver Hsp)
    as (cm & solved & E & Hlen & Hwf & Hcost & Ek).
  destruct (Update_sched_eq sched t regions currFrame fps Hsolver Hsp Hsched)
    as (kept & Ek' & Hkwf & EU).
  rewrite Ek in Ek'. injection Ek' as <-.
  set (gp := gate_pairs (m_settings t) cm (m_tracks t) solved) in *.
  destruct (kept_pairs_code t regions currFrame fps (survivors (m_settings t) fps gp)
              Hsolver Hsp Ek) as [_ Hassoc].
  destruct (gating_loop_spec (m_settings t) cm (length regions) solved (m_tracks t) Hlen Hwf)
    as (assignment' & tracks' & Eg & Hl1 & Hl2 & Hkeep & Hvoid & Hfree).
  pose proof (gating_loop_eq (m_settings t) cm (length regions) solved (m_tracks t) Hlen Hwf)
    as Eg'.
  assert (assignment' = gp.*2 ∧ tracks' = gp.*1) as [-> ->]
    by (rewrite Eg' in Eg; by injection Eg as <- <-).
  eexists cm, solved, gp.*2, gp.*1, (survivors (m_settings t) fps gp), _.
  split; [exact E|]. split; [exact Eg'|]. split; [exact Hl1|]. split; [exact Hl2|].
  split; [exact Hkeep|]. split; [exact Hvoid|]. split; [exact Hfree|].
  split; [apply retire_loop_eq|].
  split; [by rewrite zip_fst_snd|].
  split; [by apply Hassoc|]. split; [exact EU|].
  cbn [m_tracks set_prevFrame next_state].
  rewrite length_app, length_fmap. split; [apply Nat.le_add_r|]. split.
  - intros k tr j Ekj. split.
    + destruct (kept_pair_origin _ _ _ _ _ _ _ _ Ekj) as (i & Eti & Esi & Ev).
      destruct (wf_entry _ _ _ _ _ Hwf Esi) as [Hi [?|(j' & Hj' & HjM)]]; [lia|].
      apply Nat2Z.inj in Hj'. subst j'.
      destruct (lookup_lt_is_Some_2 cm (i + j * length (m_tracks t))) as [c Ec];
        [rewrite Hlen; by apply index_lt|].
      exists i, c. split; [done|]. split; [done|]. split; [done|].
      rewrite (voided_assigned _ _ _ _ _ c Ec) in Ev. by apply Qgtb_false in Ev.
    + destruct (Hkwf (tr, Z.of_nat j)) as [Hj|Hj];
        [by eapply list_elem_of_lookup_2 | simpl in Hj; lia |]. simpl in Hj.
      destruct (lookup_lt_is_Some_2 regions j) as [reg Er]; [lia|].
      assert (embs !! j = Some (region_embedding t currFrame reg)) as Ee
        by (unfold embs; by rewrite list_lookup_fmap, Er).
      exists reg, (region_embedding t currFrame reg).
      split; [done|]. split; [done|].
      rewrite lookup_app_l by (rewrite length_fmap; by eapply lookup_lt_Some).
      rewrite list_lookup_fmap, Ekj. simpl.
      by rewrite (updated_track_assigned _ _ _ _ _ _ _ _ reg
                    (region_embedding t currFrame reg)).
  - intros k tr Ekj.
    rewrite lookup_app_l by (rewrite length_fmap; by eapply lookup_lt_Some).
    by rewrite list_lookup_fmap, Ekj.
Qed.

(** C3. Birth and identifiers. The counter is 0 in a new tracker. In every
    state the tracker can reach, the identifiers of the live tracks are
    pairwise distinct (and below the counter); [Update] appends, for every
    region index [j] that occurs in no slot of the assignment vector left by
    the removal loop ([kept.*2]; empty when there were no tracks), exactly
    one track, in increasing order of [j],
    constructed from [regions[j]] with the counter's value at that moment,
    and the counter advances by the number of these tracks; over any number
    of further frames the counter does not decrease, and an identifier that
    was issued and is no longer live never becomes live again. *)
Theorem C3_birth_and_ids (settings : TrackerSettings) :
  track_id_contract → solver_contract →
  (∃ t0, CTracker_new settings = Some t0 ∧ m_nextTrackID t0 = 0)
  ∧ ∀ t, reachable settings t →
      NoDup (ids t)
      ∧ (∀ id, id ∈ ids t → id < m_nextTrackID t)
      ∧ (∀ sched regions currFrame fps, schedule sched →
           ∃ kept t' old newb,
             (m_tracks t = [] → kept = [])
             ∧ (m_tracks t ≠ [] →
                associate t regions (region_embedding t currFrame <$> regions)
                          currFrame fps (replicate (length (m_tracks t)) (-1)%Z)
                = Some (kept.*1, kept.*2))
             ∧ Update_sched sched t regions currFrame fps = Some t'
             ∧ let unb := filter (λ j, Z.of_nat j ∉ kept.*2)
                                 (seq 0 (length regions)) in
               m_tracks t' = old ++ newb
               ∧ length old = length kept
               ∧ length newb = length unb
               ∧ m_nextTrackID t' = m_nextTrackID t + length unb
               ∧ ∀ k j, unb !! k = Some j →
                   ∃ reg, regions !! j = Some reg
                     ∧ newb !! k
                       = Some (CTrack_new_emb reg (region_embedding t currFrame reg)
                                 (m_kalmanType (m_settings t)) (m_dt (m_settings t))
                                 (m_accelNoiseMag (m_settings t))
                                 (m_useAcceleration (m_settings t))
                                 (m_nextTrackID t + k)
                                 (tracking.FilterGoal_eqb
                                    (m_filterGoal (m_settings t))
                                    tracking.FilterRect)
                                 (m_lostTrackType (m_settings t))))
      ∧ (∀ t' id, later t t' →
           m_nextTrackID t ≤ m_nextTrackID t'
           ∧ (id < m_nextTrackID t → id ∉ ids t → id ∉ ids t')).
Proof.
  intros Hid Hsolver. split.
  { destruct (CTracker_new_eq settings) as (t0 & E0 & _ & _ & Hn & _).
    by exists t0. }
  intros t Hr.
  destruct (reachable_ok settings t Hid Hsolver Hr) as ([Hnd Hlt] & Hsp & _).
  split; [done|]. split; [done|]. split.
  - intros sched regions currFrame fps Hsched.
    destruct (Update_sched_eq sched t regions currFrame fps Hsolver Hsp Hsched)
      as (kept & Ek & _ & EU).
    destruct (kept_pairs_code t regions currFrame fps kept Hsolver Hsp Ek)
      as [Hnil Hcode].
    eexists kept, _, _, _. split; [done|]. split; [done|]. split; [exact EU|].
    simpl. split; [reflexivity|]. rewrite length_fmap. split; [done|].
    unfold newborns at 1. rewrite length_imap.
    rewrite unassigned_now_length. split; [done|]. split; [done|].
    intros k j Hk. by apply newborns_lookup.
  - intros t' id Hl.
    destruct (later_ids t t' Hid Hsolver Hsp Hl) as (_ & Hle & Hin).
    split; [done|]. intros Hissued Hdead Hlive.
    destruct (Hin id Hlive); [done | lia].
Qed.

Lemma fmap_filter_gated {A B C : Type} (f : A → B) (c : B → bool) (g : Z → B → C)
    (z : Z) (l : list A) :
  (λ p : B * Z, g p.2 p.1)
    <$> filter (λ p : B * Z, c p.1 = false) ((λ x, (f x, z)) <$> l)
  = g z <$> filter (λ y, c y = false) (f <$> l).
Proof.
  induction l as [|x l IH]; [done|].
  rewrite !fmap_cons, !filter_cons. simpl.
  destruct (decide (c (f x) = false)); rewrite ?fmap_cons, IH; done.
Qed.

(** C7. Empty frame. With no regions, [Update] returns a result in which
    every old track has had its skipped-frames counter incremented, the
    removal loop has run on the incremented tracks and dropped those that
    meet its condition, every remaining track has received the unassigned
    update [Update(CRegion(), false, ...)], no track was born and the
    counter is unchanged. *)
Theorem C7_empty_frame (sched : nat → list nat) (t : CTracker D)
    (currFrame : cv.UMat) (fps : track_t) :
  solver_contract → schedule sched → is_Some (m_SPCalculator t) →
  ∃ t', Update_sched sched t [] currFrame fps = Some t'
    ∧ m_tracks t'
      = (λ tr, Track_Update tr CRegion_default false
                 (m_maxTraceLength (m_settings t)) (m_prevFrame t) currFrame 0
                 (m_maxSpeedForStatic (m_settings t)))
        <$> filter (λ tr, retire_cond (m_settings t) fps tr = false)
                   ((λ tr, set_SkippedFrames (S (m_skippedFrames tr)) tr)
                      <$> m_tracks t)
    ∧ m_nextTrackID t' = m_nextTrackID t.
Proof.
  intros Hsolver Hsched Hsp.
  destruct (kept_pairs_eq t [] currFrame fps Hsolver Hsp)
    as (cm & solved & E & Hlen & Hwf & _ & Ek).
  destruct (Update_sched_eq sched t [] currFrame fps Hsolver Hsp Hsched)
    as (kept & Ek' & _ & EU).
  rewrite Ek in Ek'. injection Ek' as <-.
  eexists. split; [exact EU|]. simpl.
  assert (gate_pairs (m_settings t) cm (m_tracks t) solved
          = (λ tr, (set_SkippedFrames (S (m_skippedFrames tr)) tr, (-1)%Z))
              <$> m_tracks t) as ->.
  { apply list_eq. intros i. rewrite gate_pairs_lookup, list_lookup_fmap.
    destruct (m_tracks t !! i) as [tr|] eqn:Et; simpl; [|done].
    destruct (lookup_lt_is_Some_2 solved i) as [a Ea];
      [apply lookup_lt_Some in Et; destruct Hwf as [-> _]; lia|].
    rewrite Ea. simpl.
    destruct (proj2 Hwf i a Ea) as [->|Ha]; [|simpl in Ha; lia].
    done. }
  unfold unassigned_now, unassigned, newborns, survivors. simpl.
  rewrite app_nil_r, Nat.add_0_r. split; [|done].
  apply (fmap_filter_gated
           (λ tr, set_SkippedFrames (S (m_skippedFrames tr)) tr)
           (retire_cond (m_settings t) fps)
           (updated_track (m_settings t) (m_prevFrame t) currFrame fps [] [])).
Qed.

(** C6. Appearance extraction is gated by the weights, and a failed
    back end is harmless. Construction of a tracker always succeeds; a
    calculator whose [Initialize] failed is in the table for no object type
    (every calculator in the table was initialised successfully).
    [CalcEmbeddins] always returns, with one descriptor per region; the
    histogram of a region is the extracted one when the [DistHist] weight
    is strictly positive and is left empty otherwise; the embedding is left
    empty when the [DistFeatureCos] weight is not strictly positive and when
    the table has no calculator for the region's type, and is the
    calculator's output otherwise. *)
Theorem C6_appearance_gating (settings : TrackerSettings) :
  (∃ t0, CTracker_new settings = Some t0
     ∧ (∀ ty c, m_embCalculators t0 !! ty = Some c →
          Initialize (ec_cfgName c) (ec_weightsName c) (ec_inputLayer c) = true)
     ∧ (∀ p ty, p ∈ m_embeddings settings →
          Initialize (m_embeddingCfgName p) (m_embeddingWeightsName p)
                     (m_inputLayer p) = false →
          m_embCalculators t0 !! ty ≠ Some (make_embCalc p)))
  ∧ ∀ (t : CTracker D) (regions : regions_t) (currFrame : cv.UMat),
      ∃ embs, CalcEmbeddins t [] regions currFrame = Some embs
        ∧ length embs = length regions
        ∧ ∀ j reg e, regions !! j = Some reg → embs !! j = Some e →
            ((0 < m_distType (m_settings t) tracking.DistHist)%Q →
               m_hist e = hist_of currFrame reg)
            ∧ (¬ (0 < m_distType (m_settings t) tracking.DistHist)%Q →
               m_hist e = [])
            ∧ (¬ (0 < m_distType (m_settings t) tracking.DistFeatureCos)%Q →
               m_embedding e = [])
            ∧ (m_embCalculators t !! m_type reg = None → m_embedding e = [])
            ∧ (∀ c, (0 < m_distType (m_settings t) tracking.DistFeatureCos)%Q →
                 m_embCalculators t !! m_type reg = Some c →
                 m_embedding e = Calc c currFrame (m_brect reg)).
Proof.
  split.
  - destruct (CTracker_new_eq settings) as (t0 & E0 & _ & _ & _ & _ & _ & Hreg).
    exists t0. split; [done|]. split.
    + intros ty c Ec. rewrite Hreg in Ec.
      by apply first_backend_initialized in Ec as [? _].
    + intros p ty Hp Hfail Ec. rewrite Hreg in Ec.
      apply first_backend_initialized in Ec as [Hinit _].
      simpl in Hinit. congruence.
  - intros t regions currFrame.
    exists (region_embedding t currFrame <$> regions).
    split; [apply CalcEmbeddins_eq|]. split; [apply length_fmap|].
    intros j reg e Er Ee. rewrite list_lookup_fmap, Er in Ee.
    injection Ee as <-.
    unfold region_embedding, emb_stage, hist_stage, emb_of.
    destruct (Qgtb (m_distType (m_settings t) tracking.DistHist) 0) eqn:Eh;
      destruct (Qgtb (m_distType (m_settings t) tracking.DistFeatureCos) 0) eqn:Ef;
      try apply Qgtb_true in Eh; try apply Qgtb_false in Eh;
      try apply Qgtb_true in Ef; try apply Qgtb_false in Ef;
      simpl; destruct (m_embCalculators t !! m_type reg) as [c0|] eqn:Ec; simpl;
      repeat split; try done; try (intros; exfalso; lra);
      try (intros c _ [= <-]; done).
Qed.

(** C8. The stored previous frame. A new tracker holds the empty image.
    [Update] first runs [UpdateTrackingState], which leaves [m_prevFrame]
    as it was (so the track updates of this call read the frame of the
    previous call), and then stores a copy of [currFrame]: after the call
    [m_prevFrame] equals the [currFrame] passed to it, and the tracks and
    the counter are those computed by [UpdateTrackingState]. *)
Theorem C8_prev_frame :
  solver_contract →
  (∀ settings, ∃ t0 : CTracker D,
      CTracker_new settings = Some t0 ∧ m_prevFrame t0 = cv.UMat_default)
  ∧ ∀ sched (t : CTracker D) regions currFrame fps,
      schedule sched → is_Some (m_SPCalculator t) →
      ∃ kept t1 t2,
        UpdateTrackingState_sched sched t regions currFrame fps = Some t1
        ∧ t1 = next_state t regions currFrame fps kept
        ∧ m_prevFrame t1 = m_prevFrame t
        ∧ Update_sched sched t regions currFrame fps = Some t2
        ∧ m_prevFrame t2 = currFrame
        ∧ m_tracks t2 = m_tracks t1
        ∧ m_nextTrackID t2 = m_nextTrackID t1
        ∧ m_settings t2 = m_settings t1
        ∧ m_SPCalculator t2 = m_SPCalculator t1
        ∧ m_embCalculators t2 = m_embCalculators t1.
Proof.
  intros Hsolver. split.
  - intros settings.
    destruct (CTracker_new_eq settings) as (t0 & E0 & _ & _ & _ & Hp & _).
    by exists t0.
  - intros sched t regions currFrame fps Hsched Hsp.
    destruct (UpdateTrackingState_sched_eq sched t regions currFrame fps
                Hsolver Hsp Hsched) as (kept & _ & _ & E).
    eexists kept, _, _. split; [exact E|]. split; [done|]. split; [done|].
    unfold Update_sched. rewrite E. simpl. done.
Qed.

Lemma run_from_indep (scheds1 scheds2 : nat → nat → list nat)
    (inputs : list (regions_t * cv.UMat * track_t)) :
  (∀ k, schedule (scheds1 k)) → (∀ k, schedule (scheds2 k)) →
  ∀ k t, run_from scheds1 k t inputs = run_from scheds2 k t inputs.
Proof.
  intros H1 H2. induction inputs as [|[[regions currFrame] fps] inputs IH];
    intros k t; simpl; [done|].
  rewrite (Update_sched_indep (scheds1 k) (scheds2 k)) by done.
  destruct (Update_sched (scheds2 k) t regions currFrame fps); [|done].
  by rewrite IH.
Qed.

(** C9. Determinism. Two runs of trackers built from the same settings and
    fed the same sequence of frames reach the same state after every frame,
    whatever the order in which the iterations of the parallel update loop
    take effect in each frame of each run. *)
Theorem C9_determinism (scheds1 scheds2 : nat → nat → list nat)
    (settings : TrackerSettings)
    (inputs : list (regions_t * cv.UMat * track_t)) :
  (∀ k, schedule (scheds1 k)) → (∀ k, schedule (scheds2 k)) →
  run scheds1 settings inputs = run scheds2 settings inputs.
Proof.
  intros H1 H2. unfold run.
  destruct (CTracker_new settings); [|done].
  by apply run_from_indep.
Qed.

Lemma region_embedding_default (t : CTracker D) (currFrame : cv.UMat) (reg : CRegion) :
  ¬ (0 < m_distType (m_settings t) tracking.DistHist)%Q →
  ¬ (0 < m_distType (m_settings t) tracking.DistFeatureCos)%Q →
  region_embedding t currFrame reg = RegionEmbedding_default.
Proof.
  intros Hh Hf. unfold region_embedding, emb_stage, hist_stage.
  destruct (Qgtb (m_distType (m_settings t) tracking.DistHist) 0) eqn:Eh;
    [by apply Qgtb_true in Eh|].
  destruct (Qgtb (m_distType (m_settings t) tracking.DistFeatureCos) 0) eqn:Ef;
    [by apply Qgtb_true in Ef|].
  done.
Qed.

(** C10. The descriptor vector always has one entry per region. For a
    non-empty [regions], [CalcEmbeddins] returns a vector of exactly
    [regions.size()] descriptors, all of them default-constructed when
    neither appearance weight is positive. In the same [Update] the build
    of the cost matrix (whatever the value of [maxPossibleCost]) and the
    whole of [UpdateTrackingState] return a result, that is, no index into
    [regionEmbeddings] (or any other vector) is out of range; every track that is still assigned to a region [j]
    (the pairs [kept] left by the guarded block) is updated through the
    overload that takes [regionEmbeddings[j]], and
    every newborn track is constructed through the overload that takes the
    descriptor of its region. *)
Theorem C10_embeddings_sized (sched : nat → list nat) (t : CTracker D)
    (regions : regions_t) (currFrame : cv.UMat) (fps : track_t) :
  solver_contract → schedule sched → is_Some (m_SPCalculator t) →
  regions ≠ [] →
  ∃ embs,
    CalcEmbeddins t [] regions currFrame = Some embs
    ∧ length embs = length regions
    ∧ (¬ (0 < m_distType (m_settings t) tracking.DistHist)%Q →
       ¬ (0 < m_distType (m_settings t) tracking.DistFeatureCos)%Q →
       embs = replicate (length regions) RegionEmbedding_default)
    ∧ (∀ maxPossibleCost,
         is_Some (CreateDistaceMatrix t regions embs
                    (replicate (length (m_tracks t) * length regions) 0%Q)
                    maxPossibleCost 0%Q))
    ∧ ∃ kept t' old newb,
        (m_tracks t = [] → kept = [])
        ∧ (m_tracks t ≠ [] →
           associate t regions embs currFrame fps
                     (replicate (length (m_tracks t)) (-1)%Z)
           = Some (kept.*1, kept.*2))
        ∧ UpdateTrackingState_sched sched t regions currFrame fps = Some t'
        ∧ m_tracks t' = old ++ newb
        ∧ length old = length kept
        ∧ (∀ i tr j, kept !! i = Some (tr, Z.of_nat j) →
             ∃ reg emb, regions !! j = Some reg ∧ embs !! j = Some emb
               ∧ old !! i
                 = Some (Track_Update_emb (set_SkippedFrames 0 tr) reg emb true
                           (m_maxTraceLength (m_settings t)) (m_prevFrame t)
                           currFrame (traj_len (m_settings t) fps)
                           (m_maxSpeedForStatic (m_settings t))))
        ∧ (∀ k j, filter (λ j, Z.of_nat j ∉ kept.*2) (seq 0 (length regions)) !! k
                  = Some j →
             ∃ reg emb, regions !! j = Some reg ∧ embs !! j = Some emb
               ∧ newb !! k
                 = Some (CTrack_new_emb reg emb
                           (m_kalmanType (m_settings t)) (m_dt (m_settings t))
                           (m_accelNoiseMag (m_settings t))
                           (m_useAcceleration (m_settings t))
                           (m_nextTrackID t + k)
                           (tracking.FilterGoal_eqb (m_filterGoal (m_settings t))
                                                    tracking.FilterRect)
                           (m_lostTrackType (m_settings t)))).
Proof.
  intros Hsolver Hsched Hsp Hne.
  set (embs := region_embedding t currFrame <$> regions).
  assert (length embs = length regions) as Hlen by apply length_fmap.
  exists embs. split; [apply CalcEmbeddins_eq|]. split; [done|]. split.
  { intros Hh Hf. apply list_eq. intros i. unfold embs.
    rewrite list_lookup_fmap.
    destruct (regions !! i) as [reg|] eqn:Er; simpl.
    - rewrite region_embedding_default by done.
      by rewrite lookup_replicate_2 by (by eapply lookup_lt_Some).
    - apply lookup_ge_None in Er.
      by rewrite (proj1 (lookup_replicate_None _ _ _)). }
  split.
  { intros maxPossibleCost.
    destruct (CreateDistaceMatrix_eq t regions embs maxPossibleCost 0%Q Hlen)
      as (cm & mc & E & _). rewrite E. eauto. }
  destruct (UpdateTrackingState_sched_eq sched t regions currFrame fps
              Hsolver Hsp Hsched) as (kept & Ek & Hwf & EU).
  destruct (kept_pairs_code t regions currFrame fps kept Hsolver Hsp Ek)
    as [Hnil Hcode].
  eexists kept, _, _, _. split; [done|]. split; [done|]. split; [exact EU|].
  simpl. split; [reflexivity|]. rewrite length_fmap. split; [done|]. split.
  - intros i tr j Ei.
    destruct (Hwf (tr, Z.of_nat j)) as [Hj|Hj];
      [by eapply list_elem_of_lookup_2 | simpl in Hj; lia |]. simpl in Hj.
    destruct (lookup_lt_is_Some_2 regions j) as [reg Er]; [lia|].
    exists reg, (region_embedding t currFrame reg).
    assert (embs !! j = Some (region_embedding t currFrame reg)) as Ee
      by (unfold embs; by rewrite list_lookup_fmap, Er).
    split; [done|]. split; [done|].
    rewrite list_lookup_fmap, Ei. simpl.
    by rewrite (updated_track_assigned _ _ _ _ _ _ _ _ reg
                  (region_embedding t currFrame reg)).
  - intros k j Hk.
    destruct (newborns_lookup t regions currFrame kept k j Hk) as (reg & Er & En).
    exists reg, (region_embedding t currFrame reg). split; [done|].
    split; [unfold embs; by rewrite list_lookup_fmap, Er | done].
Qed.

(** ** The terms of the cost *)

Lemma Qmul_zero_l (w x : Q) : (w == 0)%Q → (w * x == 0)%Q.
Proof. intros Hw. nra. Qed.

Lemma weight_off (w : Q) : (w == 0)%Q → Qgtb w 0 = false.
Proof. intros Hw. apply Qgtb_false. lra. Qed.

Lemma weight_zero (w : Q) : (0 <= w)%Q → Qgtb w 0 = false → (w == 0)%Q.
Proof. intros Hw Hoff%Qgtb_false. lra. Qed.

Lemma add_centers_spec (s : TrackerSettings) (track : CTrack D)
    (area : cv.RotatedRect) (reg : CRegion) (dist : Q) :
  (0 <= m_distType s tracking.DistCenters)%Q →
  let e := IsInsideArea track (cv.center (m_rrect reg)) area in
  ((1 < e)%Q →
     (add_centers s track area reg dist
      == dist + m_distType s tracking.DistCenters * 1)%Q)
  ∧ ((e <= 1)%Q →
     (add_centers s track area reg dist
      == dist + m_distType s tracking.DistCenters * e)%Q).
Proof.
  intros Hw e. unfold add_centers. fold e.
  destruct (Qgtb (m_distType s tracking.DistCenters) 0) eqn:Ew.
  - destruct (Qgtb e 1) eqn:Ee;
      [apply Qgtb_true in Ee | apply Qgtb_false in Ee];
      (split; intros He; [try (exfalso; lra) | try (exfalso; lra)]); ring.
  - apply (weight_zero _ Hw) in Ew.
    split; intros _; rewrite (Qmul_zero_l _ _ Ew); ring.
Qed.

Lemma add_rects_spec (s : TrackerSettings) (track : CTrack D)
    (area : cv.RotatedRect) (reg : CRegion) (dist : Q) :
  (0 <= m_distType s tracking.DistRects)%Q →
  let e := IsInsideArea track (cv.center (m_rrect reg)) area in
  ((e < 1)%Q →
     (add_rects s track area reg dist
      == dist + m_distType s tracking.DistRects
                * (1 - (1 - e) * (WidthDist track reg + HeightDist track reg)
                       * (1 # 2)))%Q)
  ∧ ((1 <= e)%Q →
     (add_rects s track area reg dist
      == dist + m_distType s tracking.DistRects * 1)%Q).
Proof.
  intros Hw e. unfold add_rects. fold e.
  destruct (Qgtb (m_distType s tracking.DistRects) 0) eqn:Ew.
  - destruct (Qltb e 1) eqn:Ee;
      [apply Qltb_true in Ee | apply Qltb_false in Ee];
      (split; intros He; [try (exfalso; lra) | try (exfalso; lra)]); ring.
  - apply (weight_zero _ Hw) in Ew.
    split; intros _; rewrite (Qmul_zero_l _ _ Ew); ring.
Qed.

Lemma add_jaccard_spec (s : TrackerSettings) (track : CTrack D) (reg : CRegion)
    (dist : Q) :
  (0 <= m_distType s tracking.DistJaccard)%Q →
  (add_jaccard s track reg dist
   == dist + m_distType s tracking.DistJaccard * CalcDistJaccard track reg)%Q.
Proof.
  intros Hw. unfold add_jaccard.
  destruct (Qgtb (m_distType s tracking.DistJaccard) 0) eqn:Ew; [ring|].
  apply (weight_zero _ Hw) in Ew. rewrite (Qmul_zero_l _ _ Ew). ring.
Qed.

Lemma add_hist_spec (s : TrackerSettings) (track : CTrack D) (e : RegionEmbedding)
    (dist : Q) :
  (0 <= m_distType s tracking.DistHist)%Q →
  (add_hist s track e dist
   == dist + m_distType s tracking.DistHist * CalcDistHist track e)%Q.
Proof.
  intros Hw. unfold add_hist.
  destruct (Qgtb (m_distType s tracking.DistHist) 0) eqn:Ew; [ring|].
  apply (weight_zero _ Hw) in Ew. rewrite (Qmul_zero_l _ _ Ew). ring.
Qed.

Lemma add_cos_spec (s : TrackerSettings) (track : CTrack D) (reg : CRegion)
    (e : RegionEmbedding) (dist : Q) :
  (0 <= m_distType s tracking.DistFeatureCos)%Q →
  (add_cos s track reg e dist ≠ dist →
     m_type reg = m_type (LastRegion track)
     ∧ (0 < m_distType s tracking.DistFeatureCos)%Q)
  ∧ (m_type reg = m_type (LastRegion track) →
     (add_cos s track reg e dist
      == dist + m_distType s tracking.DistFeatureCos * CalcCosine track e)%Q)
  ∧ (m_type reg ≠ m_type (LastRegion track) → add_cos s track reg e dist = dist).
Proof.
  intros Hw. unfold add_cos.
  destruct (Qgtb (m_distType s tracking.DistFeatureCos) 0) eqn:Ew.
  - apply Qgtb_true in Ew.
    destruct (m_type reg =? m_type (LastRegion track))%Z eqn:Ety;
      [apply Z.eqb_eq in Ety | apply Z.eqb_neq in Ety].
    + split; [done|]. split; [intros _; ring | done].
    + split; [done|]. split; [done | done].
  - apply (weight_zero _ Hw) in Ew.
    split; [done|]. split; [|done].
    intros _. rewrite (Qmul_zero_l _ _ Ew). ring.
Qed.

(** C5. The terms of the cost of a type-compatible pair. With non-negative
    weights, the entry of the cost matrix for track [i] and region [j] is
    the result of the five accumulation steps taken in order from 0, where,
    [e] being the radial distance of the region's center in the track's
    prediction ellipse: the Centers step adds [w_c * 1] when [e > 1] and
    [w_c * e] otherwise; the Rects step adds
    [w_r * (1 - (1 - e) * (dw + dh) * 0.5)] when [e < 1] and [w_r * 1]
    otherwise; the FeatureCos step changes the cost only when the region's
    type equals the type of the track's last region and its weight is
    positive, and then adds [w_f * CalcCosine]; and a step whose weight is
    zero leaves the cost as it is. *)
Theorem C5_cost_terms (t : CTracker D) (regions : regions_t)
    (regionEmbeddings : list RegionEmbedding) (maxPossibleCost mc0 : track_t) :
  length regionEmbeddings = length regions →
  (∀ ind, (0 <= m_distType (m_settings t) ind)%Q) →
  ∃ cm mc,
    CreateDistaceMatrix t regions regionEmbeddings
      (replicate (length (m_tracks t) * length regions) 0%Q) maxPossibleCost mc0
    = Some (cm, mc)
    ∧ ∀ i j track reg emb,
        m_tracks t !! i = Some track → regions !! j = Some reg →
        regionEmbeddings !! j = Some emb →
        CheckType (m_settings t) (m_type (LastRegion track)) (m_type reg) = true →
        let s := m_settings t in
        let w := m_distType s in
        let area := CalcPredictionEllipse track (min_radius s track) in
        let e := IsInsideArea track (cv.center (m_rrect reg)) area in
        cm !! (i + j * length (m_tracks t))
        = Some (add_cos s track reg emb
                  (add_hist s track emb
                     (add_jaccard s track reg
                        (add_rects s track area reg
                           (add_centers s track area reg 0%Q)))))
        ∧ ∀ dist,
            ((1 < e)%Q → (add_centers s track area reg dist
                          == dist + w tracking.DistCenters * 1)%Q)
            ∧ ((e <= 1)%Q → (add_centers s track area reg dist
                             == dist + w tracking.DistCenters * e)%Q)
            ∧ ((e < 1)%Q →
                 (add_rects s track area reg dist
                  == dist + w tracking.DistRects
                            * (1 - (1 - e)
                                   * (WidthDist track reg + HeightDist track reg)
                                   * (1 # 2)))%Q)
            ∧ ((1 <= e)%Q → (add_rects s track area reg dist
                             == dist + w tracking.DistRects * 1)%Q)
            ∧ (add_jaccard s track reg dist
               == dist + w tracking.DistJaccard * CalcDistJaccard track reg)%Q
            ∧ (add_hist s track emb dist
               == dist + w tracking.DistHist * CalcDistHist track emb)%Q
            ∧ (add_cos s track reg emb dist ≠ dist →
                 m_type reg = m_type (LastRegion track)
                 ∧ (0 < w tracking.DistFeatureCos)%Q)
            ∧ (m_type reg = m_type (LastRegion track) →
                 (add_cos s track reg emb dist
                  == dist + w tracking.DistFeatureCos * CalcCosine track emb)%Q)
            ∧ ((w tracking.DistCenters == 0)%Q →
                 add_centers s track area reg dist = dist)
            ∧ ((w tracking.DistRects == 0)%Q →
                 add_rects s track area reg dist = dist)
            ∧ ((w tracking.DistJaccard == 0)%Q →
                 add_jaccard s track reg dist = dist)
            ∧ ((w tracking.DistHist == 0)%Q → add_hist s track emb dist = dist)
            ∧ ((w tracking.DistFeatureCos == 0)%Q →
                 add_cos s track reg emb dist = dist).
Proof.
  intros Hemb Hw.
  destruct (CreateDistaceMatrix_eq t regions regionEmbeddings maxPossibleCost mc0
              Hemb) as (cm & mc & E & _ & Hcost).
  exists cm, mc. split; [done|].
  intros i j track reg emb Et Er Ee Hty s w area e.
  split.
  { rewrite Hcost by (by eapply lookup_lt_Some).
    unfold cost_at. rewrite Et, Er, Ee. simpl. unfold pair_cost.
    by rewrite Hty. }
  intros dist.
  destruct (add_centers_spec s track area reg dist (Hw _)) as [Hc1 Hc2].
  destruct (add_rects_spec s track area reg dist (Hw _)) as [Hr1 Hr2].
  destruct (add_cos_spec s track reg emb dist (Hw _)) as (Hf1 & Hf2 & _).
  split; [done|]. split; [done|]. split; [done|]. split; [done|].
  split; [by apply add_jaccard_spec|]. split; [by apply add_hist_spec|].
  split; [done|]. split; [done|].
  unfold add_centers, add_rects, add_jaccard, add_hist, add_cos.
  repeat split; intros H0%weight_off; unfold w in H0; by rewrite H0.
Qed.

(** ** The cost of a pair and [maxPossibleCost] *)

(** C4, as the code has it. [maxPossibleCost] is the product [cols * rows]
    taken in [int] and converted to [track_t]; it is the area of the frame
    when that is below 2^24. A pair that the type check rejects gets
    exactly [maxPossibleCost]. A pair that it accepts gets the sum that the
    five steps accumulate from 0: [maxPossibleCost] plays no part in that
    sum (the entry is the same whatever value is passed), and nothing
    compares the sum with [maxPossibleCost] or clamps it. *)
Theorem C4_cost_bound (t : CTracker D) (regions : regions_t)
    (regionEmbeddings : list RegionEmbedding) (currFrame : cv.UMat) (mc0 : track_t) :
  let s := m_settings t in
  let N := length (m_tracks t) in
  let maxPossibleCost := max_possible_cost currFrame in
  length regionEmbeddings = length regions →
  ((0 ≤ cv.cols currFrame * cv.rows currFrame < 2 ^ 24)%Z →
     maxPossibleCost = inject_Z (cv.cols currFrame * cv.rows currFrame))
  ∧ ∃ cm mc,
      CreateDistaceMatrix t regions regionEmbeddings
        (replicate (N * length regions) 0%Q) maxPossibleCost mc0
      = Some (cm, mc)
      ∧ ∀ i j track reg,
          m_tracks t !! i = Some track → regions !! j = Some reg →
          (CheckType s (m_type (LastRegion track)) (m_type reg) = false →
             cm !! (i + j * N) = Some maxPossibleCost)
          ∧ (CheckType s (m_type (LastRegion track)) (m_type reg) = true →
             let area := CalcPredictionEllipse track (min_radius s track) in
             ∃ emb, regionEmbeddings !! j = Some emb
               ∧ cm !! (i + j * N)
                 = Some (add_cos s track reg emb
                           (add_hist s track emb
                              (add_jaccard s track reg
                                 (add_rects s track area reg
                                    (add_centers s track area reg 0%Q)))))
               ∧ ∀ other mc0', ∃ cm' mc',
                   CreateDistaceMatrix t regions regionEmbeddings
                     (replicate (N * length regions) 0%Q) other mc0'
                   = Some (cm', mc')
                   ∧ cm' !! (i + j * N) = cm !! (i + j * N)).
Proof.
  intros s N maxPossibleCost Hemb.
  split; [apply max_possible_cost_exact|].
  destruct (CreateDistaceMatrix_eq t regions regionEmbeddings maxPossibleCost mc0
              Hemb) as (cm & mc & E & _ & Hcost).
  exists cm, mc. split; [done|].
  intros i j track reg Et Er.
  destruct (lookup_lt_is_Some_2 regionEmbeddings j) as [emb Ee];
    [apply lookup_lt_Some in Er; lia|].
  assert (∀ mpc, cost_at s (m_tracks t) regions regionEmbeddings mpc i j
                 = Some (pair_cost s track
                           (CalcPredictionEllipse track (min_radius s track))
                           reg emb mpc)) as Hat
    by (intros mpc; unfold cost_at; by rewrite Et, Er, Ee).
  assert (i < N ∧ j < length regions) as [Hi Hj]
    by (split; by eapply lookup_lt_Some).
  rewrite Hcost, Hat by done. unfold pair_cost. split.
  - by intros ->.
  - intros Hty. cbv zeta. rewrite Hty. exists emb. split; [done|]. split; [done|].
    intros other mc0'.
    destruct (CreateDistaceMatrix_eq t regions regionEmbeddings other mc0' Hemb)
      as (cm' & mc' & E' & _ & Hcost').
    exists cm', mc'. split; [done|].
    rewrite Hcost', Hat by done. unfold pair_cost. by rewrite Hty.
Qed.

(** ** Further properties of the constructor *)

(** The calculator found for a type is that of the first entry of the list
    that initialises and names the type. *)
Lemma first_backend_Some (params : list EmbeddingParams) (ty : Z)
    (c : EmbeddingsCalculator) :
  first_backend params ty = Some c
  ↔ ∃ pre p post,
      params = pre ++ p :: post
      ∧ Initialize (m_embeddingCfgName p) (m_embeddingWeightsName p) (m_inputLayer p)
        = true
      ∧ ty ∈ m_objectTypes p
      ∧ c = make_embCalc p
      ∧ ∀ q, q ∈ pre →
          Initialize (m_embeddingCfgName q) (m_embeddingWeightsName q) (m_inputLayer q)
          = true →
          ty ∉ m_objectTypes q.
Proof.
  split.
  - induction params as [|p params IH]; simpl; [done|].
    destruct (Initialize (m_embeddingCfgName p) (m_embeddingWeightsName p)
                (m_inputLayer p)) eqn:Ei; simpl.
    + destruct (bool_decide (ty ∈ m_objectTypes p)) eqn:Ek.
      * intros [= <-]. apply bool_decide_eq_true_1 in Ek.
        exists [], p, params. repeat (split; [done|]).
        intros q Hq. by apply elem_of_nil in Hq.
      * apply bool_decide_eq_false_1 in Ek.
        intros (pre & p' & post & -> & Hi & Hty & Hc & Hpre)%IH.
        exists (p :: pre), p', post. repeat (split; [done|]).
        intros q [->|Hq]%elem_of_cons; [done | by apply Hpre].
    + intros (pre & p' & post & -> & Hi & Hty & Hc & Hpre)%IH.
      exists (p :: pre), p', post. repeat (split; [done|]).
      intros q [->|Hq]%elem_of_cons; [congruence | by apply Hpre].
  - intros (pre & p & post & -> & Hi & Hty & -> & Hpre).
    induction pre as [|q pre IH]; simpl.
    + by rewrite Hi, bool_decide_eq_true_2.
    + destruct (Initialize (m_embeddingCfgName q) (m_embeddingWeightsName q)
                  (m_inputLayer q)) eqn:Eq; simpl.
      * rewrite bool_decide_eq_false_2
          by (apply Hpre; [apply elem_of_cons; by left | done]).
        apply IH. intros q' Hq'. apply Hpre, elem_of_cons. by right.
      * apply IH. intros q' Hq'. apply Hpre, elem_of_cons. by right.
Qed.

(** X1. The constructor and duplicate object types. Construction always
    returns a tracker; its solver is the variant that [m_matchType] selects,
    built from [{m_distThres, 12}]; and the calculator table maps an object
    type to the calculator of the first entry of [settings.m_embeddings]
    that initialises successfully and names the type: a later entry never
    replaces it, and a type that no successful entry names has no
    calculator. *)
Theorem X1_first_registration_wins (settings : TrackerSettings) :
  ∃ t0, CTracker_new settings = Some t0
    ∧ m_SPCalculator t0
      = Some (match m_matchType settings with
              | tracking.MatchHungrian =>
                  SPHungrian {| sp_maxDist := m_distThres settings;
                                sp_maxHistory := 12 |}
              | tracking.MatchBipart =>
                  SPBipart {| sp_maxDist := m_distThres settings;
                              sp_maxHistory := 12 |}
              end)
    ∧ ∀ ty c,
        m_embCalculators t0 !! ty = Some c
        ↔ ∃ pre p post,
            m_embeddings settings = pre ++ p :: post
            ∧ Initialize (m_embeddingCfgName p) (m_embeddingWeightsName p)
                         (m_inputLayer p) = true
            ∧ ty ∈ m_objectTypes p
            ∧ c = make_embCalc p
            ∧ ∀ q, q ∈ pre →
                Initialize (m_embeddingCfgName q) (m_embeddingWeightsName q)
                           (m_inputLayer q) = true →
                ty ∉ m_objectTypes q.
Proof.
  destruct (CTracker_new_eq settings) as (t0 & E0 & _ & _ & _ & _ & _ & Hreg).
  exists t0. split; [done|]. split.
  - unfold CTracker_new in E0. destruct (m_matchType settings); simpl in E0;
      by injection E0 as <-.
  - intros ty c. rewrite Hreg. apply first_backend_Some.
Qed.

(** ** Further properties of CalcEmbeddins *)

Lemma hist_params_gen (n : nat) (hs : list Z) (rs : list Q) (cs : list Z) :
  foldl (λ '(histSize, ranges, channels) i,
           (histSize ++ [64%Z], ranges ++ [0%Q; 255%Q], channels ++ [Z.of_nat i]))
        (hs, rs, cs) (seq 0 n)
  = (hs ++ replicate n 64%Z, rs ++ mjoin (replicate n [0%Q; 255%Q]),
     cs ++ (Z.of_nat <$> seq 0 n)).
Proof.
  induction n as [|n IH].
  - simpl. by rewrite !app_nil_r.
  - rewrite seq_S, foldl_app, IH, !replicate_S_end, fmap_app, join_app, !app_assoc.
    simpl. reflexivity.
Qed.

(** X2. The arguments of [calcHist]. For a frame with [stop] channels the
    inner loop of the histogram stage builds one bin count of 64 per
    channel, one range [0, 255] per channel, and the channel indices
    [0 .. stop - 1] in order; when [stop] is not positive all three lists
    are empty. *)
Theorem X2_hist_params (stop : Z) :
  hist_params stop
  = (replicate (Z.to_nat stop) 64%Z,
     mjoin (replicate (Z.to_nat stop) [0%Q; 255%Q]),
     Z.of_nat <$> seq 0 (Z.to_nat stop))
  ∧ ((stop ≤ 0)%Z → hist_params stop = ([], [], [])).
Proof.
  unfold hist_params. split; [apply hist_params_gen|].
  intros Hs. by rewrite (Z2Nat.nonpos stop).
Qed.

Lemma length_resize_vec {A : Type} (n : nat) (d : A) (v : list A) :
  length (resize_vec n d v) = n.
Proof. unfold resize_vec. rewrite length_app, length_take, length_replicate. lia. Qed.

Lemma resize_vec_id {A : Type} (d : A) (v : list A) :
  resize_vec (length v) d v = v.
Proof.
  unfold resize_vec. by rewrite firstn_all, Nat.sub_diag, app_nil_r.
Qed.

(** For a non-empty [regions], [CalcEmbeddins] resizes the vector it is
    given and passes every slot through the two stages. *)
Lemma CalcEmbeddins_gen (t : CTracker D) (v : list RegionEmbedding)
    (regions : regions_t) (currFrame : cv.UMat) :
  regions ≠ [] →
  CalcEmbeddins t v regions currFrame
  = Some (imap (embed_slot t currFrame regions)
               (resize_vec (length regions) RegionEmbedding_default v)).
Proof.
  intros Hne. unfold CalcEmbeddins.
  replace (vec_empty regions) with false by (by destruct regions).
  cbn [negb]. set (M := length regions).
  set (w := resize_vec M RegionEmbedding_default v).
  assert (length w = M) as Hw by apply length_resize_vec.
  assert (∀ u : list RegionEmbedding, length u = M →
    (if Qgtb (m_distType (m_settings t) tracking.DistHist) 0
     then for_range (hist_step regions currFrame) M u else Some u)
    = Some (imap (λ i a, match regions !! i with
                         | Some reg => hist_stage t currFrame reg a
                         | None => a end) u)) as Hh.
  { intros u Hu. unfold hist_stage.
    destruct (Qgtb (m_distType (m_settings t) tracking.DistHist) 0).
    - rewrite (for_range_pointwise _
                 (λ j e, match regions !! j with
                         | Some reg => set_hist (hist_of currFrame reg) e
                         | None => e end)); [|  |lia].
      + f_equal. apply imap_ext. intros i a Ea.
        apply lookup_lt_Some in Ea. by rewrite decide_True by lia.
      + intros i v' Hi. destruct (lookup_lt_is_Some_2 regions i Hi) as [reg Er].
        rewrite Er. by apply hist_step_modify.
    - f_equal. apply list_eq. intros i. rewrite list_lookup_imap.
      destruct (u !! i); simpl; [|done]. by destruct (regions !! i). }
  assert (∀ u : list RegionEmbedding, length u = M →
    (if Qgtb (m_distType (m_settings t) tracking.DistFeatureCos) 0
     then for_range (emb_step (m_embCalculators t) regions currFrame) M u else Some u)
    = Some (imap (λ i a, match regions !! i with
                         | Some reg => emb_stage t currFrame reg a
                         | None => a end) u)) as He.
  { intros u Hu. unfold emb_stage.
    destruct (Qgtb (m_distType (m_settings t) tracking.DistFeatureCos) 0).
    - rewrite (for_range_pointwise _
                 (λ j e, match regions !! j with
                         | Some reg => emb_of t currFrame reg e
                         | None => e end)); [|  |lia].
      + f_equal. apply imap_ext. intros i a Ea.
        apply lookup_lt_Some in Ea. by rewrite decide_True by lia.
      + intros i v' Hi. destruct (lookup_lt_is_Some_2 regions i Hi) as [reg Er].
        rewrite Er. by apply emb_step_modify.
    - f_equal. apply list_eq. intros i. rewrite list_lookup_imap.
      destruct (u !! i); simpl; [|done]. by destruct (regions !! i). }
  rewrite Hh by done. simpl. rewrite He by (by rewrite length_imap).
  f_equal. apply list_eq. intros i. rewrite !list_lookup_imap.
  destruct (w !! i) as [a|]; simpl; [|done].
  unfold embed_slot. by destruct (regions !! i).
Qed.

Lemma Mat_empty_true (m : cv.Mat) : cv.Mat_empty m = true ↔ m = [].
Proof. by destruct m. Qed.

Lemma embed_slot_idemp (t : CTracker D) (currFrame : cv.UMat) (regions : regions_t)
    (i : nat) (a : RegionEmbedding) :
  embed_slot t currFrame regions i (embed_slot t currFrame regions i a)
  = embed_slot t currFrame regions i a.
Proof.
  unfold embed_slot. destruct (regions !! i) as [reg|]; [|done].
  unfold emb_stage, hist_stage, emb_of. destruct a as [h e d].
  destruct (Qgtb (m_distType (m_settings t) tracking.DistHist) 0),
    (Qgtb (m_distType (m_settings t) tracking.DistFeatureCos) 0); simpl; try done.
  - destruct (cv.Mat_empty e) eqn:Ee; simpl.
    + destruct (m_embCalculators t !! m_type reg) as [c|]; simpl.
      * destruct (cv.Mat_empty (Calc c currFrame (m_brect reg))); simpl; done.
      * by rewrite Ee.
    + by rewrite Ee.
  - destruct (cv.Mat_empty e) eqn:Ee; simpl.
    + destruct (m_embCalculators t !! m_type reg) as [c|]; simpl.
      * destruct (cv.Mat_empty (Calc c currFrame (m_brect reg))); simpl; done.
      * by rewrite Ee.
    + by rewrite Ee.
Qed.

(** X3. [CalcEmbeddins] on any incoming vector. The call always returns.
    With no regions the vector comes back untouched, whatever it held; with
    regions it comes back with exactly one descriptor per region; and a
    second call on the result, for the same regions and frame, changes
    nothing. *)
Theorem X3_CalcEmbeddins_idempotent (t : CTracker D) (v : list RegionEmbedding)
    (regions : regions_t) (currFrame : cv.UMat) :
  ∃ embs, CalcEmbeddins t v regions currFrame = Some embs
    ∧ (regions = [] → embs = v)
    ∧ (regions ≠ [] → length embs = length regions)
    ∧ CalcEmbeddins t embs regions currFrame = Some embs.
Proof.
  destruct (decide (regions = [])) as [->|Hne].
  - exists v. by repeat split.
  - eexists. split; [by apply CalcEmbeddins_gen|]. split; [done|].
    split; [intros _; rewrite length_imap; apply length_resize_vec|].
    rewrite CalcEmbeddins_gen by done. f_equal.
    set (w := resize_vec (length regions) RegionEmbedding_default v).
    assert (length (imap (embed_slot t currFrame regions) w) = length regions) as Hl
      by (rewrite length_imap; apply length_resize_vec).
    rewrite <- Hl at 1. rewrite resize_vec_id.
    apply list_eq. intros i. rewrite !list_lookup_imap.
    destruct (w !! i) as [a|]; simpl; [|done].
    by rewrite embed_slot_idemp.
Qed.

Lemma embed_slot_kept (t : CTracker D) (currFrame : cv.UMat) (regions : regions_t)
    (i : nat) (a : RegionEmbedding) :
  m_embedding a ≠ [] →
  m_embedding (embed_slot t currFrame regions i a) = m_embedding a
  ∧ m_embDot (embed_slot t currFrame regions i a) = m_embDot a.
Proof.
  intros Ha. unfold embed_slot. destruct (regions !! i) as [reg|]; [|done].
  unfold emb_stage, hist_stage, emb_of. destruct a as [h e d]. simpl in *.
  assert (cv.Mat_empty e = false) as Ee by (by destruct e).
  destruct (Qgtb (m_distType (m_settings t) tracking.DistHist) 0),
    (Qgtb (m_distType (m_settings t) tracking.DistFeatureCos) 0); simpl;
    rewrite ?Ee; done.
Qed.

Lemma embed_slot_dot (t : CTracker D) (currFrame : cv.UMat) (regions : regions_t)
    (i : nat) (a : RegionEmbedding) :
  m_embedding a = [] →
  m_embedding (embed_slot t currFrame regions i a) ≠ [] →
  m_embDot (embed_slot t currFrame regions i a)
  = cv.dot (m_embedding (embed_slot t currFrame regions i a))
           (m_embedding (embed_slot t currFrame regions i a)).
Proof.
  unfold embed_slot. destruct (regions !! i) as [reg|]; [|done].
  unfold emb_stage, hist_stage, emb_of. destruct a as [h e d]. simpl.
  intros ->.
  destruct (Qgtb (m_distType (m_settings t) tracking.DistHist) 0),
    (Qgtb (m_distType (m_settings t) tracking.DistFeatureCos) 0); simpl; try done;
    destruct (m_embCalculators t !! m_type reg) as [c|]; simpl; done.
Qed.

(** X4. Embeddings and their cached dot product. [CalcEmbeddins] never
    recomputes an embedding that the incoming vector already holds: such a
    slot keeps its embedding and its [m_embDot]. Every embedding that the
    call itself puts into a slot (the slot was empty or new, and is not
    empty afterwards) comes with [m_embDot] equal to the dot product of the
    embedding with itself. *)
Theorem X4_embedding_dot (t : CTracker D) (v : list RegionEmbedding)
    (regions : regions_t) (currFrame : cv.UMat) :
  ∃ embs, CalcEmbeddins t v regions currFrame = Some embs
    ∧ (∀ j a e, v !! j = Some a → embs !! j = Some e → m_embedding a ≠ [] →
         m_embedding e = m_embedding a ∧ m_embDot e = m_embDot a)
    ∧ (∀ j e, embs !! j = Some e →
         (∀ a, v !! j = Some a → m_embedding a = []) →
         m_embedding e ≠ [] →
         m_embDot e = cv.dot (m_embedding e) (m_embedding e)).
Proof.
  destruct (decide (regions = [])) as [->|Hne].
  - exists v. split; [done|]. split.
    + intros j a e Ea Ee _. by simplify_eq.
    + intros j e Ee Hv He. by apply Hv in Ee.
  - eexists. split; [by apply CalcEmbeddins_gen|].
    set (M := length regions).
    assert (∀ j e,
      imap (embed_slot t currFrame regions) (resize_vec M RegionEmbedding_default v)
        !! j = Some e →
      ∃ a, e = embed_slot t currFrame regions j a
        ∧ (v !! j = Some a ∨ a = RegionEmbedding_default
                              ∧ ∀ a', v !! j = Some a' → False)) as Hslot.
    { intros j e Ee. rewrite list_lookup_imap in Ee.
      destruct (resize_vec M RegionEmbedding_default v !! j) as [a|] eqn:Ea;
        simpl in Ee; [|done].
      injection Ee as <-. exists a. split; [done|].
      unfold resize_vec in Ea. apply lookup_app_Some in Ea as [Ea|[Hlen Ea]].
      - left. by apply lookup_take_Some in Ea as [? _].
      - right. apply lookup_replicate in Ea as [-> Hlt].
        split; [done|]. intros a' Ea'. apply lookup_lt_Some in Ea'.
        rewrite length_take in Hlen, Hlt. lia. }
    split.
    + intros j a e Ea Ee Hne'.
      destruct (Hslot j e Ee) as (a' & -> & [Ea'|[_ Hno]]).
      * assert (a' = a) as -> by congruence. by apply embed_slot_kept.
      * by destruct (Hno a).
    + intros j e Ee Hv Hne'.
      destruct (Hslot j e Ee) as (a' & -> & [Ea'|[-> _]]).
      * apply embed_slot_dot; [by apply Hv | done].
      * by apply embed_slot_dot.
Qed.

(** ** Further properties of CreateDistaceMatrix *)

Lemma for_each_ext {S : Type} (body1 body2 : nat → S → option S) (idx : list nat)
    (s : S) :
  (∀ i s', body1 i s' = body2 i s') →
  for_each body1 idx s = for_each body2 idx s.
Proof.
  intros Hb. revert s. induction idx as [|i idx IH]; intros s; simpl; [done|].
  rewrite Hb. destruct (body2 i s); simpl; [apply IH | done].
Qed.

Lemma row_costs_lookup (s : TrackerSettings) (regions : regions_t)
    (regionEmbeddings : list RegionEmbedding) (maxPossibleCost : track_t)
    (track : CTrack D) (j : nat) :
  row_costs s regions regionEmbeddings maxPossibleCost track !! j
  = (reg ← regions !! j; e ← regionEmbeddings !! j;
     Some (pair_cost s track (CalcPredictionEllipse track (min_radius s track))
                     reg e maxPossibleCost)).
Proof.
  unfold row_costs. rewrite list_lookup_fmap, lookup_zip_with.
  destruct (regions !! j); simpl; [|done]. by destruct (regionEmbeddings !! j).
Qed.

Lemma length_row_costs (s : TrackerSettings) (regions : regions_t)
    (regionEmbeddings : list RegionEmbedding) (maxPossibleCost : track_t)
    (track : CTrack D) :
  length regionEmbeddings = length regions →
  length (row_costs s regions regionEmbeddings maxPossibleCost track) = length regions.
Proof. intros Hemb. unfold row_costs. rewrite length_fmap, length_zip_with. lia. Qed.

(** The running maximum that the loop over regions leaves. *)
Lemma dist_col_loop_max (s : TrackerSettings) (N i : nat) (track : CTrack D)
    (regions : regions_t) (regionEmbeddings : list RegionEmbedding)
    (maxPossibleCost : track_t) (cm cm' : list Q) (mc mc' : Q) :
  length regionEmbeddings = length regions →
  for_range (dist_col_step s N i track
               (CalcPredictionEllipse track (min_radius s track)) regions
               regionEmbeddings maxPossibleCost) (length regions) (cm, mc)
  = Some (cm', mc') →
  mc' = foldl max_step mc (row_costs s regions regionEmbeddings maxPossibleCost track).
Proof.
  intros Hemb.
  set (body := dist_col_step s N i track
                 (CalcPredictionEllipse track (min_radius s track)) regions
                 regionEmbeddings maxPossibleCost).
  set (row := row_costs s regions regionEmbeddings maxPossibleCost track).
  assert (∀ n, n ≤ length regions → ∀ st,
            for_range body n (cm, mc) = Some st →
            st.2 = foldl max_step mc (take n row)) as Hgen.
  { induction n as [|n IH]; intros Hn st E.
    - unfold for_range in E. simpl in E. injection E as <-. by rewrite take_0.
    - rewrite for_range_S in E.
      destruct (for_range body n (cm, mc)) as [[cm1 mc1]|] eqn:E1; simpl in E; [|done].
      pose proof (IH ltac:(lia) _ eq_refl) as Hmc. simpl in Hmc.
      destruct (lookup_lt_is_Some_2 regions n) as [reg Er]; [lia|].
      destruct (lookup_lt_is_Some_2 regionEmbeddings n) as [e Ee]; [lia|].
      assert (row !! n
              = Some (pair_cost s track
                        (CalcPredictionEllipse track (min_radius s track))
                        reg e maxPossibleCost)) as Erow
        by (unfold row; by rewrite row_costs_lookup, Er, Ee).
      unfold body, dist_col_step in E. rewrite Er in E. simpl in E.
      rewrite (pair_dist_eq _ _ _ _ _ _ e) in E by done. simpl in E.
      destruct (modify_at _ _ cm1) as [cm2|]; simpl in E; [|done].
      injection E as <-. simpl.
      rewrite (take_S_r _ _ _ Erow), foldl_app. simpl. by rewrite <- Hmc. }
  intros E. pose proof (Hgen (length regions) ltac:(lia) _ E) as Hmc.
  simpl in Hmc. rewrite take_ge in Hmc; [done|].
  unfold row. rewrite length_row_costs by done. lia.
Qed.

(** What [CreateDistaceMatrix] returns for any matrix of [N * M] entries
    and any incoming [maxCost]. *)
Lemma CreateDistaceMatrix_gen (t : CTracker D) (regions : regions_t)
    (regionEmbeddings : list RegionEmbedding) (cm0 : list Q)
    (maxPossibleCost mc0 : track_t) :
  length regionEmbeddings = length regions →
  length cm0 = length (m_tracks t) * length regions →
  ∃ cm,
    CreateDistaceMatrix t regions regionEmbeddings cm0 maxPossibleCost mc0
    = Some (cm, running_max (visited_costs (m_settings t) (m_tracks t) regions
                               regionEmbeddings maxPossibleCost))
    ∧ length cm = length (m_tracks t) * length regions
    ∧ ∀ i j, i < length (m_tracks t) → j < length regions →
        cm !! (i + j * length (m_tracks t))
        = cost_at (m_settings t) (m_tracks t) regions regionEmbeddings
                  maxPossibleCost i j.
Proof.
  intros Hemb Hcm0. unfold CreateDistaceMatrix.
  set (N := length (m_tracks t)) in *. set (M := length regions) in *.
  set (rows := λ tracks : list (CTrack D),
         mjoin (row_costs (m_settings t) regions regionEmbeddings maxPossibleCost
                  <$> tracks)).
  set (P := λ (i : nat) (st : list Q * Q),
         length st.1 = N * M
         ∧ (∀ i' j, i' < i → j < M →
              st.1 !! (i' + j * N)
              = cost_at (m_settings t) (m_tracks t) regions regionEmbeddings
                        maxPossibleCost i' j)
         ∧ st.2 = foldl max_step 0%Q (rows (take i (m_tracks t)))).
  destruct (for_range_inv P
              (dist_row_step (m_settings t) (m_tracks t) regions regionEmbeddings
                             maxPossibleCost) N (cm0, 0%Q))
    as ([cm mc] & E & Hl & Hall & Hmc).
  - split; [done|]. split; [intros; lia|]. by rewrite take_0.
  - intros i [cm1 mc1] Hi (Hl & Hall & Hmc). simpl in *.
    destruct (lookup_lt_is_Some_2 (m_tracks t) i Hi) as [track Et].
    unfold dist_row_step. rewrite Et. simpl.
    destruct (dist_col_loop (m_settings t) N i track
                (CalcPredictionEllipse track (min_radius (m_settings t) track))
                regions regionEmbeddings maxPossibleCost cm1 mc1)
      as (cm2 & mc2 & E2 & Hl2 & Hrow & Hframe); [done|done|done|].
    pose proof (dist_col_loop_max _ _ _ _ _ _ _ _ _ _ _ Hemb E2) as Hmc2.
    exists (cm2, mc2). split; [done|]. unfold P. simpl. split; [done|]. split.
    + intros i' j Hi' Hj.
      destruct (decide (i' = i)) as [->|Hne].
      * destruct (lookup_lt_is_Some_2 regions j Hj) as [reg Er].
        destruct (lookup_lt_is_Some_2 regionEmbeddings j) as [e Ee];
          [unfold M in Hj; lia|].
        rewrite (Hrow j reg e) by done.
        unfold cost_at. rewrite Et, Er, Ee. done.
      * rewrite Hframe; [apply Hall; lia|].
        intros j' Hj' Heq. apply index_inj in Heq as [? _]; [lia|lia|done].
    + rewrite Hmc2, Hmc. unfold rows.
      rewrite (take_S_r _ _ _ Et), fmap_app, join_app, foldl_app. simpl.
      by rewrite app_nil_r.
  - exists cm. simpl in *. rewrite E, Hmc. unfold rows.
    rewrite take_ge by (unfold N; lia). by split.
Qed.

(** Every index of the matrix is the column-major index of one pair. *)
Lemma index_split (N M k : nat) :
  k < N * M → k mod N < N ∧ k / N < M ∧ k = k mod N + k / N * N.
Proof.
  intros Hk. assert (N ≠ 0) as HN by (intros ->; lia).
  split; [by apply Nat.mod_upper_bound|]. split.
  - by apply Nat.Div0.div_lt_upper_bound.
  - pose proof (Nat.div_mod_eq k N). lia.
Qed.

(** X5. The cost matrix is overwritten entirely. Given one descriptor per
    region and a matrix of [N * M] entries, [CreateDistaceMatrix] returns,
    and neither the previous contents of the matrix nor the incoming value
    of [maxCost] has any influence on what it returns; every entry [k] of
    the result is the cost of the pair of track [k mod N] and region
    [k / N]. *)
Theorem X5_matrix_overwritten (t : CTracker D) (regions : regions_t)
    (regionEmbeddings : list RegionEmbedding) (cm0 cm0' : list Q)
    (maxPossibleCost mc0 mc0' : track_t) :
  length regionEmbeddings = length regions →
  length cm0 = length (m_tracks t) * length regions →
  length cm0' = length (m_tracks t) * length regions →
  ∃ cm mc,
    CreateDistaceMatrix t regions regionEmbeddings cm0 maxPossibleCost mc0
    = Some (cm, mc)
    ∧ CreateDistaceMatrix t regions regionEmbeddings cm0' maxPossibleCost mc0'
      = Some (cm, mc)
    ∧ length cm = length (m_tracks t) * length regions
    ∧ ∀ k, k < length (m_tracks t) * length regions →
        cm !! k
        = cost_at (m_settings t) (m_tracks t) regions regionEmbeddings
                  maxPossibleCost (k mod length (m_tracks t))
                  (k / length (m_tracks t)).
Proof.
  intros Hemb Hcm0 Hcm0'.
  destruct (CreateDistaceMatrix_gen t regions regionEmbeddings cm0 maxPossibleCost
              mc0 Hemb Hcm0) as (cm & E & Hl & Hcost).
  destruct (CreateDistaceMatrix_gen t regions regionEmbeddings cm0' maxPossibleCost
              mc0' Hemb Hcm0') as (cm' & E' & Hl' & Hcost').
  assert (∀ k, k < length (m_tracks t) * length regions →
            cm !! k
            = cost_at (m_settings t) (m_tracks t) regions regionEmbeddings
                      maxPossibleCost (k mod length (m_tracks t))
                      (k / length (m_tracks t))) as Hall.
  { intros k Hk. destruct (index_split _ _ _ Hk) as (Hi & Hj & Heq).
    rewrite Heq at 1. by apply Hcost. }
  assert (cm' = cm) as ->.
  { apply list_eq. intros k.
    destruct (decide (k < length (m_tracks t) * length regions)) as [Hk|Hk].
    - rewrite (Hall k Hk). destruct (index_split _ _ _ Hk) as (Hi & Hj & Heq).
      rewrite Heq at 1. by apply Hcost'.
    - rewrite !(proj2 (lookup_ge_None _ _)) by lia. done. }
  eexists cm, _. by repeat split.
Qed.

Lemma foldl_max_step_spec (l : list Q) (m : Q) :
  (m <= foldl max_step m l)%Q
  ∧ (∀ c, c ∈ l → (c <= foldl max_step m l)%Q)
  ∧ (foldl max_step m l = m ∨ foldl max_step m l ∈ l).
Proof.
  revert m. induction l as [|d l IH]; intros m; simpl.
  - split; [lra|]. split; [|by left]. intros c Hc. by apply elem_of_nil in Hc.
  - destruct (IH (max_step m d)) as (Hle & Hall & Hin).
    assert ((m <= max_step m d)%Q ∧ (d <= max_step m d)%Q
            ∧ (max_step m d = m ∨ max_step m d = d)) as (Hm & Hd & Hcase).
    { unfold max_step. destruct (Qgtb d m) eqn:Eg.
      - apply Qgtb_true in Eg. split; [lra|]. split; [lra | by right].
      - apply Qgtb_false in Eg. split; [lra|]. split; [lra | by left]. }
    split; [lra|]. split.
    + intros c [->|Hc]%elem_of_cons; [lra | by apply Hall].
    + destruct Hin as [Hin|Hin].
      * destruct Hcase as [Hc|Hc].
        -- left. congruence.
        -- right. rewrite Hin, Hc. apply elem_of_cons. by left.
      * right. apply elem_of_cons. by right.
Qed.

Lemma visited_costs_elem (s : TrackerSettings) (tracks : list (CTrack D))
    (regions : regions_t) (regionEmbeddings : list RegionEmbedding)
    (maxPossibleCost : track_t) (c : Q) :
  c ∈ visited_costs s tracks regions regionEmbeddings maxPossibleCost
  ↔ ∃ i j, cost_at s tracks regions regionEmbeddings maxPossibleCost i j = Some c.
Proof.
  unfold visited_costs. rewrite list_elem_of_join. split.
  - intros (row & Hc & (track & -> & Ht)%list_elem_of_fmap).
    apply list_elem_of_lookup_1 in Ht as [i Ei].
    apply list_elem_of_lookup_1 in Hc as [j Ej].
    exists i, j. unfold cost_at. rewrite Ei. simpl.
    by rewrite row_costs_lookup in Ej.
  - intros (i & j & Ec). unfold cost_at in Ec.
    destruct (tracks !! i) as [track|] eqn:Et; simpl in Ec; [|done].
    exists (row_costs s regions regionEmbeddings maxPossibleCost track). split.
    + apply (list_elem_of_lookup_2 _ j). by rewrite row_costs_lookup.
    + apply list_elem_of_fmap_2. by eapply list_elem_of_lookup_2.
Qed.

(** The [maxCost] that comes back is non-negative, bounds every entry, and
    is 0 or an entry. *)
Lemma maxCost_spec (t : CTracker D) (regions : regions_t)
    (regionEmbeddings : list RegionEmbedding) (cm0 : list Q)
    (maxPossibleCost mc0 : track_t) :
  length regionEmbeddings = length regions →
  length cm0 = length (m_tracks t) * length regions →
  ∃ cm mc,
    CreateDistaceMatrix t regions regionEmbeddings cm0 maxPossibleCost mc0
    = Some (cm, mc)
    ∧ length cm = length (m_tracks t) * length regions
    ∧ (∀ i j, i < length (m_tracks t) → j < length regions →
         cm !! (i + j * length (m_tracks t))
         = cost_at (m_settings t) (m_tracks t) regions regionEmbeddings
                   maxPossibleCost i j)
    ∧ (0 <= mc)%Q
    ∧ (∀ c, c ∈ cm → (c <= mc)%Q)
    ∧ (mc = 0%Q ∨ mc ∈ cm)
    ∧ (regions = [] → mc = 0%Q).
Proof.
  intros Hemb Hcm0.
  destruct (CreateDistaceMatrix_gen t regions regionEmbeddings cm0 maxPossibleCost
              mc0 Hemb Hcm0) as (cm & E & Hl & Hcost).
  set (vc := visited_costs (m_settings t) (m_tracks t) regions regionEmbeddings
               maxPossibleCost) in *.
  destruct (foldl_max_step_spec vc 0%Q) as (H0 & Hall & Hin).
  exists cm, (running_max vc). split; [done|]. split; [done|]. split; [done|].
  split; [done|]. split; [|split].
  - intros c [k Ek]%list_elem_of_lookup_1. apply Hall.
    assert (k < length (m_tracks t) * length regions) as Hk
      by (apply lookup_lt_Some in Ek; lia).
    destruct (index_split _ _ _ Hk) as (Hi & Hj & Heq).
    apply visited_costs_elem. eexists _, _.
    rewrite <- Hcost by done. by rewrite <- Heq.
  - destruct Hin as [Hin|Hin]; [by left|]. right.
    apply visited_costs_elem in Hin as (i & j & Ec).
    assert (i < length (m_tracks t) ∧ j < length regions) as [Hi Hj].
    { unfold cost_at in Ec.
      destruct (m_tracks t !! i) eqn:Et; simpl in Ec; [|done].
      destruct (regions !! j) eqn:Er; simpl in Ec; [|done].
      split; by eapply lookup_lt_Some. }
    apply (list_elem_of_lookup_2 _ (i + j * length (m_tracks t))).
    by rewrite Hcost.
  - intros ->. destruct Hin as [Hin|Hin]; [done|].
    apply visited_costs_elem in Hin as (i & j & Ec). unfold cost_at in Ec.
    destruct (m_tracks t !! i); simpl in Ec; done.
Qed.

(** X6. The returned [maxCost]. Whatever value comes in, the [maxCost] that
    [CreateDistaceMatrix] returns is non-negative, is at least every entry
    of the cost matrix, and is 0 or one of the entries: it is the largest
    entry when that is positive, and 0 when no entry is (in particular when
    there are no regions). *)
Theorem X6_maxCost (t : CTracker D) (regions : regions_t)
    (regionEmbeddings : list RegionEmbedding) (cm0 : list Q)
    (maxPossibleCost mc0 : track_t) :
  length regionEmbeddings = length regions →
  length cm0 = length (m_tracks t) * length regions →
  ∃ cm mc,
    CreateDistaceMatrix t regions regionEmbeddings cm0 maxPossibleCost mc0
    = Some (cm, mc)
    ∧ (0 <= mc)%Q
    ∧ (∀ c, c ∈ cm → (c <= mc)%Q)
    ∧ (mc = 0%Q ∨ mc ∈ cm)
    ∧ (regions = [] → mc = 0%Q).
Proof.
  intros Hemb Hcm0.
  destruct (maxCost_spec t regions regionEmbeddings cm0 maxPossibleCost mc0
              Hemb Hcm0) as (cm & mc & E & _ & _ & H).
  by exists cm, mc.
Qed.

Lemma pair_dist_unread (s : TrackerSettings) (track : CTrack D)
    (predictedArea : cv.RotatedRect) (reg : CRegion)
    (embs embs' : list RegionEmbedding) (j : nat) (maxPossibleCost : track_t) :
  ¬ (0 < m_distType s tracking.DistHist)%Q →
  ¬ (0 < m_distType s tracking.DistFeatureCos)%Q →
  pair_dist s track predictedArea reg embs j maxPossibleCost
  = pair_dist s track predictedArea reg embs' j maxPossibleCost.
Proof.
  intros Hh Hf. unfold pair_dist.
  unfold tracking.DistHist, tracking.DistFeatureCos in *.
  assert (Qgtb (m_distType s 3) 0 = false) as ->
    by (destruct (Qgtb (m_distType s 3) 0) eqn:E; [by apply Qgtb_true in E | done]).
  assert (Qgtb (m_distType s 4) 0 = false) as ->
    by (destruct (Qgtb (m_distType s 4) 0) eqn:E; [by apply Qgtb_true in E | done]).
  done.
Qed.

(** X7. Descriptors are not read when appearance is off. When neither the
    [DistHist] nor the [DistFeatureCos] weight is positive,
    [CreateDistaceMatrix] never indexes [regionEmbeddings]: its result is
    the same for every descriptor vector, and it returns even when the
    vector is empty. *)
Theorem X7_descriptors_unread (t : CTracker D) (regions : regions_t)
    (embs embs' : list RegionEmbedding) (cm0 : list Q)
    (maxPossibleCost mc0 : track_t) :
  ¬ (0 < m_distType (m_settings t) tracking.DistHist)%Q →
  ¬ (0 < m_distType (m_settings t) tracking.DistFeatureCos)%Q →
  CreateDistaceMatrix t regions embs cm0 maxPossibleCost mc0
  = CreateDistaceMatrix t regions embs' cm0 maxPossibleCost mc0
  ∧ (length cm0 = length (m_tracks t) * length regions →
     is_Some (CreateDistaceMatrix t regions [] cm0 maxPossibleCost mc0)).
Proof.
  intros Hh Hf.
  assert (∀ e1 e2,
            CreateDistaceMatrix t regions e1 cm0 maxPossibleCost mc0
            = CreateDistaceMatrix t regions e2 cm0 maxPossibleCost mc0) as Hsame.
  { intros e1 e2. unfold CreateDistaceMatrix, for_range.
    apply for_each_ext. intros i st. unfold dist_row_step.
    destruct (m_tracks t !! i) as [track|]; simpl; [|done].
    unfold for_range. apply for_each_ext. intros j [cm mc].
    unfold dist_col_step. destruct (regions !! j) as [reg|]; simpl; [|done].
    by rewrite (pair_dist_unread _ _ _ _ e1 e2). }
  split; [apply Hsame|]. intros Hcm0.
  rewrite (Hsame [] (replicate (length regions) RegionEmbedding_default)).
  destruct (CreateDistaceMatrix_gen t regions
              (replicate (length regions) RegionEmbedding_default) cm0
              maxPossibleCost mc0 (length_replicate _ _) Hcm0) as (cm & E & _).
  rewrite E. by eexists.
Qed.

(** ** Non-negative costs *)

Lemma add_centers_ge (s : TrackerSettings) (track : CTrack D)
    (area : cv.RotatedRect) (reg : CRegion) (dist : Q) :
  (0 <= m_distType s tracking.DistCenters)%Q →
  (0 <= IsInsideArea track (cv.center (m_rrect reg)) area)%Q →
  (dist <= add_centers s track area reg dist)%Q.
Proof.
  intros Hw He. unfold add_centers.
  destruct (Qgtb (m_distType s tracking.DistCenters) 0); [|lra].
  destruct (Qgtb _ 1); [lra | nra].
Qed.

Lemma add_rects_ge (s : TrackerSettings) (track : CTrack D)
    (area : cv.RotatedRect) (reg : CRegion) (dist : Q) :
  (0 <= m_distType s tracking.DistRects)%Q →
  (0 <= IsInsideArea track (cv.center (m_rrect reg)) area)%Q →
  (0 <= WidthDist track reg <= 1)%Q → (0 <= HeightDist track reg <= 1)%Q →
  (dist <= add_rects s track area reg dist)%Q.
Proof.
  intros Hw He Hdw Hdh. unfold add_rects.
  destruct (Qgtb (m_distType s tracking.DistRects) 0); [|lra].
  destruct (Qltb _ 1) eqn:Ee; [|lra]. apply Qltb_true in Ee.
  set (e := IsInsideArea track (cv.center (m_rrect reg)) area) in *.
  assert ((1 - e) * (WidthDist track reg + HeightDist track reg) <= 2)%Q by nra.
  nra.
Qed.

Lemma add_jaccard_ge (s : TrackerSettings) (track : CTrack D) (reg : CRegion)
    (dist : Q) :
  (0 <= m_distType s tracking.DistJaccard)%Q → (0 <= CalcDistJaccard track reg)%Q →
  (dist <= add_jaccard s track reg dist)%Q.
Proof.
  intros Hw Hj. unfold add_jaccard.
  destruct (Qgtb (m_distType s tracking.DistJaccard) 0); [nra | lra].
Qed.

Lemma add_hist_ge (s : TrackerSettings) (track : CTrack D) (e : RegionEmbedding)
    (dist : Q) :
  (0 <= m_distType s tracking.DistHist)%Q → (0 <= CalcDistHist track e)%Q →
  (dist <= add_hist s track e dist)%Q.
Proof.
  intros Hw Hh. unfold add_hist.
  destruct (Qgtb (m_distType s tracking.DistHist) 0); [nra | lra].
Qed.

Lemma add_cos_ge (s : TrackerSettings) (track : CTrack D) (reg : CRegion)
    (e : RegionEmbedding) (dist : Q) :
  (0 <= m_distType s tracking.DistFeatureCos)%Q → (0 <= CalcCosine track e)%Q →
  (dist <= add_cos s track reg e dist)%Q.
Proof.
  intros Hw Hc. unfold add_cos.
  destruct (Qgtb (m_distType s tracking.DistFeatureCos) 0); [|lra].
  destruct (m_type reg =? m_type (LastRegion track))%Z; [nra | lra].
Qed.

(** X15. Costs are non-negative and [maxCost] is the largest of them. When
    the weights and [maxPossibleCost] are non-negative, the radial distance
    in the prediction ellipse and the Jaccard, histogram and cosine
    distances are non-negative, and the width and height distances lie in
    [0, 1], every entry of the cost matrix that [CreateDistaceMatrix]
    builds is non-negative; and when the matrix has entries, the returned
    [maxCost] is (the value of) its largest entry. *)
Theorem X15_costs_nonnegative (t : CTracker D) (regions : regions_t)
    (regionEmbeddings : list RegionEmbedding) (cm0 : list Q)
    (maxPossibleCost mc0 : track_t) :
  let s := m_settings t in
  length regionEmbeddings = length regions →
  length cm0 = length (m_tracks t) * length regions →
  (∀ ind, (0 <= m_distType s ind)%Q) →
  (0 <= maxPossibleCost)%Q →
  (∀ i j track reg emb,
      m_tracks t !! i = Some track → regions !! j = Some reg →
      regionEmbeddings !! j = Some emb →
      (0 <= IsInsideArea track (cv.center (m_rrect reg))
              (CalcPredictionEllipse track (min_radius s track)))%Q
      ∧ (0 <= WidthDist track reg <= 1)%Q ∧ (0 <= HeightDist track reg <= 1)%Q
      ∧ (0 <= CalcDistJaccard track reg)%Q
      ∧ (0 <= CalcDistHist track emb)%Q
      ∧ (0 <= CalcCosine track emb)%Q) →
  ∃ cm mc,
    CreateDistaceMatrix t regions regionEmbeddings cm0 maxPossibleCost mc0
    = Some (cm, mc)
    ∧ (∀ c, c ∈ cm → (0 <= c)%Q)
    ∧ (cm ≠ [] → ∃ c, c ∈ cm ∧ (c == mc)%Q ∧ ∀ c', c' ∈ cm → (c' <= c)%Q).
Proof.
  intros s Hemb Hcm0 Hw Hmpc Hrange.
  destruct (maxCost_spec t regions regionEmbeddings cm0 maxPossibleCost mc0
              Hemb Hcm0) as (cm & mc & E & Hl & Hcost & Hmc0 & Hle & Hin & _).
  exists cm, mc. split; [done|].
  assert (∀ c, c ∈ cm → (0 <= c)%Q) as Hpos.
  { intros c [k Ek]%list_elem_of_lookup_1.
    assert (k < length (m_tracks t) * length regions) as Hk
      by (apply lookup_lt_Some in Ek; lia).
    destruct (index_split _ _ _ Hk) as (Hi & Hj & Heq).
    rewrite Heq, Hcost in Ek by done. unfold cost_at in Ek.
    destruct (m_tracks t !! (k mod length (m_tracks t))) as [track|] eqn:Et;
      simpl in Ek; [|done].
    destruct (regions !! (k / length (m_tracks t))) as [reg|] eqn:Er;
      simpl in Ek; [|done].
    destruct (regionEmbeddings !! (k / length (m_tracks t))) as [emb|] eqn:Ee;
      simpl in Ek; [|done].
    injection Ek as <-. unfold pair_cost. fold s.
    destruct (CheckType s (m_type (LastRegion track)) (m_type reg)); [|done].
    destruct (Hrange _ _ track reg emb Et Er Ee) as (He & Hdw & Hdh & Hj' & Hh & Hc).
    set (area := CalcPredictionEllipse track (min_radius s track)) in *.
    pose proof (add_centers_ge s track area reg 0 (Hw _) He) as H1.
    pose proof (add_rects_ge s track area reg
                  (add_centers s track area reg 0) (Hw _) He Hdw Hdh) as H2.
    pose proof (add_jaccard_ge s track reg
                  (add_rects s track area reg (add_centers s track area reg 0))
                  (Hw _) Hj') as H3.
    pose proof (add_hist_ge s track emb
                  (add_jaccard s track reg
                     (add_rects s track area reg (add_centers s track area reg 0)))
                  (Hw _) Hh) as H4.
    pose proof (add_cos_ge s track reg emb
                  (add_hist s track emb
                     (add_jaccard s track reg
                        (add_rects s track area reg
                           (add_centers s track area reg 0))))
                  (Hw _) Hc) as H5.
    lra. }
  split; [done|]. intros Hne.
  destruct Hin as [->|Hin].
  - destruct cm as [|c cm]; [done|]. exists c.
    assert (c ∈ c :: cm) as Hc by (apply elem_of_cons; by left).
    pose proof (Hpos c Hc). pose proof (Hle c Hc).
    split; [done|]. split; [lra|]. intros c' Hc'.
    pose proof (Hle c' Hc'). lra.
  - exists mc. split; [done|]. split; [reflexivity | done].
Qed.

(** ** Further properties of gating and removal *)

Lemma voided_mono (s1 s2 : TrackerSettings) (cm : list Q) (N i : nat) (a : Z) :
  (m_distThres s1 <= m_distThres s2)%Q →
  voided s1 cm N i a = false → voided s2 cm N i a = false.
Proof.
  intros Hle. unfold voided. destruct (a =? -1)%Z; simpl; [done|].
  destruct (lookupZ cm _) as [c|]; [|done].
  rewrite !Qgtb_false. intros Hc. lra.
Qed.

(** X8. Gating is monotone in the threshold. On the same cost matrix and
    solver output, the gating loop run with a larger [m_distThres] keeps
    every association that it keeps with the smaller one, and gives no
    track a larger skipped-frames counter. *)
Theorem X8_gating_monotone (s1 s2 : TrackerSettings) (cm : list Q) (M : nat)
    (assignment : list Z) (tracks : list (CTrack D)) :
  length cm = length tracks * M →
  assignment_wf (length tracks) M assignment →
  (m_distThres s1 <= m_distThres s2)%Q →
  ∃ a1 t1 a2 t2,
    for_range (gating_step s1 cm (length tracks)) (length assignment)
              (assignment, tracks) = Some (a1, t1)
    ∧ for_range (gating_step s2 cm (length tracks)) (length assignment)
                (assignment, tracks) = Some (a2, t2)
    ∧ (∀ i j, a1 !! i = Some (Z.of_nat j) → a2 !! i = Some (Z.of_nat j))
    ∧ (∀ i tr1 tr2, t1 !! i = Some tr1 → t2 !! i = Some tr2 →
         m_skippedFrames tr2 ≤ m_skippedFrames tr1).
Proof.
  intros Hcm Hwf Hle. eexists _, _, _, _.
  split; [by apply (gating_loop_eq s1 cm M)|].
  split; [by apply (gating_loop_eq s2 cm M)|]. split.
  - intros i j. rewrite !list_lookup_fmap, !gate_pairs_lookup.
    destruct (tracks !! i) as [tr|]; simpl; [|done].
    destruct (assignment !! i) as [a|]; simpl; [|done].
    unfold gate_assignment. intros [= E].
    destruct (voided s1 cm (length tracks) i a) eqn:Ev; [lia|].
    by rewrite (voided_mono s1 s2 _ _ _ _ Hle Ev), E.
  - intros i tr1 tr2. rewrite !list_lookup_fmap, !gate_pairs_lookup.
    destruct (tracks !! i) as [tr|]; simpl; [|done].
    destruct (assignment !! i) as [a|]; simpl; [|done].
    intros [= <-] [= <-]. unfold gate_track.
    destruct (voided s1 cm (length tracks) i a) eqn:Ev.
    + destruct (voided s2 cm (length tracks) i a); simpl; lia.
    + by rewrite (voided_mono s1 s2 _ _ _ _ Hle Ev).
Qed.

(** X14. No association above the threshold leaves the guarded block. The
    block of [UpdateTrackingState] that builds the cost matrix, calls the
    solver, gates and removes, returns (under the solver's contract); every
    track that comes out of it with a region is an old track, unchanged,
    whose cost for that region, as [CreateDistaceMatrix] computes it, is at
    most [m_distThres]; and when [m_distThres] is below the
    [maxPossibleCost] that the block passes on (the [int] product
    [cols * rows] converted to [track_t], which is 0 for a frame of
    65536 x 65536), the type check accepted the pair. *)
Theorem X14_associations_within_threshold (t : CTracker D) (regions : regions_t)
    (regionEmbeddings : list RegionEmbedding) (currFrame : cv.UMat) (fps : track_t) :
  solver_contract → is_Some (m_SPCalculator t) →
  length regionEmbeddings = length regions →
  ∃ tracks' assignment',
    associate t regions regionEmbeddings currFrame fps
              (replicate (length (m_tracks t)) (-1)%Z)
    = Some (tracks', assignment')
    ∧ ∀ k tr j, tracks' !! k = Some tr → assignment' !! k = Some (Z.of_nat j) →
        let s := m_settings t in
        let maxPossibleCost := max_possible_cost currFrame in
        ∃ reg e, tr ∈ m_tracks t ∧ regions !! j = Some reg
          ∧ regionEmbeddings !! j = Some e
          ∧ (pair_cost s tr (CalcPredictionEllipse tr (min_radius s tr)) reg e
                       maxPossibleCost <= m_distThres s)%Q
          ∧ ((m_distThres s < maxPossibleCost)%Q →
             CheckType s (m_type (LastRegion tr)) (m_type reg) = true).
Proof.
  intros Hsolver Hsp Hemb.
  destruct (associate_eq t regions regionEmbeddings currFrame fps Hsolver Hsp Hemb)
    as (cm & solved & _ & Hlen & Hwf & Hcost & Ea).
  eexists _, _. split; [exact Ea|].
  intros k tr j Et Ej s maxPossibleCost.
  rewrite list_lookup_fmap in Et. rewrite list_lookup_fmap in Ej.
  destruct (survivors (m_settings t) fps
              (gate_pairs (m_settings t) cm (m_tracks t) solved) !! k)
    as [[tr' a']|] eqn:Ek; simpl in Et, Ej; [|done].
  injection Et as ->. injection Ej as ->.
  destruct (kept_pair_origin _ _ _ _ _ _ _ _ Ek) as (i & Eti & Esi & Ev).
  destruct (wf_entry _ _ _ _ _ Hwf Esi) as [Hi [?|(j' & Hj' & HjM)]]; [lia|].
  apply Nat2Z.inj in Hj'. subst j'.
  destruct (lookup_lt_is_Some_2 regions j HjM) as [reg Er].
  destruct (lookup_lt_is_Some_2 regionEmbeddings j) as [e Ee]; [lia|].
  exists reg, e. split; [by eapply list_elem_of_lookup_2|].
  split; [done|]. split; [done|].
  pose proof (Hcost i j Hi HjM) as Ec. unfold cost_at in Ec.
  rewrite Eti, Er, Ee in Ec. simpl in Ec.
  rewrite (voided_assigned _ _ _ _ _ _ Ec) in Ev. apply Qgtb_false in Ev.
  split; [done|]. intros Hthres.
  destruct (CheckType s (m_type (LastRegion tr)) (m_type reg)) eqn:Hty; [done|].
  exfalso. unfold pair_cost in Ev. fold s in Ev. rewrite Hty in Ev.
  fold maxPossibleCost in Ev. lra.
Qed.

Lemma filter_sublist_mono {A : Type} (P : A → Prop) `{∀ x, Decision (P x)}
    (l1 l2 : list A) :
  l1 `sublist_of` l2 → filter P l1 `sublist_of` filter P l2.
Proof.
  induction 1 as [|x l1 l2 _ IH|x l1 l2 _ IH]; rewrite ?filter_cons.
  - constructor.
  - destruct (decide (P x)); [by constructor | done].
  - destruct (decide (P x)); [by constructor | done].
Qed.

(** Voiding entries of a vector removes assigned regions, and adds none. *)
Lemma voiding_sublist (g : nat → Z → Z) (l : list Z) :
  (∀ i a, g i a = a ∨ g i a = (-1)%Z) →
  filter (λ a, a ≠ (-1)%Z) (imap g l) `sublist_of` filter (λ a, a ≠ (-1)%Z) l.
Proof.
  revert g. induction l as [|a l IH]; intros g Hg; [constructor|].
  rewrite imap_cons, !filter_cons.
  assert (filter (λ a, a ≠ (-1)%Z) (imap (g ∘ S) l)
            `sublist_of` filter (λ a, a ≠ (-1)%Z) l) as Hrest
    by (apply IH; intros i b; apply Hg).
  destruct (Hg 0 a) as [->| ->].
  - destruct (decide (a ≠ (-1)%Z)); [by constructor | done].
  - rewrite decide_False by (intros Hne; by apply Hne).
    destruct (decide (a ≠ (-1)%Z)); [by constructor | done].
Qed.

Lemma gate_pairs_snd (s : TrackerSettings) (cm : list Q)
    (tracks : list (CTrack D)) (assignment : list Z) :
  length assignment = length tracks →
  (gate_pairs s cm tracks assignment).*2
  = imap (λ i a, gate_assignment s cm (length tracks) i a) assignment.
Proof.
  intros Hlen. apply list_eq. intros i.
  rewrite list_lookup_fmap, gate_pairs_lookup, list_lookup_imap.
  destruct (assignment !! i) as [a|] eqn:Ea; simpl.
  - destruct (lookup_lt_is_Some_2 tracks i) as [tr ->];
      [apply lookup_lt_Some in Ea; lia | done].
  - by destruct (tracks !! i).
Qed.

Lemma NoDup_assigned_inj (l : list Z) (i i' : nat) (a : Z) :
  NoDup (filter (λ a, a ≠ (-1)%Z) l) → a ≠ (-1)%Z →
  l !! i = Some a → l !! i' = Some a → i = i'.
Proof.
  revert i i'. induction l as [|x l IH]; intros i i' Hnd Ha Ei Ei'; [done|].
  rewrite filter_cons in Hnd.
  destruct (decide (x ≠ (-1)%Z)) as [Hx|Hx].
  - apply NoDup_cons in Hnd as [Hnin Hnd].
    destruct i as [|i], i' as [|i']; simpl in Ei, Ei'.
    + done.
    + injection Ei as ->. exfalso. apply Hnin.
      apply list_elem_of_filter. split; [done | by eapply list_elem_of_lookup_2].
    + injection Ei' as ->. exfalso. apply Hnin.
      apply list_elem_of_filter. split; [done | by eapply list_elem_of_lookup_2].
    + f_equal. by apply IH.
  - destruct i as [|i], i' as [|i']; simpl in Ei, Ei'.
    + done.
    + injection Ei as ->. done.
    + injection Ei' as ->. done.
    + f_equal. by apply IH.
Qed.

(** X9. Gating and removal keep the assignment one-to-one. When the solver
    gives no region to two tracks, neither does the assignment vector that
    leaves the guarded block of [UpdateTrackingState]: the gating loop only
    voids entries, the removal loop only erases them, so no region is used
    to update two tracks. *)
Theorem X9_no_region_shared (t : CTracker D) (regions : regions_t)
    (regionEmbeddings : list RegionEmbedding) (currFrame : cv.UMat) (fps : track_t) :
  solver_contract → solver_injective → is_Some (m_SPCalculator t) →
  length regionEmbeddings = length regions →
  ∃ tracks' assignment',
    associate t regions regionEmbeddings currFrame fps
              (replicate (length (m_tracks t)) (-1)%Z)
    = Some (tracks', assignment')
    ∧ NoDup (filter (λ a, a ≠ (-1)%Z) assignment')
    ∧ ∀ k k' j, assignment' !! k = Some (Z.of_nat j) →
        assignment' !! k' = Some (Z.of_nat j) → k = k'.
Proof.
  intros Hsolver Hinj Hsp Hemb.
  destruct (associate_eq t regions regionEmbeddings currFrame fps Hsolver Hsp Hemb)
    as (cm & solved & Esolve & Hlen & Hwf & _ & Ea).
  eexists _, _. split; [exact Ea|].
  assert (NoDup (filter (λ a, a ≠ (-1)%Z) solved)) as Hnd.
  { unfold solve_frame in Esolve.
    destruct (CreateDistaceMatrix _ _ _ _ _ _) as [[cm1 mc1]|]; simpl in Esolve;
      [|done].
    destruct (m_SPCalculator t) as [sp|]; simpl in Esolve; [|done].
    injection Esolve as _ <-. apply Hinj. }
  assert (NoDup (filter (λ a, a ≠ (-1)%Z)
                   (survivors (m_settings t) fps
                      (gate_pairs (m_settings t) cm (m_tracks t) solved)).*2))
    as Hnd'.
  { eapply sublist_NoDup; [exact Hnd|].
    etrans; [|apply (voiding_sublist
                       (λ i a, gate_assignment (m_settings t) cm
                                 (length (m_tracks t)) i a))].
    - rewrite <- gate_pairs_snd by apply Hwf.
      apply filter_sublist_mono, fmap_sublist. unfold survivors.
      apply sublist_filter.
    - intros i a. unfold gate_assignment.
      destruct (voided _ _ _ _ _); [by right | by left]. }
  split; [done|]. intros k k' j Ek Ek'.
  eapply NoDup_assigned_inj; [exact Hnd'| |exact Ek|exact Ek']. lia.
Qed.

(** ** Further properties of one frame *)

Lemma filter_all {A : Type} (P : A → Prop) `{∀ x, Decision (P x)} (l : list A) :
  (∀ x, P x) → filter P l = l.
Proof.
  intros HP. induction l as [|x l IH]; [done|].
  by rewrite filter_cons_True, IH by done.
Qed.

(** With an empty assignment vector every region is unassigned. *)
Lemma newborns_all (t : CTracker D) (regions : regions_t) (currFrame : cv.UMat) :
  newborns (m_settings t) (m_nextTrackID t)
           (unassigned [] (zip regions (region_embedding t currFrame <$> regions)))
  = imap (λ k reg, born (m_settings t) reg (region_embedding t currFrame reg)
                        (m_nextTrackID t + k)) regions.
Proof.
  unfold unassigned, newborns. rewrite filter_all by done.
  apply list_eq. intros k.
  rewrite !list_lookup_imap, lookup_zip_with, list_lookup_fmap.
  by destruct (regions !! k).
Qed.

(** X10. A tracker without tracks. When [m_tracks] is empty, [Update]
    returns without building a cost matrix and without calling the solver
    (it returns even when there is no solver): it starts one track per
    region, in the order of the regions, with consecutive identifiers from
    the counter on, advances the counter by the number of regions, and
    stores the frame. *)
Theorem X10_no_tracks_all_born (sched : nat → list nat) (t : CTracker D)
    (regions : regions_t) (currFrame : cv.UMat) (fps : track_t) :
  schedule sched → m_tracks t = [] →
  ∃ t', Update_sched sched t regions currFrame fps = Some t'
    ∧ m_tracks t'
      = imap (λ k reg,
                CTrack_new_emb reg (region_embedding t currFrame reg)
                  (m_kalmanType (m_settings t)) (m_dt (m_settings t))
                  (m_accelNoiseMag (m_settings t)) (m_useAcceleration (m_settings t))
                  (m_nextTrackID t + k)
                  (tracking.FilterGoal_eqb (m_filterGoal (m_settings t))
                                           tracking.FilterRect)
                  (m_lostTrackType (m_settings t))) regions
    ∧ m_nextTrackID t' = m_nextTrackID t + length regions
    ∧ m_prevFrame t' = currFrame.
Proof.
  intros Hsched Ht.
  unfold Update_sched, UpdateTrackingState_sched.
  rewrite CalcEmbeddins_eq, Ht. simpl.
  rewrite birth_loop_eq by apply length_fmap. simpl.
  assert (sched 0 = []) as -> by (apply Permutation_nil_r, (Hsched 0)).
  simpl. eexists. split; [reflexivity|]. simpl.
  rewrite newborns_all. split; [done|]. split; [|done].
  f_equal. unfold unassigned. rewrite filter_all by done.
  rewrite length_imap, length_zip_with, length_fmap. lia.
Qed.

(** The regions that some kept pair names are no more than the kept
    pairs. *)
Lemma assigned_regions_le (kept : list Z) (M : nat) :
  length (filter (λ j, Z.of_nat j ∈ kept) (seq 0 M)) ≤ length kept.
Proof.
  rewrite <- (length_fmap Z.of_nat). apply submseteq_length, NoDup_submseteq.
  - apply (NoDup_fmap_2 _), NoDup_filter, NoDup_seq.
  - intros a (j & -> & Hj)%list_elem_of_fmap.
    by apply list_elem_of_filter in Hj as [? _].
Qed.

Lemma unassigned_regions_ge (kept : list Z) (M : nat) :
  M ≤ length kept + length (filter (λ j, Z.of_nat j ∉ kept) (seq 0 M)).
Proof.
  pose proof (assigned_regions_le kept M) as Hle.
  pose proof (filter_app_complement (λ j, Z.of_nat j ∈ kept) (seq 0 M)) as Hp.
  apply Permutation_length in Hp. rewrite length_app, length_seq in Hp.
  unfold not in Hp. unfold not. lia.
Qed.

(** X11. Every region ends the frame with a track. After [Update] (under
    the solver's contract) every region of the frame either was used to
    update a track that outlived the frame, through the overload that takes
    its descriptor and with the skipped-frames counter reset, or started a
    new track whose identifier was issued in this frame. Hence there are at
    least as many tracks as regions after the call, and at most as many as
    old tracks and regions together. *)
Theorem X11_every_region_tracked (sched : nat → list nat) (t : CTracker D)
    (regions : regions_t) (currFrame : cv.UMat) (fps : track_t) :
  solver_contract → schedule sched → is_Some (m_SPCalculator t) →
  ∃ t', Update_sched sched t regions currFrame fps = Some t'
    ∧ length regions ≤ length (m_tracks t')
    ∧ length (m_tracks t') ≤ length (m_tracks t) + length regions
    ∧ ∀ j reg, regions !! j = Some reg →
        ∃ i tr', m_tracks t' !! i = Some tr'
          ∧ ((∃ tr, tr ∈ m_tracks t
                ∧ tr' = Track_Update_emb (set_SkippedFrames 0 tr) reg
                          (region_embedding t currFrame reg) true
                          (m_maxTraceLength (m_settings t)) (m_prevFrame t)
                          currFrame (traj_len (m_settings t) fps)
                          (m_maxSpeedForStatic (m_settings t)))
             ∨ (∃ id, m_nextTrackID t ≤ id < m_nextTrackID t'
                  ∧ tr' = CTrack_new_emb reg (region_embedding t currFrame reg)
                            (m_kalmanType (m_settings t)) (m_dt (m_settings t))
                            (m_accelNoiseMag (m_settings t))
                            (m_useAcceleration (m_settings t)) id
                            (tracking.FilterGoal_eqb (m_filterGoal (m_settings t))
                                                     tracking.FilterRect)
                            (m_lostTrackType (m_settings t)))).
Proof.
  intros Hsolver Hsched Hsp.
  destruct (Update_sched_eq sched t regions currFrame fps Hsolver Hsp Hsched)
    as (kept & Ek & Hwf & EU).
  eexists. split; [exact EU|]. simpl.
  set (embs := region_embedding t currFrame <$> regions).
  set (unb := filter (λ j, Z.of_nat j ∉ kept.*2) (seq 0 (length regions))).
  assert (length (newborns (m_settings t) (m_nextTrackID t)
                    (unassigned_now t regions currFrame kept)) = length unb) as Hnb
    by (unfold newborns; by rewrite length_imap, unassigned_now_length).
  rewrite length_app, length_fmap, Hnb. split; [|split].
  - pose proof (unassigned_regions_ge kept.*2 (length regions)) as Hge.
    rewrite length_fmap in Hge. exact Hge.
  - assert (length kept ≤ length (m_tracks t)) as Hk.
    { pose proof (kept_pairs_ids _ _ _ _ _ Hsolver Ek) as Hsub.
      apply sublist_length in Hsub. unfold ids in Hsub.
      by rewrite !length_fmap in Hsub. }
    pose proof (length_filter (λ j, Z.of_nat j ∉ kept.*2) (seq 0 (length regions)))
      as Hu.
    rewrite length_seq in Hu. fold unb in Hu. lia.
  - intros j reg Er.
    destruct (decide (Z.of_nat j ∈ kept.*2)) as [Hin|Hnin].
    + apply list_elem_of_lookup_1 in Hin as [i Ei]. rewrite list_lookup_fmap in Ei.
      destruct (kept !! i) as [[tr a]|] eqn:Eki; simpl in Ei; [|done].
      injection Ei as ->.
      eexists i, _. split.
      * rewrite lookup_app_l
          by (rewrite length_fmap; by eapply lookup_lt_Some).
        rewrite list_lookup_fmap, Eki. simpl. reflexivity.
      * left. exists tr. split.
        -- destruct (kept_pairs_eq t regions currFrame fps Hsolver Hsp)
             as (cm & solved & E & _ & _ & _ & Ek').
           assert (m_tracks t ≠ []) as Hne.
           { intros Hnil. unfold kept_pairs in Ek. rewrite Hnil in Ek.
             simpl in Ek. injection Ek as <-. done. }
           rewrite Ek in Ek'. injection Ek' as ->.
           destruct (kept_pair_origin _ _ _ _ _ _ _ _ Eki) as (i0 & Eti & _).
           by eapply list_elem_of_lookup_2.
        -- apply updated_track_assigned; [done|].
           unfold embs. by rewrite list_lookup_fmap, Er.
    + assert (j ∈ unb) as [k Ekj]%list_elem_of_lookup_1.
      { apply list_elem_of_filter. split; [done|].
        apply elem_of_seq. apply lookup_lt_Some in Er. lia. }
      destruct (newborns_lookup t regions currFrame kept k j Ekj)
        as (reg' & Er' & En).
      assert (reg' = reg) as -> by congruence.
      eexists (length kept + k), _. split.
      * rewrite lookup_app_r by (rewrite length_fmap; lia).
        rewrite length_fmap.
        replace (length kept + k - length kept) with k by lia. exact En.
      * right. exists (m_nextTrackID t + k). split; [|done].
        apply lookup_lt_Some in Ekj. rewrite unassigned_now_length. fold unb. lia.
Qed.

(** ** The order of the tracks *)

Lemma increasing_cons (x : nat) (l : list nat) :
  increasing (x :: l) ↔ (∀ y, y ∈ l → x < y) ∧ increasing l.
Proof.
  split.
  - intros Hinc. split.
    + intros y [k Ek]%list_elem_of_lookup_1.
      apply (Hinc 0 (S k) x y); [lia | done | done].
    + intros i j a b Hij Ei Ej. apply (Hinc (S i) (S j) a b); [lia | done | done].
  - intros [Hx Hinc] [|i] [|j] a b Hij Ei Ej; simpl in Ei, Ej; try lia.
    + injection Ei as <-. apply Hx. by eapply list_elem_of_lookup_2.
    + apply (Hinc i j a b); [lia | done | done].
Qed.

Lemma increasing_sublist (l1 l2 : list nat) :
  l1 `sublist_of` l2 → increasing l2 → increasing l1.
Proof.
  induction 1 as [|x l1 l2 Hsub IH|x l1 l2 Hsub IH]; [done|..].
  - rewrite !increasing_cons. intros [Hx Hinc]. split; [|by apply IH].
    intros y Hy. apply Hx. by eapply elem_of_sublist.
  - rewrite increasing_cons. intros [_ Hinc]. by apply IH.
Qed.

Lemma increasing_app (l1 l2 : list nat) :
  increasing l1 → increasing l2 → (∀ a b, a ∈ l1 → b ∈ l2 → a < b) →
  increasing (l1 ++ l2).
Proof.
  induction l1 as [|x l1 IH]; intros H1 H2 H12; [done|].
  simpl. apply increasing_cons in H1 as [Hx H1]. apply increasing_cons. split.
  - intros y [Hy|Hy]%elem_of_app; [by apply Hx|].
    apply H12; [apply elem_of_cons; by left | done].
  - apply IH; [done|done|]. intros a b Ha Hb.
    apply H12; [apply elem_of_cons; by right | done].
Qed.

Lemma increasing_seq (n k : nat) : increasing (seq n k).
Proof.
  intros i j a b Hij Ei Ej.
  apply lookup_seq in Ei as [-> _]. apply lookup_seq in Ej as [-> _]. lia.
Qed.

(** X12. Tracks are stored in the order of their creation. In every state
    that a tracker can reach, the identifiers of [m_tracks] are strictly
    increasing along the vector: removal keeps the order of the tracks that
    stay, and new tracks are appended with fresh, larger identifiers. So
    the first track is always the oldest one alive and the last one the
    newest. *)
Theorem X12_tracks_in_creation_order (settings : TrackerSettings) (t : CTracker D) :
  track_id_contract → solver_contract → reachable settings t →
  ∀ i j a b, i < j → ids t !! i = Some a → ids t !! j = Some b → a < b.
Proof.
  intros Hid Hsolver Hr. change (increasing (ids t)).
  induction Hr as [t E|sched t regions currFrame fps t' Hr IH Hsched E].
  - destruct (CTracker_new_eq settings) as (t0 & E0 & _ & Ht & _).
    rewrite E0 in E. injection E as <-. unfold ids. rewrite Ht.
    intros i j a b _ Ei. done.
  - destruct (reachable_ok settings t Hid Hsolver Hr) as ([_ Hlt] & Hsp & _).
    destruct (Update_sched_eq sched t regions currFrame fps Hsolver Hsp Hsched)
      as (kept & Ek & _ & E').
    rewrite E' in E. injection E as <-.
    rewrite set_prevFrame_ids, next_state_ids by done.
    pose proof (kept_pairs_ids _ _ _ _ _ Hsolver Ek) as Hsub.
    apply increasing_app.
    + by eapply increasing_sublist.
    + apply increasing_seq.
    + intros a b Ha Hb. apply elem_of_seq in Hb.
      pose proof (Hlt a (elem_of_sublist _ _ _ Ha Hsub)). lia.
Qed.

(** ** The configuration *)

Lemma Update_sched_config (sched : nat → list nat) (t : CTracker D)
    (regions : regions_t) (currFrame : cv.UMat) (fps : track_t) (t' : CTracker D) :
  Update_sched sched t regions currFrame fps = Some t' →
  m_settings t' = m_settings t ∧ m_SPCalculator t' = m_SPCalculator t
  ∧ m_embCalculators t' = m_embCalculators t.
Proof.
  unfold Update_sched, UpdateTrackingState_sched.
  destruct (CalcEmbeddins t [] regions currFrame) as [embs|]; simpl; [|done].
  destruct (if negb (vec_empty (m_tracks t)) then _ else _)
    as [[tracks assignment]|]; simpl; [|done].
  destruct (for_range _ _ _) as [[tracks' nextID]|]; simpl; [|done].
  destruct (for_each _ _ _) as [tracks''|]; simpl; [|done].
  by intros [= <-].
Qed.

(** X13. [Update] never touches the configuration. In every state that a
    tracker built from [settings] can reach, after any number of frames and
    whatever they contained, the settings are the ones given to the
    constructor, and the solver and the table of embedding calculators are
    the ones the constructor set up; in particular the solver is never
    null. No assumption on the solver or on the tracks is needed. *)
Theorem X13_configuration_frozen (settings : TrackerSettings) (t : CTracker D) :
  reachable settings t →
  ∃ t0, CTracker_new settings = Some t0
    ∧ m_settings t = settings
    ∧ m_SPCalculator t = m_SPCalculator t0
    ∧ m_embCalculators t = m_embCalculators t0
    ∧ is_Some (m_SPCalculator t).
Proof.
  intros Hr.
  destruct (CTracker_new_eq settings) as (t0 & E0 & Hs & _ & _ & _ & Hsp & _).
  exists t0. split; [done|].
  induction Hr as [t E|sched t regions currFrame fps t' Hr IH Hsched E].
  - rewrite E0 in E. by injection E as <-.
  - destruct IH as (IHs & IHsp & IHe & IHis).
    destruct (Update_sched_config _ _ _ _ _ _ E) as (-> & -> & ->). done.
Qed.

End Tracker.

(** ** The stand-ins meet the contracts *)

#[local] Existing Instances Ref.track_ops Ref.solver_ops Ref.emb_ops Ref.hist_ops.

Lemma best_free_elem (cm : list Q) (N i : nat) (used cands : list nat)
    (best : option (nat * Q)) (j : nat) :
  Ref.best_free cm N i used cands best = Some j →
  j ∈ cands ∨ ∃ c, best = Some (j, c).
Proof.
  revert best. induction cands as [|k cands IH]; intros best; simpl.
  - destruct best as [[j' c]|]; simpl; [|done]. intros [= ->]. right. by exists c.
  - destruct (bool_decide (k ∈ used)).
    + intros [Hin|Hb]%IH; [left; apply elem_of_cons; by right | by right].
    + destruct best as [[jb cb]|].
      * destruct (Qltb _ cb).
        -- intros [Hin|(c & [= -> _])]%IH; left; apply elem_of_cons; auto.
        -- intros [Hin|Hb]%IH; [left; apply elem_of_cons; by right | by right].
      * intros [Hin|(c & [= -> _])]%IH; left; apply elem_of_cons; auto.
Qed.

Lemma greedy_rows_length (cm : list Q) (N M : nat) (rows used : list nat) :
  length (Ref.greedy_rows cm N M rows used) = length rows.
Proof.
  revert used. induction rows as [|i rows IH]; intros used; simpl; [done|].
  destruct (Ref.best_free _ _ _ _ _ _); simpl; by rewrite IH.
Qed.

Lemma greedy_rows_range (cm : list Q) (N M : nat) (rows used : list nat) (a : Z) :
  a ∈ Ref.greedy_rows cm N M rows used →
  a = (-1)%Z ∨ (0 ≤ a < Z.of_nat M)%Z.
Proof.
  revert used. induction rows as [|i rows IH]; intros used; simpl.
  - intros Hin. by apply elem_of_nil in Hin.
  - destruct (Ref.best_free cm N i used (seq 0 M) None) as [j|] eqn:Ej.
    + intros [->|Hin]%elem_of_cons; [|by eapply IH].
      apply best_free_elem in Ej as [Hj|(c & Hc)]; [|done].
      apply elem_of_seq in Hj. right. lia.
    + intros [->|Hin]%elem_of_cons; [by left | by eapply IH].
Qed.

(** The greedy stand-in meets the solver's contract. *)
Lemma greedy_solver_contract : solver_contract.
Proof.
  intros sp cm N M assignment mc Hlen. simpl. split.
  - by rewrite greedy_rows_length, length_seq.
  - intros i a Ea. eapply greedy_rows_range. by eapply list_elem_of_lookup_2.
Qed.

(** The stand-in for [CTrack] meets the contract on identifiers. *)
Lemma ref_track_id_contract : track_id_contract.
Proof. by repeat split. Qed.

Lemma schedule_backwards : schedule Ref.backwards.
Proof. intros n. unfold Ref.backwards. apply reverse_Permutation. Qed.

(** ** The claims on concrete frames *)

(** The tracker with two tracks on a frame with a near and a far region.
    The solver pairs track 0 with region 0 and track 1 with region 1; the
    second pair costs 2, above the threshold 4/5, so gating voids it and
    track 1 reaches two skipped frames; the removal loop erases track 1 and
    its slot; the update loop runs on track 0 alone, and the far region
    starts the track with identifier 2. *)
Lemma C1_gating_witness :
  ∃ cm solved assignment' tracks' (kept : list (CTrack Ref.TrackData * Z)) t',
    solve_frame Ref.two_tracks [Ref.regA'; Ref.regFar]
      (region_embedding Ref.two_tracks (Ref.frame 640 480)
         <$> [Ref.regA'; Ref.regFar]) (Ref.frame 640 480)
    = Some (cm, solved)
    ∧ for_range (gating_step Ref.settings cm 2) (length solved)
        (solved, m_tracks Ref.two_tracks) = Some (assignment', tracks')
    ∧ Update_sched Ref.backwards Ref.two_tracks [Ref.regA'; Ref.regFar]
        (Ref.frame 640 480) 25 = Some t'
    ∧ solved = [0; 1]%Z
    ∧ assignment' = [0; -1]%Z
    ∧ m_skippedFrames <$> tracks' = [0; 2]
    ∧ kept.*2 = [0%Z]
    ∧ ids t' = [0; 2]
    ∧ m_skippedFrames <$> m_tracks t' = [0; 0].
Proof.
  assert (is_Some (m_SPCalculator Ref.two_tracks)) as Hsp by (by eexists).
  assert (m_tracks Ref.two_tracks ≠ []) as Hne by done.
  pose proof (C1_gating Ref.backwards Ref.two_tracks [Ref.regA'; Ref.regFar]
                (Ref.frame 640 480) 25 greedy_solver_contract schedule_backwards
                Hsp Hne) as H.
  cbv zeta in H.
  destruct H as (cm & solved & a' & t1 & kept & t' & E & Eg & _ & _ & _ & _ & _
                 & _ & Hk & _ & EU & _).
  exists cm, solved, a', t1, kept, t'.
  split; [exact E|]. split; [exact Eg|]. split; [exact EU|].
  vm_compute in E. injection E as <- <-.
  vm_compute in Eg. injection Eg as <- <-.
  vm_compute in EU. injection EU as <-.
  rewrite Hk. repeat split; vm_compute; reflexivity.
Defined.

(** The second frame of a tracker with two tracks: track 1 has skipped two
    frames by the time of the removal loop and is erased; its identifier is
    gone after [Update], track 0 stays and a new track gets identifier 2. *)
Lemma C2_retirement_witness :
  ∃ t', Update_sched Ref.backwards Ref.two_tracks [Ref.regA'; Ref.regFar]
          (Ref.frame 640 480) 25 = Some t'
    ∧ ids t' = [0; 2]
    ∧ 1 ∉ ids t'.
Proof.
  assert (is_Some (m_SPCalculator Ref.two_tracks)) as Hsp by (by eexists).
  assert (ids_ok Ref.two_tracks) as Hids.
  { split.
    - apply NoDup_cons. split; [|apply NoDup_singleton].
      rewrite list_elem_of_singleton. simpl. lia.
    - intros id Hin. apply list_elem_of_In in Hin. simpl in Hin.
      destruct Hin as [<-|[<-|[]]]; simpl; lia. }
  destruct (C2_retirement Ref.backwards Ref.two_tracks [Ref.regA'; Ref.regFar]
              (Ref.frame 640 480) 25 ref_track_id_contract greedy_solver_contract
              schedule_backwards Hsp Hids)
    as (_ & _ & cm & solved & t' & E & EU & H).
  exists t'. split; [exact EU|].
  vm_compute in E. injection E as <- <-.
  split.
  - vm_compute in EU. injection EU as <-. reflexivity.
  - apply (H (Ref.track 1 2 Ref.regB) (-1)%Z); [|reflexivity].
    apply list_elem_of_In. vm_compute. right. left. reflexivity.
Defined.

(** Three frames from a new tracker: two regions, then one near and one far
    region, then none. Identifiers 0, 1 and 2 are issued; track 1 is erased
    in the third frame; whatever comes later, identifier 1 is not used
    again. *)
Lemma C3_birth_and_ids_witness :
  ∃ t0 t1 t2 t3 : CTracker Ref.TrackData,
    CTracker_new Ref.settings = Some t0 ∧ m_nextTrackID t0 = 0
    ∧ Update t0 [Ref.regA; Ref.regB] (Ref.frame 640 480) 25 = Some t1
    ∧ ids t1 = [0; 1]
    ∧ Update t1 [Ref.regA'; Ref.regFar] (Ref.frame 640 480) 25 = Some t2
    ∧ ids t2 = [0; 1; 2]
    ∧ Update t2 [] (Ref.frame 640 480) 25 = Some t3
    ∧ ids t3 = [0; 2] ∧ m_nextTrackID t3 = 3
    ∧ NoDup (ids t3)
    ∧ ∀ t', later t3 t' → 1 ∉ ids t'.
Proof.
  destruct (C3_birth_and_ids Ref.settings ref_track_id_contract
              greedy_solver_contract) as [_ Hall].
  assert (∃ t0 : CTracker Ref.TrackData,
            CTracker_new Ref.settings = Some t0 ∧ m_nextTrackID t0 = 0
            ∧ ∃ t1, Update t0 [Ref.regA; Ref.regB] (Ref.frame 640 480) 25 = Some t1
              ∧ ids t1 = [0; 1]
              ∧ ∃ t2, Update t1 [Ref.regA'; Ref.regFar] (Ref.frame 640 480) 25
                      = Some t2
                ∧ ids t2 = [0; 1; 2]
                ∧ ∃ t3, Update t2 [] (Ref.frame 640 480) 25 = Some t3
                  ∧ ids t3 = [0; 2] ∧ m_nextTrackID t3 = 3)
    as (t0 & E0 & Hn0 & t1 & E1 & Hi1 & t2 & E2 & Hi2 & t3 & E3 & Hi3 & Hn3).
  { eexists. split; [vm_compute; reflexivity|]. split; [reflexivity|].
    eexists. split; [vm_compute; reflexivity|]. split; [reflexivity|].
    eexists. split; [vm_compute; reflexivity|]. split; [reflexivity|].
    eexists. split; [vm_compute; reflexivity|]. split; reflexivity. }
  assert (reachable Ref.settings t3) as Hr.
  { eapply reach_update; [|apply schedule_seq|exact E3].
    eapply reach_update; [|apply schedule_seq|exact E2].
    eapply reach_update; [|apply schedule_seq|exact E1].
    by apply reach_new. }
  destruct (Hall t3 Hr) as (Hnd & _ & _ & Hlater).
  exists t0, t1, t2, t3. repeat (split; [done|]).
  intros t' Hl. apply (Hlater t' 1 Hl).
  - rewrite Hn3. lia.
  - rewrite Hi3. intros Hin. apply list_elem_of_In in Hin. simpl in Hin.
    destruct Hin as [?|[?|[]]]; lia.
Defined.

(** A Centers weight of 400000 on a 640 x 480 frame: the far region is
    type-compatible with the track and costs 400000, more than
    [maxPossibleCost = 307200]. And on a frame of 65536 x 65536 the [int]
    product wraps: [maxPossibleCost] is 0, not the area of the frame. *)
Lemma C4_counterexample :
  CreateDistaceMatrix (Ref.tracker Ref.heavy_settings [Ref.track 0 0 Ref.regA] 1)
    [Ref.regFar] [RegionEmbedding_default] [0%Q]
    (max_possible_cost (Ref.frame 640 480)) 0%Q
  = Some ([400000%Q], 400000%Q)
  ∧ CheckType Ref.heavy_settings (m_type (LastRegion (Ref.track 0 0 Ref.regA)))
              (m_type Ref.regFar) = true
  ∧ max_possible_cost (Ref.frame 640 480) = inject_Z (640 * 480)
  ∧ ¬ (400000 <= max_possible_cost (Ref.frame 640 480))%Q
  ∧ max_possible_cost (Ref.frame 65536 65536) = 0%Q.
Proof.
  split; [vm_compute; reflexivity|]. split; [reflexivity|].
  split; [vm_compute; reflexivity|]. split; [|vm_compute; reflexivity].
  vm_compute. intros H. by apply H.
Defined.

(** With weights [{1, 1, 0, 0, 0}] on a 640 x 480 frame: [maxPossibleCost]
    is the area of the frame, and the entry of the compatible pair of
    track 0 and the near region is the same when the matrix is built with
    a [maxPossibleCost] of 0. *)
Lemma C4_cost_bound_witness :
  ∃ cm mc cm' mc',
    CreateDistaceMatrix Ref.two_tracks [Ref.regA'; Ref.regFar]
      [RegionEmbedding_default; RegionEmbedding_default] (replicate (2 * 2) 0%Q)
      (max_possible_cost (Ref.frame 640 480)) 0%Q = Some (cm, mc)
    ∧ max_possible_cost (Ref.frame 640 480) = inject_Z (640 * 480)
    ∧ CreateDistaceMatrix Ref.two_tracks [Ref.regA'; Ref.regFar]
        [RegionEmbedding_default; RegionEmbedding_default] (replicate (2 * 2) 0%Q)
        0%Q 0%Q = Some (cm', mc')
    ∧ cm' !! 0 = cm !! 0.
Proof.
  pose proof (C4_cost_bound Ref.two_tracks [Ref.regA'; Ref.regFar]
                [RegionEmbedding_default; RegionEmbedding_default]
                (Ref.frame 640 480) 0%Q) as H.
  cbv zeta in H. destruct (H eq_refl) as (Hexact & cm & mc & E & Hall).
  destruct (Hall 0 0 (Ref.track 0 0 Ref.regA) Ref.regA' eq_refl eq_refl)
    as [_ Hacc].
  destruct (Hacc eq_refl) as (emb & _ & _ & Hindep).
  destruct (Hindep 0%Q 0%Q) as (cm' & mc' & E' & Heq).
  exists cm, mc, cm', mc'. split; [exact E|]. split; [|split; [exact E' | exact Heq]].
  apply Hexact. simpl. lia.
Defined.

(** The entry for track 0 and the near region in the same frame. *)
Lemma C5_cost_terms_witness :
  ∃ cm mc,
    CreateDistaceMatrix Ref.two_tracks [Ref.regA'; Ref.regFar]
      [RegionEmbedding_default; RegionEmbedding_default] (replicate (2 * 2) 0%Q)
      (inject_Z (640 * 480)) 0%Q = Some (cm, mc)
    ∧ ∃ c, cm !! 0 = Some c ∧ (c == 1 # 128)%Q.
Proof.
  assert (∀ ind, (0 <= m_distType (m_settings Ref.two_tracks) ind)%Q) as Hw.
  { intros [|[|ind]]; vm_compute; discriminate. }
  destruct (C5_cost_terms Ref.two_tracks [Ref.regA'; Ref.regFar]
              [RegionEmbedding_default; RegionEmbedding_default]
              (inject_Z (640 * 480)) 0%Q eq_refl Hw) as (cm & mc & E & Hall).
  destruct (Hall 0 0 (Ref.track 0 0 Ref.regA) Ref.regA' RegionEmbedding_default
              eq_refl eq_refl eq_refl eq_refl) as [Ec _].
  exists cm, mc. split; [exact E|]. eexists. split; [exact Ec|].
  vm_compute. reflexivity.
Defined.

(** An empty frame for the tracker with two tracks: both skip the frame,
    track 1 (now at two skipped frames) is erased, track 0 gets the
    unassigned update, nothing is born. *)
Lemma C7_empty_frame_witness :
  ∃ t', Update_sched Ref.backwards Ref.two_tracks [] (Ref.frame 640 480) 25 = Some t'
    ∧ ids t' = [0]
    ∧ m_skippedFrames <$> m_tracks t' = [1]
    ∧ m_nextTrackID t' = 2.
Proof.
  assert (is_Some (m_SPCalculator Ref.two_tracks)) as Hsp by (by eexists).
  destruct (C7_empty_frame Ref.backwards Ref.two_tracks (Ref.frame 640 480) 25
              greedy_solver_contract schedule_backwards Hsp)
    as (t' & E & Ht & Hn).
  exists t'. split; [exact E|].
  unfold ids. rewrite Ht. split; [reflexivity|]. split; [reflexivity | exact Hn].
Defined.

(** The frame stored by a call is the one passed to it. *)
Lemma C8_prev_frame_witness :
  (∃ t0 : CTracker Ref.TrackData,
      CTracker_new Ref.settings = Some t0 ∧ m_prevFrame t0 = cv.UMat_default)
  ∧ ∃ t2, Update Ref.two_tracks [Ref.regA'; Ref.regFar] (Ref.frame 640 480) 25
          = Some t2
      ∧ m_prevFrame t2 = Ref.frame 640 480.
Proof.
  destruct (C8_prev_frame (D := Ref.TrackData) greedy_solver_contract) as [H0 Hstep].
  split; [apply H0|].
  assert (is_Some (m_SPCalculator Ref.two_tracks)) as Hsp by (by eexists).
  destruct (Hstep (seq 0) Ref.two_tracks [Ref.regA'; Ref.regFar] (Ref.frame 640 480)
              25%Q schedule_seq Hsp)
    as (kept & t1 & t2 & _ & _ & _ & E & Hp & _).
  exists t2. split; [exact E | exact Hp].
Defined.

(** Three frames, once with the update loop in index order and once
    backwards. *)
Lemma C9_determinism_witness :
  run (D := Ref.TrackData) (λ _, seq 0) Ref.settings
      [([Ref.regA; Ref.regB], Ref.frame 640 480, 25%Q);
       ([Ref.regA'; Ref.regFar], Ref.frame 640 480, 25%Q);
       ([], Ref.frame 640 480, 25%Q)]
  = run (λ _, Ref.backwards) Ref.settings
      [([Ref.regA; Ref.regB], Ref.frame 640 480, 25%Q);
       ([Ref.regA'; Ref.regFar], Ref.frame 640 480, 25%Q);
       ([], Ref.frame 640 480, 25%Q)].
Proof.
  apply C9_determinism; intros k; [apply schedule_seq | apply schedule_backwards].
Defined.

(** Both appearance weights are off in these settings, and the descriptor
    vector still has one (default-constructed) entry per region. *)
Lemma C10_embeddings_sized_witness :
  ∃ embs t',
    CalcEmbeddins Ref.two_tracks [] [Ref.regA'; Ref.regFar] (Ref.frame 640 480)
    = Some embs
    ∧ embs = [RegionEmbedding_default; RegionEmbedding_default]
    ∧ UpdateTrackingState Ref.two_tracks [Ref.regA'; Ref.regFar] (Ref.frame 640 480) 25
      = Some t'.
Proof.
  assert (is_Some (m_SPCalculator Ref.two_tracks)) as Hsp by (by eexists).
  destruct (C10_embeddings_sized (seq 0) Ref.two_tracks [Ref.regA'; Ref.regFar]
              (Ref.frame 640 480) 25 greedy_solver_contract schedule_seq Hsp)
    as (embs & E & _ & Hdef & _ & kept & t' & old & newb & _ & _ & EU & _); [done|].
  exists embs, t'. split; [exact E|]. split; [|exact EU].
  apply Hdef; vm_compute; intros H; discriminate.
Defined.

(** A back end that fails to load is not registered: with the first of two
    back ends failing, type 1 (named by it alone) has no calculator, type 2
    gets the second, and a region of type 1 keeps an empty embedding. *)
Example failed_backend_example :
  ∃ t0 : CTracker Ref.TrackData,
    CTracker_new Ref.emb_settings = Some t0
    ∧ m_embCalculators t0 !! 1%Z = None
    ∧ is_Some (m_embCalculators t0 !! 2%Z)
    ∧ m_embedding <$> (region_embedding t0 (Ref.frame 640 480)
                         <$> [Ref.regA; Ref.region 10 10 20 40 2])
      = [[]; [20%Q; 40%Q; 1%Q]].
Proof.
  eexists. split; [vm_compute; reflexivity|].
  split; [reflexivity|]. split; [by eexists | reflexivity].
Qed.

(** ** Further properties on concrete frames *)

Lemma best_free_not_used (cm : list Q) (N i : nat) (used cands : list nat)
    (best : option (nat * Q)) (j : nat) :
  (∀ jb c, best = Some (jb, c) → jb ∉ used) →
  Ref.best_free cm N i used cands best = Some j → j ∉ used.
Proof.
  revert best. induction cands as [|k cands IH]; intros best Hbest; simpl.
  - destruct best as [[jb c]|]; simpl; [|done]. intros [= <-]. by eapply Hbest.
  - destruct (bool_decide (k ∈ used)) eqn:Ek; [by apply IH|].
    apply bool_decide_eq_false_1 in Ek.
    destruct best as [[jb cb]|].
    + destruct (Qltb _ cb); apply IH; [|done].
      intros jb' c' [= <- _]. done.
    + apply IH. intros jb' c' [= <- _]. done.
Qed.

Lemma greedy_rows_fresh (cm : list Q) (N M : nat) (rows used : list nat) :
  NoDup (filter (λ a, a ≠ (-1)%Z) (Ref.greedy_rows cm N M rows used))
  ∧ ∀ j, Z.of_nat j ∈ Ref.greedy_rows cm N M rows used → j ∉ used.
Proof.
  revert used. induction rows as [|i rows IH]; intros used; simpl.
  - split; [apply NoDup_nil_2|]. intros j Hj. by apply elem_of_nil in Hj.
  - destruct (Ref.best_free cm N i used (seq 0 M) None) as [j|] eqn:Ej.
    + destruct (IH (j :: used)) as [Hnd Hfresh].
      rewrite filter_cons_True by lia. split.
      * apply NoDup_cons. split; [|done].
        intros [_ Hin]%list_elem_of_filter. apply Hfresh in Hin.
        apply Hin, elem_of_cons. by left.
      * intros j0 [Hj0|Hj0]%elem_of_cons.
        -- apply Nat2Z.inj in Hj0. subst j0.
           eapply best_free_not_used; [|exact Ej]. done.
        -- apply Hfresh in Hj0. intros Hu. apply Hj0, elem_of_cons. by right.
    + destruct (IH used) as [Hnd Hfresh].
      rewrite filter_cons_False by (intros Hne; by apply Hne). split; [done|].
      intros j0 [Hj0|Hj0]%elem_of_cons; [lia | by apply Hfresh].
Qed.

(** The greedy stand-in gives no region to two tracks. *)
Lemma greedy_solver_injective : solver_injective.
Proof. intros sp cm N M assignment mc. simpl. apply greedy_rows_fresh. Qed.

(** The matrix of two tracks and two regions, built once over zeros and
    once over a matrix full of sevens with an incoming [maxCost] of 5. *)
Lemma X5_matrix_overwritten_witness :
  ∃ cm mc,
    CreateDistaceMatrix Ref.two_tracks [Ref.regA'; Ref.regFar]
      [RegionEmbedding_default; RegionEmbedding_default] (replicate 4 0%Q)
      (inject_Z (640 * 480)) 0%Q = Some (cm, mc)
    ∧ CreateDistaceMatrix Ref.two_tracks [Ref.regA'; Ref.regFar]
        [RegionEmbedding_default; RegionEmbedding_default] [7; 7; 7; 7]%Q
        (inject_Z (640 * 480)) 5%Q = Some (cm, mc)
    ∧ length cm = 4.
Proof.
  destruct (X5_matrix_overwritten Ref.two_tracks [Ref.regA'; Ref.regFar]
              [RegionEmbedding_default; RegionEmbedding_default] (replicate 4 0%Q)
              [7; 7; 7; 7]%Q (inject_Z (640 * 480)) 0%Q 5%Q eq_refl eq_refl eq_refl)
    as (cm & mc & E1 & E2 & Hl & _).
  exists cm, mc. split; [exact E1|]. split; [exact E2 | exact Hl].
Defined.

(** In the same frame every pair but the first lies outside the prediction
    ellipse and costs 2: the returned [maxCost] is 2, an entry of the
    matrix. *)
Lemma X6_maxCost_witness :
  ∃ cm mc,
    CreateDistaceMatrix Ref.two_tracks [Ref.regA'; Ref.regFar]
      [RegionEmbedding_default; RegionEmbedding_default] [7; 7; 7; 7]%Q
      (inject_Z (640 * 480)) 5%Q = Some (cm, mc)
    ∧ (0 <= mc)%Q
    ∧ (mc = 0%Q ∨ mc ∈ cm)
    ∧ mc = 2%Q.
Proof.
  destruct (X6_maxCost Ref.two_tracks [Ref.regA'; Ref.regFar]
              [RegionEmbedding_default; RegionEmbedding_default] [7; 7; 7; 7]%Q
              (inject_Z (640 * 480)) 5%Q eq_refl eq_refl)
    as (cm & mc & E & H0 & _ & Hin & _).
  exists cm, mc. split; [exact E|]. split; [exact H0|]. split; [exact Hin|].
  vm_compute in E. by injection E as _ <-.
Defined.

(** Both appearance weights are 0 in these settings: the matrix can be
    built with no descriptors at all. *)
Lemma X7_descriptors_unread_witness :
  CreateDistaceMatrix Ref.two_tracks [Ref.regA'; Ref.regFar] [] (replicate 4 0%Q)
    (inject_Z (640 * 480)) 0%Q
  = CreateDistaceMatrix Ref.two_tracks [Ref.regA'; Ref.regFar]
      [RegionEmbedding_default; RegionEmbedding_default] (replicate 4 0%Q)
      (inject_Z (640 * 480)) 0%Q
  ∧ is_Some (CreateDistaceMatrix Ref.two_tracks [Ref.regA'; Ref.regFar] []
               (replicate 4 0%Q) (inject_Z (640 * 480)) 0%Q).
Proof.
  assert (¬ (0 < m_distType (m_settings Ref.two_tracks) tracking.DistHist)%Q) as Hh
    by (vm_compute; intros H; discriminate).
  assert (¬ (0 < m_distType (m_settings Ref.two_tracks) tracking.DistFeatureCos)%Q)
    as Hf by (vm_compute; intros H; discriminate).
  destruct (X7_descriptors_unread Ref.two_tracks [Ref.regA'; Ref.regFar] []
              [RegionEmbedding_default; RegionEmbedding_default] (replicate 4 0%Q)
              (inject_Z (640 * 480)) 0%Q Hh Hf) as [Heq Hsome].
  split; [exact Heq | exact (Hsome eq_refl)].
Defined.

(** The pair of track 1 and region 1 costs 9/10: it is voided under the
    threshold 4/5 and kept under the threshold 1. *)
Lemma X8_gating_monotone_witness :
  ∃ a1 t1 a2 t2,
    for_range (gating_step Ref.settings [1 # 10; 2; 2; 9 # 10]%Q 2) 2
      ([0; 1]%Z, [Ref.track 0 0 Ref.regA; Ref.track 1 1 Ref.regB]) = Some (a1, t1)
    ∧ for_range (gating_step Ref.loose_settings [1 # 10; 2; 2; 9 # 10]%Q 2) 2
        ([0; 1]%Z, [Ref.track 0 0 Ref.regA; Ref.track 1 1 Ref.regB]) = Some (a2, t2)
    ∧ a1 = [0; -1]%Z ∧ a2 = [0; 1]%Z
    ∧ (a1 !! 0 = Some 0%Z → a2 !! 0 = Some 0%Z).
Proof.
  assert (assignment_wf 2 2 [0; 1]%Z) as Hwf.
  { split; [reflexivity|].
    intros [|[|i]] a Ea; simpl in Ea; try discriminate; injection Ea as <-; lia. }
  assert (m_distThres Ref.settings <= m_distThres Ref.loose_settings)%Q as Hle
    by (vm_compute; discriminate).
  destruct (X8_gating_monotone Ref.settings Ref.loose_settings
              [1 # 10; 2; 2; 9 # 10]%Q 2 [0; 1]%Z
              [Ref.track 0 0 Ref.regA; Ref.track 1 1 Ref.regB] eq_refl Hwf Hle)
    as (a1 & t1 & a2 & t2 & E1 & E2 & Hkeep & _).
  exists a1, t1, a2, t2. split; [exact E1|]. split; [exact E2|].
  split; [vm_compute in E1; by injection E1 as <- _|].
  split; [vm_compute in E2; by injection E2 as <- _|].
  exact (Hkeep 0 0).
Defined.

(** The guarded block on the frame with a near and a far region: track 1
    is erased, track 0 stays with region 0. *)
Lemma X9_no_region_shared_witness :
  ∃ tracks' assignment',
    associate Ref.two_tracks [Ref.regA'; Ref.regFar]
      [RegionEmbedding_default; RegionEmbedding_default] (Ref.frame 640 480) 25
      (replicate 2 (-1)%Z) = Some (tracks', assignment')
    ∧ NoDup (filter (λ a, a ≠ (-1)%Z) assignment')
    ∧ assignment' = [0%Z].
Proof.
  assert (is_Some (m_SPCalculator Ref.two_tracks)) as Hsp by (by eexists).
  destruct (X9_no_region_shared Ref.two_tracks [Ref.regA'; Ref.regFar]
              [RegionEmbedding_default; RegionEmbedding_default] (Ref.frame 640 480)
              25 greedy_solver_contract greedy_solver_injective Hsp eq_refl)
    as (tracks' & assignment' & E & Hnd & _).
  exists tracks', assignment'. split; [exact E|]. split; [exact Hnd|].
  vm_compute in E. by injection E as _ <-.
Defined.

(** The first frame of a tracker: two regions, two tracks with identifiers
    0 and 1. *)
Lemma X10_no_tracks_all_born_witness :
  ∃ t', Update_sched Ref.backwards (Ref.tracker Ref.settings [] 0)
          [Ref.regA; Ref.regB] (Ref.frame 640 480) 25 = Some t'
    ∧ ids t' = [0; 1]
    ∧ m_nextTrackID t' = 2
    ∧ m_prevFrame t' = Ref.frame 640 480.
Proof.
  destruct (X10_no_tracks_all_born Ref.backwards (Ref.tracker Ref.settings [] 0)
              [Ref.regA; Ref.regB] (Ref.frame 640 480) 25 schedule_backwards eq_refl)
    as (t' & E & Ht & Hn & Hp).
  exists t'. split; [exact E|]. unfold ids. rewrite Ht.
  split; [reflexivity|]. split; [exact Hn | exact Hp].
Defined.

(** Two tracks and two regions: after the frame there are at least two and
    at most four tracks. *)
Lemma X11_every_region_tracked_witness :
  ∃ t', Update_sched Ref.backwards Ref.two_tracks [Ref.regA'; Ref.regFar]
          (Ref.frame 640 480) 25 = Some t'
    ∧ 2 ≤ length (m_tracks t')
    ∧ length (m_tracks t') ≤ 4.
Proof.
  assert (is_Some (m_SPCalculator Ref.two_tracks)) as Hsp by (by eexists).
  destruct (X11_every_region_tracked Ref.backwards Ref.two_tracks
              [Ref.regA'; Ref.regFar] (Ref.frame 640 480) 25
              greedy_solver_contract schedule_backwards Hsp)
    as (t' & E & Hlo & Hhi & _).
  exists t'. split; [exact E|]. split; [exact Hlo | exact Hhi].
Defined.

(** Two frames from a new tracker: the identifiers are 0, 1, 2 in this
    order. *)
Lemma X12_tracks_in_creation_order_witness :
  ∃ (t2 : CTracker Ref.TrackData) a b,
    reachable Ref.settings t2
    ∧ ids t2 !! 0 = Some a ∧ ids t2 !! 2 = Some b ∧ a < b.
Proof.
  assert (∃ t0 : CTracker Ref.TrackData,
            CTracker_new Ref.settings = Some t0
            ∧ ∃ t1, Update t0 [Ref.regA; Ref.regB] (Ref.frame 640 480) 25 = Some t1
              ∧ ∃ t2, Update t1 [Ref.regA'; Ref.regFar] (Ref.frame 640 480) 25
                      = Some t2
                ∧ ids t2 = [0; 1; 2])
    as (t0 & E0 & t1 & E1 & t2 & E2 & Hi2).
  { eexists. split; [vm_compute; reflexivity|].
    eexists. split; [vm_compute; reflexivity|].
    eexists. split; [vm_compute; reflexivity|]. reflexivity. }
  assert (reachable Ref.settings t2) as Hr.
  { eapply reach_update; [|apply schedule_seq|exact E2].
    eapply reach_update; [|apply schedule_seq|exact E1].
    by apply reach_new. }
  assert (ids t2 !! 0 = Some 0) as Ha by (by rewrite Hi2).
  assert (ids t2 !! 2 = Some 2) as Hb by (by rewrite Hi2).
  exists t2, 0, 2. split; [exact Hr|]. split; [exact Ha|]. split; [exact Hb|].
  exact (X12_tracks_in_creation_order Ref.settings t2 ref_track_id_contract
           greedy_solver_contract Hr 0 2 0 2 ltac:(lia) Ha Hb).
Defined.

(** After a frame the tracker still has the settings and the solver it was
    built with. *)
Lemma X13_configuration_frozen_witness :
  ∃ t1 : CTracker Ref.TrackData,
    reachable Ref.settings t1
    ∧ m_settings t1 = Ref.settings
    ∧ is_Some (m_SPCalculator t1).
Proof.
  assert (∃ t0 : CTracker Ref.TrackData,
            CTracker_new Ref.settings = Some t0
            ∧ ∃ t1, Update t0 [Ref.regA; Ref.regB] (Ref.frame 640 480) 25 = Some t1)
    as (t0 & E0 & t1 & E1).
  { eexists. split; [vm_compute; reflexivity|].
    eexists. vm_compute. reflexivity. }
  assert (reachable Ref.settings t1) as Hr.
  { eapply reach_update; [|apply schedule_seq|exact E1]. by apply reach_new. }
  destruct (X13_configuration_frozen Ref.settings t1 Hr)
    as (t0' & _ & Hs & _ & _ & Hsp).
  exists t1. split; [exact Hr|]. split; [exact Hs | exact Hsp].
Defined.

(** Track 0 leaves the guarded block with the near region, at a cost of
    1/128, below the threshold 4/5. *)
Lemma X14_associations_within_threshold_witness :
  ∃ tracks' assignment' reg e,
    associate Ref.two_tracks [Ref.regA'; Ref.regFar]
      [RegionEmbedding_default; RegionEmbedding_default] (Ref.frame 640 480) 25
      (replicate 2 (-1)%Z) = Some (tracks', assignment')
    ∧ tracks' !! 0 = Some (Ref.track 0 0 Ref.regA)
    ∧ assignment' !! 0 = Some 0%Z
    ∧ [Ref.regA'; Ref.regFar] !! 0 = Some reg
    ∧ (pair_cost Ref.settings (Ref.track 0 0 Ref.regA)
         (CalcPredictionEllipse (Ref.track 0 0 Ref.regA)
            (min_radius Ref.settings (Ref.track 0 0 Ref.regA)))
         reg e (max_possible_cost (Ref.frame 640 480)) <= 4 # 5)%Q.
Proof.
  assert (is_Some (m_SPCalculator Ref.two_tracks)) as Hsp by (by eexists).
  destruct (X14_associations_within_threshold Ref.two_tracks [Ref.regA'; Ref.regFar]
              [RegionEmbedding_default; RegionEmbedding_default] (Ref.frame 640 480)
              25 greedy_solver_contract Hsp eq_refl)
    as (tracks' & assignment' & E & H).
  assert (tracks' !! 0 = Some (Ref.track 0 0 Ref.regA)
          ∧ assignment' !! 0 = Some (Z.of_nat 0)) as [Et Ea].
  { pose proof E as E'. vm_compute in E'. injection E' as <- <-.
    split; reflexivity. }
  pose proof (H 0 (Ref.track 0 0 Ref.regA) 0 Et Ea) as H0. cbv zeta in H0.
  destruct H0 as (reg & e & _ & Er & _ & Hcost & _).
  exists tracks', assignment', reg, e.
  split; [exact E|]. split; [exact Et|]. split; [exact Ea|].
  split; [exact Er | exact Hcost].
Defined.

(** The stand-in distances of the two tracks to the two regions are in
    range: all four costs are non-negative and [maxCost] is the largest. *)
Lemma X15_costs_nonnegative_witness :
  ∃ cm mc c,
    CreateDistaceMatrix Ref.two_tracks [Ref.regA'; Ref.regFar]
      [RegionEmbedding_default; RegionEmbedding_default] (replicate 4 0%Q)
      (inject_Z (640 * 480)) 0%Q = Some (cm, mc)
    ∧ (∀ c', c' ∈ cm → (0 <= c')%Q)
    ∧ c ∈ cm ∧ (c == mc)%Q.
Proof.
  assert (∀ ind, (0 <= m_distType (m_settings Ref.two_tracks) ind)%Q) as Hw.
  { intros [|[|ind]]; vm_compute; discriminate. }
  assert (0 <= inject_Z (640 * 480))%Q as Hmpc by (vm_compute; discriminate).
  assert (∀ i j track reg emb,
            m_tracks Ref.two_tracks !! i = Some track →
            [Ref.regA'; Ref.regFar] !! j = Some reg →
            [RegionEmbedding_default; RegionEmbedding_default] !! j = Some emb →
            (0 <= IsInsideArea track (cv.center (m_rrect reg))
                    (CalcPredictionEllipse track
                       (min_radius (m_settings Ref.two_tracks) track)))%Q
            ∧ (0 <= WidthDist track reg <= 1)%Q ∧ (0 <= HeightDist track reg <= 1)%Q
            ∧ (0 <= CalcDistJaccard track reg)%Q
            ∧ (0 <= CalcDistHist track emb)%Q
            ∧ (0 <= CalcCosine track emb)%Q) as Hrange.
  { intros [|[|i]] [|[|j]] track reg emb Et Er Ee; simpl in Et, Er, Ee;
      try discriminate; injection Et as <-; injection Er as <-; injection Ee as <-;
      vm_compute; repeat split; discriminate. }
  destruct (X15_costs_nonnegative Ref.two_tracks [Ref.regA'; Ref.regFar]
              [RegionEmbedding_default; RegionEmbedding_default] (replicate 4 0%Q)
              (inject_Z (640 * 480)) 0%Q eq_refl eq_refl Hw Hmpc Hrange)
    as (cm & mc & E & Hpos & Hmax).
  destruct Hmax as (c & Hc & Heq & _).
  { intros ->. vm_compute in E. discriminate. }
  exists cm, mc, c. split; [exact E|]. split; [exact Hpos|].
  split; [exact Hc | exact Heq].
Defined.
